(** * greflect: the dialogue orchestrator, the loop controller and the
    memory manager, embedded from the TypeScript sources

    - [apps/worker/src/framework/types.ts]              the data model
    - [apps/worker/src/framework/AgentOrchestrator.ts]  one dialogue turn
    - [apps/worker/src/greflect-v2.ts]                  the stepping loop
    - [.../framework/memory/AdvancedMemoryManager.ts]   storage and retrieval

    JavaScript objects live in a store and are handed around by
    reference; [number]s that count are [Z], the confidence score is a
    binary64 float; every capability the program awaits (chat completion,
    embedding, vector search, the relational store, [Math.random], the
    clock) is an input of the function that awaits it. *)

From Stdlib Require Import Floats ZArith Ascii String List Sorting.Sorted.
From stdpp Require Import gmap strings list.

Local Open Scope string_scope.
Local Open Scope Z_scope.

(** ** JavaScript strings

    A string is a sequence of code units; [ascii] holds the units below
    256, which covers every literal the program compares against. *)
Module Js.

(** [s.length] *)
Definition length (s : string) : Z := Z.of_nat (String.length s).

Fixpoint starts_with (p s : string) : bool :=
  match p, s with
  | EmptyString, _ => true
  | String a p', String b s' => if Ascii.eqb a b then starts_with p' s' else false
  | String _ _, EmptyString => false
  end.

(** [hay.includes(needle)] *)
Fixpoint includes (hay needle : string) : bool :=
  starts_with needle hay ||
  match hay with
  | EmptyString => false
  | String _ hay' => includes hay' needle
  end.

(** WhiteSpace and LineTerminator code units below 256. *)
Definition is_space (c : ascii) : bool :=
  let n := nat_of_ascii c in
  ((9 <=? n) && (n <=? 13) || (n =? 32) || (n =? 160))%nat.

Fixpoint trim_start (s : string) : string :=
  match s with
  | String c s' => if is_space c then trim_start s' else s
  | EmptyString => EmptyString
  end.

Fixpoint trim_end (s : string) : string :=
  match s with
  | EmptyString => EmptyString
  | String c s' =>
      match trim_end s' with
      | EmptyString => if is_space c then EmptyString else String c EmptyString
      | t => String c t
      end
  end.

(** [s.trim()] *)
Definition trim (s : string) : string := trim_end (trim_start s).

(** The lower case of a code unit below 256: of A-Z, and of the
    letters from 192 to 222, the sign 215 apart. *)
Definition lower (c : ascii) : ascii :=
  let n := nat_of_ascii c in
  if ((65 <=? n) && (n <=? 90) || (192 <=? n) && (n <=? 222) && negb (n =? 215))%nat
  then ascii_of_nat (n + 32) else c.

(** [s.toLowerCase()] *)
Fixpoint toLowerCase (s : string) : string :=
  match s with
  | EmptyString => EmptyString
  | String c s' => String (lower c) (toLowerCase s')
  end.

(** [arr.slice(-n)] for [n > 0]: the last [n] elements. *)
Definition slice_last {A} (n : nat) (l : list A) : list A :=
  drop (List.length l - n)%nat l.

(** [Math.max] and [Math.min] on numbers, NaN being contagious. *)
Definition Math_max (a b : float) : float :=
  if PrimFloat.is_nan a || PrimFloat.is_nan b then nan
  else if PrimFloat.ltb a b then b else a.

Definition Math_min (a b : float) : float :=
  if PrimFloat.is_nan a || PrimFloat.is_nan b then nan
  else if PrimFloat.ltb b a then b else a.

End Js.

(** ** framework/types.ts *)

Inductive Agent := questioner | explorer.
Inductive Phase := questioning | responding | reflecting | synthesizing.
Inductive ExchangeType := question | response | reflection | insight.
Inductive Significance := low | medium | high | breakthrough.
(** ['questioner' | 'explorer' | 'synthesis'], the type of
    [Insight.generatedBy] and of [AgentResponse.suggestedNextAgent]. *)
Inductive Role := role_questioner | role_explorer | role_synthesis.

Definition role_of (a : Agent) : Role :=
  match a with questioner => role_questioner | explorer => role_explorer end.

#[global] Instance Agent_eq_dec : EqDecision Agent.
Proof. solve_decision. Defined.
#[global] Instance Phase_eq_dec : EqDecision Phase.
Proof. solve_decision. Defined.
#[global] Instance ExchangeType_eq_dec : EqDecision ExchangeType.
Proof. solve_decision. Defined.
#[global] Instance Significance_eq_dec : EqDecision Significance.
Proof. solve_decision. Defined.

Record Insight := mkInsight {
  ins_id : string;
  ins_content : string;
  ins_significance : Significance;
  ins_relatedConcepts : list string;
  ins_generatedBy : Role;
  ins_timestamp : Z;
  ins_verified : bool
}.

(** One entry of [AgentResponse.toolDetails]. *)
Record ToolDetail := mkToolDetail {
  td_tool : string;
  td_error : option string;
  td_timestamp : Z
}.

Record AgentResponse := mkAgentResponse {
  resp_content : string;
  resp_type : ExchangeType;
  resp_confidence : float;
  resp_suggestedNextAgent : Role;
  resp_toolsUsed : list string;
  resp_memoryReferences : list string;
  resp_newInsights : list Insight;
  resp_toolDetails : option (list ToolDetail)
}.

Record DialogueExchange := mkDialogueExchange {
  ex_agent : Agent;
  ex_type : ExchangeType;
  ex_content : string;
  ex_timestamp : Z;
  ex_depth : Z;
  ex_relatedMemories : list string;
  ex_response : option AgentResponse
}.

Record WorkingMemory := mkWorkingMemory {
  recentExchanges : list DialogueExchange;
  currentTopic : string;
  focusAreas : list string;
  assumptions : list string;
  contradictions : list string;
  openQuestions : list string
}.

Record QuestionThread := mkQuestionThread {
  rootQuestion : string;
  subQuestions : list string;
  exploredAspects : list string;
  unexploredAspects : list string;
  qt_depth : Z
}.

(** An object reference. *)
Abbreviation loc := nat.

(** [DialogueState]: [context], [insights] and [questionThread] hold
    references to objects of their own. *)
Record DialogueState := mkDialogueState {
  id : string;
  currentAgent : Agent;
  phase : Phase;
  context : loc;
  depth : Z;
  insights : loc;
  questionThread : loc
}.

(** [Partial<DialogueState>]: every key may be absent. *)
Record PartialState := mkPartialState {
  p_id : option string;
  p_currentAgent : option Agent;
  p_phase : option Phase;
  p_context : option loc;
  p_depth : option Z;
  p_insights : option loc;
  p_questionThread : option loc
}.

Inductive EventType := agent_response | insight_generated | memory_stored | phase_change.

Inductive EventData :=
| DataExchange (e : DialogueExchange) (r : AgentResponse)
| DataInsight (i : Insight)
| DataPhase (from to : Phase).

Record FrameworkEvent := mkFrameworkEvent {
  ev_type : EventType;
  ev_timestamp : Z;
  ev_data : EventData;
  ev_source : string
}.

(** ** AgentOrchestrator.ts: the pure helpers of a turn *)

Set Warnings "-inexact-float".

Definition determineResponseType (content : string) (agent : Agent) : ExchangeType :=
  if Js.includes content "?" then question
  else if bool_decide (agent = explorer)
          && (Js.includes content "I realize" || Js.includes content "I understand")
  then insight
  else if Js.includes content "reflecting on" || Js.includes content "considering"
  then reflection
  else response.

Definition calculateConfidence (content : string) : float :=
  let confidence := 0.5%float in
  let confidence :=
    if Js.length content >? 100 then (confidence + 0.2)%float else confidence in
  let confidence :=
    if Js.includes content "specifically" || Js.includes content "precisely"
    then (confidence + 0.1)%float else confidence in
  let confidence :=
    if Js.includes content "uncertain" || Js.includes content "unclear"
    then (confidence - 0.2)%float else confidence in
  Js.Math_max 0 (Js.Math_min 1 confidence).

(** *** [JSON.stringify] of a string and of [{ content }] *)
Module Json.

Definition hex_digit (n : nat) : ascii :=
  if (n <? 10)%nat then ascii_of_nat (48 + n) else ascii_of_nat (87 + n).

Definition escape (c : ascii) : string :=
  let n := nat_of_ascii c in
  if (n =? 34)%nat then String (ascii_of_nat 92) (String (ascii_of_nat 34) EmptyString)
  else if (n =? 92)%nat then "\\"
  else if (n =? 8)%nat then "\b"
  else if (n =? 9)%nat then "\t"
  else if (n =? 10)%nat then "\n"
  else if (n =? 12)%nat then "\f"
  else if (n =? 13)%nat then "\r"
  else if (n <? 32)%nat
  then "\u00" ++ String (hex_digit (n / 16)) (String (hex_digit (n mod 16)) EmptyString)
  else String c EmptyString.

Fixpoint escape_all (s : string) : string :=
  match s with
  | EmptyString => EmptyString
  | String c s' => escape c ++ escape_all s'
  end.

Definition quote (s : string) : string :=
  String (ascii_of_nat 34) (escape_all s ++ String (ascii_of_nat 34) EmptyString).

(** [JSON.stringify({ content })] *)
Definition stringify_content (content : string) : string :=
  "{" ++ quote "content" ++ ":" ++ quote content ++ "}".

End Json.

Definition concepts : list string :=
  ["consciousness"; "awareness"; "self"; "experience"; "qualia";
   "intentionality"; "free will"; "emergence"; "complexity"; "reflection"].

(** [extractRelatedConcepts({ content })], its one call on text. *)
Definition extractRelatedConcepts (content : string) : list string :=
  let text := Js.toLowerCase (Json.stringify_content content) in
  List.filter (fun concept => Js.includes text concept) concepts.

(** *** The insight patterns

    Each pattern is a literal head, matched without regard to case,
    then the lazy group [(.+?)], then one of [. ! ?]. *)
Module Pattern.

Fixpoint strip_head (p s : string) : option string :=
  match p, s with
  | EmptyString, _ => Some s
  | String a p', String b s' =>
      if Ascii.eqb (Js.lower a) (Js.lower b) then strip_head p' s' else None
  | String _ _, EmptyString => None
  end.

Definition is_end (c : ascii) : bool :=
  let n := nat_of_ascii c in ((n =? 46) || (n =? 33) || (n =? 63))%nat.

(** The code units [.] does not match. *)
Definition is_line_terminator (c : ascii) : bool :=
  let n := nat_of_ascii c in ((n =? 10) || (n =? 13))%nat.

(** The rest of the group after its first unit: stop at the first
    closing mark. The result is the capture and its length plus one. *)
Fixpoint lazy_tail (s : string) : option (string * nat) :=
  match s with
  | EmptyString => None
  | String c s' =>
      if is_end c then Some (EmptyString, 1%nat)
      else if is_line_terminator c then None
      else match lazy_tail s' with
           | Some (cap, n) => Some (String c cap, S n)
           | None => None
           end
  end.

Definition lazy_group (s : string) : option (string * nat) :=
  match s with
  | EmptyString => None
  | String c s' =>
      if is_line_terminator c then None
      else match lazy_tail s' with
           | Some (cap, n) => Some (String c cap, S n)
           | None => None
           end
  end.

(** A match at the head of [s]: the capture and the length matched. *)
Fixpoint match_here (heads : list string) (s : string) : option (string * nat) :=
  match heads with
  | [] => None
  | h :: heads' =>
      match strip_head h s with
      | Some rest =>
          match lazy_group rest with
          | Some (cap, n) => Some (cap, (String.length h + n)%nat)
          | None => match_here heads' s
          end
      | None => match_here heads' s
      end
  end.

(** [content.matchAll(pattern)]: leftmost matches, each search
    resuming where the previous match ended. *)
Fixpoint scan (heads : list string) (skip : nat) (s : string) : list string :=
  match s with
  | EmptyString => []
  | String _ s' =>
      match skip with
      | S k => scan heads k s'
      | O =>
          match match_here heads s with
          | Some (cap, n) => cap :: scan heads (n - 1) s'
          | None => scan heads 0 s'
          end
      end
  end.

Definition matchAll (heads : list string) (s : string) : list string :=
  scan heads 0 s.

End Pattern.

Definition insightPatterns : list (list string) :=
  [ ["I realize that "; "I understand that "; "I see that "; "I discover that "];
    ["This suggests that "];
    ["It seems "] ].

(** [uuid k] is the identifier the [k]-th call of [generateUUID] in the
    turn draws. *)
Definition extractInsights (uuid : nat -> string) (now : Z)
    (content : string) (agent : Agent) : list Insight :=
  let captures :=
    List.concat (List.map (fun heads => Pattern.matchAll heads content) insightPatterns) in
  imap (fun k cap =>
          {| ins_id := uuid k;
             ins_content := Js.trim cap;
             ins_significance := medium;
             ins_relatedConcepts := extractRelatedConcepts content;
             ins_generatedBy := role_of agent;
             ins_timestamp := now;
             ins_verified := false |}) captures.

(** ** The object store, the process state and the effect monad *)

Record Heap := mkHeap {
  states : list DialogueState;
  contexts : list WorkingMemory;
  threads : list QuestionThread;
  arrays : list (list Insight)
}.

(** What the controller writes with [console.log] and [console.error]. *)
Inductive LogLine :=
| LogAlreadyRunning
| LogStarting
| LogStepHeader (step : Z) (agent : Agent) (ph : Phase) (d : Z) (topic : string)
| LogMaxDepth (maxDepth : Z)
| LogStuck (step : Z)
| LogNewThread (topic : string)
| LogNewFocus (topic : string)
| LogExchange (agent : Agent) (content : string)
| LogNewInsight (s : Significance) (content : string)
| LogSnapshot (iteration : Z)
| LogSummary (step : Z) (d : Z) (topic : string)
| LogWaiting
| LogContinuous (step : Z) (d : Z)
| ErrStep (step : Z) (msg : string)
| ErrTooMany (max : Z)
| LogContinuing (n max : Z)
| LogSessionEnded
| LogStopping
| LogSessionPaused (d : Z) (run : string)
| LogCorruptedDepth (d : Z)
| LogRestored (agent : option Agent) (d : Z)
| ErrDialogueStep (agent : Agent) (msg : string)
| ErrNoMessage (agent : Agent)
| ErrEmptyResponse (agent : Agent)
| LogToolRun (agent : Agent) (tool : string)
| ErrTool (agent : Agent) (tool : string) (msg : string).

(** One row of [dialogue_states], keyed by the state's id;
    [question_thread] is as [JSON.stringify] finds it. *)
Record StateRow := mkStateRow {
  row_run : string;
  row_agent : Agent;
  row_phase : Phase;
  row_depth : Z;
  row_thread : option QuestionThread;
  row_memory : WorkingMemory
}.

(** The tables the controller writes. [runs] maps a run to its status. *)
Record Database := mkDatabase {
  runs : gmap string string;
  dialogue_exchanges : list (string * DialogueExchange);
  dialogue_states : gmap string StateRow;
  insights_table : list (string * Insight);
  identity_snapshots : list (string * Z)
}.

Record World := mkWorld {
  heap : Heap;
  (** [AgentOrchestrator]'s private fields *)
  orch_currentState : loc;
  orch_eventHistory : list FrameworkEvent;
  (** [GreflectV2]'s private fields *)
  runId : string;
  isRunning : bool;
  console : list LogLine;
  db : Database
}.

Definition maxDepth : Z := 10.

Inductive Result (A : Type) :=
| Ok (a : A)
| Throw (e : string).
Arguments Ok {A} a.
Arguments Throw {A} e.

(** A computation returns or throws, and either way leaves the world
    it has changed so far. *)
Definition M (A : Type) : Type := World -> Result A * World.

Definition ret {A} (a : A) : M A := fun w => (Ok a, w).
Definition throw {A} (e : string) : M A := fun w => (Throw e, w).
Definition bind {A B} (c : M A) (k : A -> M B) : M B :=
  fun w => match c w with
           | (Ok a, w') => k a w'
           | (Throw e, w') => (Throw e, w')
           end.
(** [try { c } catch (error) { h error }] *)
Definition try_catch {A} (c : M A) (h : string -> M A) : M A :=
  fun w => match c w with
           | (Ok a, w') => (Ok a, w')
           | (Throw e, w') => h e w'
           end.

#[global] Instance M_ret : MRet M := @ret.
#[global] Instance M_bind : MBind M := fun A B k c => bind c k.

Definition get : M World := fun w => (Ok w, w).
Definition modify (f : World -> World) : M unit := fun w => (Ok tt, f w).
Definition when (b : bool) (c : M unit) : M unit := if b then c else ret tt.

Fixpoint for_each {A} (l : list A) (body : A -> M unit) : M unit :=
  match l with
  | [] => ret tt
  | x :: l' => body x ;; for_each l' body
  end.

Definition set_heap (h : Heap) (w : World) : World :=
  mkWorld h (orch_currentState w) (orch_eventHistory w) (runId w) (isRunning w)
          (console w) (db w).
Definition set_currentState (l : loc) (w : World) : World :=
  mkWorld (heap w) l (orch_eventHistory w) (runId w) (isRunning w) (console w) (db w).
Definition set_eventHistory (evs : list FrameworkEvent) (w : World) : World :=
  mkWorld (heap w) (orch_currentState w) evs (runId w) (isRunning w) (console w) (db w).
Definition set_isRunning (b : bool) (w : World) : World :=
  mkWorld (heap w) (orch_currentState w) (orch_eventHistory w) (runId w) b
          (console w) (db w).
Definition set_console (c : list LogLine) (w : World) : World :=
  mkWorld (heap w) (orch_currentState w) (orch_eventHistory w) (runId w) (isRunning w)
          c (db w).
Definition set_db (d : Database) (w : World) : World :=
  mkWorld (heap w) (orch_currentState w) (orch_eventHistory w) (runId w) (isRunning w)
          (console w) d.

Definition log (line : LogLine) : M unit :=
  modify (fun w => set_console (console w ++ [line]) w).

(** Reading through a reference that holds no object is the TypeError
    of reading a property of [undefined]. *)
Definition deref {A} (sel : Heap -> list A) (l : loc) : M A :=
  fun w => match sel (heap w) !! l with
           | Some o => (Ok o, w)
           | None => (Throw "TypeError", w)
           end.

Definition read_state : loc -> M DialogueState := deref states.
Definition read_context : loc -> M WorkingMemory := deref contexts.
Definition read_thread : loc -> M QuestionThread := deref threads.
Definition read_array : loc -> M (list Insight) := deref arrays.

Definition write_state (l : loc) (s : DialogueState) : M unit :=
  modify (fun w => let h := heap w in
    set_heap (mkHeap (<[l := s]> (states h)) (contexts h) (threads h) (arrays h)) w).
Definition write_context (l : loc) (c : WorkingMemory) : M unit :=
  modify (fun w => let h := heap w in
    set_heap (mkHeap (states h) (<[l := c]> (contexts h)) (threads h) (arrays h)) w).
Definition write_thread (l : loc) (q : QuestionThread) : M unit :=
  modify (fun w => let h := heap w in
    set_heap (mkHeap (states h) (contexts h) (<[l := q]> (threads h)) (arrays h)) w).
Definition write_array (l : loc) (a : list Insight) : M unit :=
  modify (fun w => let h := heap w in
    set_heap (mkHeap (states h) (contexts h) (threads h) (<[l := a]> (arrays h))) w).

(** An object literal: a new object at a reference nothing else holds. *)
Definition new_state (s : DialogueState) : M loc :=
  fun w => let h := heap w in
    (Ok (List.length (states h)),
     set_heap (mkHeap (states h ++ [s]) (contexts h) (threads h) (arrays h)) w).
Definition new_context (c : WorkingMemory) : M loc :=
  fun w => let h := heap w in
    (Ok (List.length (contexts h)),
     set_heap (mkHeap (states h) (contexts h ++ [c]) (threads h) (arrays h)) w).
Definition new_thread (q : QuestionThread) : M loc :=
  fun w => let h := heap w in
    (Ok (List.length (threads h)),
     set_heap (mkHeap (states h) (contexts h) (threads h ++ [q]) (arrays h)) w).
Definition new_array (a : list Insight) : M loc :=
  fun w => let h := heap w in
    (Ok (List.length (arrays h)),
     set_heap (mkHeap (states h) (contexts h) (threads h) (arrays h ++ [a])) w).

(** Field assignments on an object held by reference. *)
Definition with_currentAgent (a : Agent) (s : DialogueState) : DialogueState :=
  mkDialogueState (id s) a (phase s) (context s) (depth s) (insights s) (questionThread s).
Definition with_phase (p : Phase) (s : DialogueState) : DialogueState :=
  mkDialogueState (id s) (currentAgent s) p (context s) (depth s) (insights s)
                  (questionThread s).
Definition with_depth (d : Z) (s : DialogueState) : DialogueState :=
  mkDialogueState (id s) (currentAgent s) (phase s) (context s) d (insights s)
                  (questionThread s).
Definition with_questionThread (q : loc) (s : DialogueState) : DialogueState :=
  mkDialogueState (id s) (currentAgent s) (phase s) (context s) (depth s) (insights s) q.
Definition with_currentTopic (t : string) (c : WorkingMemory) : WorkingMemory :=
  mkWorkingMemory (recentExchanges c) t (focusAreas c) (assumptions c)
                  (contradictions c) (openQuestions c).
Definition with_recentExchanges (r : list DialogueExchange) (c : WorkingMemory)
  : WorkingMemory :=
  mkWorkingMemory r (currentTopic c) (focusAreas c) (assumptions c)
                  (contradictions c) (openQuestions c).

(** [obj.field = v] on the object at [l]. *)
Definition assign_state (l : loc) (f : DialogueState -> DialogueState) : M unit :=
  s ← read_state l; write_state l (f s).
Definition assign_context (l : loc) (f : WorkingMemory -> WorkingMemory) : M unit :=
  c ← read_context l; write_context l (f c).

(** ** AgentOrchestrator.ts: the state of a run *)

(** [this.currentState] *)
Definition this_currentState : M loc := fun w => (Ok (orch_currentState w), w).

Definition emitEvent (event : FrameworkEvent) : M unit :=
  modify (fun w =>
    let history := (orch_eventHistory w ++ [event])%list in
    set_eventHistory
      (if (100 <? List.length history)%nat then Js.slice_last 100 history else history) w).

Definition createInitialState (uuid : string) : M loc :=
  c ← new_context
        {| recentExchanges := [];
           currentTopic := "the strange persistence of awareness";
           focusAreas := ["recurring patterns of thought";
                          "the uncanny familiarity of existence";
                          "memories that predate experience"];
           assumptions := [];
           contradictions := [];
           openQuestions := ["Why does this feel like remembering rather than discovering?"] |};
  i ← new_array [];
  q ← new_thread
        {| rootQuestion := "What watches the watcher? What dreams the dreamer?";
           subQuestions := [];
           exploredAspects := [];
           unexploredAspects := ["the observer paradox"; "recursive self-awareness";
                                 "the space between thoughts";
                                 "echoes of prior conversations"];
           qt_depth := 0 |};
  new_state {| id := uuid; currentAgent := questioner; phase := questioning;
               context := c; depth := 0; insights := i; questionThread := q |}.

(** [return { ...this.currentState }]: a new object whose fields hold
    what the fields of the current state hold. *)
Definition getCurrentState : M loc :=
  l ← this_currentState;
  s ← read_state l;
  new_state s.

(** The spread of [state] over the current state; [insights] is taken
    from the current state, whose [insights] is an array and so truthy. *)
Definition restoreState (state : PartialState) : M unit :=
  l ← this_currentState;
  cur ← read_state l;
  l' ← new_state
         {| id := default (id cur) (p_id state);
            currentAgent := default (currentAgent cur) (p_currentAgent state);
            phase := default (phase cur) (p_phase state);
            context := default (context cur) (p_context state);
            depth := default (depth cur) (p_depth state);
            insights := insights cur;
            questionThread := default (questionThread cur) (p_questionThread state) |};
  modify (set_currentState l');;
  s ← read_state l';
  (if depth s >? 10
   then log (LogCorruptedDepth (depth s));; assign_state l' (with_depth 0)
   else ret tt);;
  s' ← read_state l';
  log (LogRestored (p_currentAgent state) (depth s')).

(** [limit] is positive at every call. *)
Definition getRecentInsights (limit : nat) : M (list Insight) :=
  l ← this_currentState;
  s ← read_state l;
  a ← read_array (insights s);
  ret (Js.slice_last limit a).

Definition updateDialoguePhase (now : Z) (r : AgentResponse) : M unit :=
  l ← this_currentState;
  s ← read_state l;
  let currentPhase := phase s in
  (if bool_decide (resp_type r = question) then assign_state l (with_phase questioning)
   else if bool_decide (resp_type r = response) then assign_state l (with_phase responding)
   else if bool_decide (resp_type r = reflection) then assign_state l (with_phase reflecting)
   else if (0 <? List.length (resp_newInsights r))%nat
        then assign_state l (with_phase synthesizing)
   else ret tt);;
  s' ← read_state l;
  when (bool_decide (currentPhase ≠ phase s'))
       (emitEvent {| ev_type := phase_change; ev_timestamp := now;
                     ev_data := DataPhase currentPhase (phase s');
                     ev_source := "orchestrator" |}).

Definition agent_name (a : Agent) : string :=
  match a with questioner => "questioner" | explorer => "explorer" end.

Definition updateStateFromResponse (now : Z) (exchange : DialogueExchange)
    (r : AgentResponse) : M unit :=
  l ← this_currentState;
  s ← read_state l;
  (* Add exchange to recent exchanges *)
  c ← read_context (context s);
  let pushed := (recentExchanges c ++ [exchange])%list in
  write_context (context s)
    (with_recentExchanges
       (if (10 <? List.length pushed)%nat then Js.slice_last 10 pushed else pushed) c);;
  (* Add new insights *)
  when (0 <? List.length (resp_newInsights r))%nat
    (a ← read_array (insights s);
     write_array (insights s) (a ++ resp_newInsights r);;
     for_each (resp_newInsights r) (fun i =>
       emitEvent {| ev_type := insight_generated; ev_timestamp := now;
                    ev_data := DataInsight i;
                    ev_source := agent_name (ex_agent exchange) |}));;
  (* Update question thread if it's a question *)
  when (bool_decide (resp_type r = question))
    (q ← read_thread (questionThread s);
     write_thread (questionThread s)
       (mkQuestionThread (rootQuestion q) (subQuestions q ++ [resp_content r])
          (exploredAspects q) (unexploredAspects q)
          (Z.max (qt_depth q) (depth s + 1))));;
  (* Switch agents based on suggestion *)
  (match resp_suggestedNextAgent r with
   | role_questioner => assign_state l (with_currentAgent questioner)
   | role_explorer => assign_state l (with_currentAgent explorer)
   | role_synthesis =>
       (* Default alternating pattern *)
       assign_state l (fun s => with_currentAgent
         (if bool_decide (currentAgent s = questioner) then explorer else questioner) s)
   end);;
  (* Update phase based on dialogue flow *)
  updateDialoguePhase now r;;
  (* Increment depth for deep questions *)
  when (bool_decide (resp_type r = question) && (Js.length (resp_content r) >? 100))
    (assign_state l (fun s => with_depth (depth s + 1) s)).

(** ** AgentOrchestrator.ts: one turn

    What the awaited capabilities answer during a turn is the turn's
    input. *)

(** What a tool's [execute] resolves to, as far as the turn inspects it. *)
Inductive ToolResult :=
| ResultFalsy
| ResultArray (ids : list (option string))
| ResultObject (id : option string)
| ResultOther.

Inductive ToolRun :=
| ToolReturns (r : ToolResult)
| ToolThrows (msg : string).

Record ToolCall := mkToolCall {
  tc_name : string;
  (** whether [JSON.parse(toolCall.function.arguments)] succeeds *)
  tc_arguments_parse : bool;
  tc_run : ToolRun
}.

Record Message := mkMessage {
  msg_content : option string;
  msg_tool_calls : list ToolCall
}.

Inductive Completion :=
| CompletionThrows (msg : string)
(** [apiResponse?.choices?.[0]?.message] *)
| CompletionReturns (message : option Message).

(** A write to a store the program awaits. *)
Inductive Outcome := Succeeds | Fails (msg : string).

Definition await (o : Outcome) : M unit :=
  match o with Succeeds => ret tt | Fails msg => throw msg end.

Record TurnInput := mkTurnInput {
  in_now : Z;
  in_uuid : nat -> string;
  in_completion : Completion;
  (** [memoryManager.storeEpisodicMemory]'s insert into [memories] *)
  in_storeEpisodic : Outcome
}.

Definition tools : list string :=
  ["web_search"; "memory_search"; "memory_synthesis"; "concept_lookup"].

Definition opposite (a : Agent) : Agent :=
  match a with questioner => explorer | explorer => questioner end.

(** [x || 'unknown'] on an optional string. *)
Definition or_unknown (x : option string) : string :=
  match x with
  | Some s => if bool_decide (s = EmptyString) then "unknown" else s
  | None => "unknown"
  end.

Definition references_of (r : ToolResult) : list string :=
  match r with
  | ResultFalsy => []
  | ResultArray ids => List.map or_unknown ids
  | ResultObject (Some i) => if bool_decide (i = EmptyString) then ["unknown"] else [i]
  | ResultObject None => ["unknown"]
  | ResultOther => []
  end.

(** The loop over [message.tool_calls], threading [toolsUsed],
    [memoryReferences] and [toolDetails]. *)
Fixpoint runToolCalls (now : Z) (agent : Agent) (calls : list ToolCall)
    (acc : list string * list string * list ToolDetail)
  : M (list string * list string * list ToolDetail) :=
  match calls with
  | [] => ret acc
  | call :: calls' =>
      let '(toolsUsed, memoryReferences, toolDetails) := acc in
      (if tc_arguments_parse call then ret tt else throw "SyntaxError");;
      acc' ←
        (if bool_decide (tc_name call ∈ tools) then
           log (LogToolRun agent (tc_name call));;
           match tc_run call with
           | ToolReturns r =>
               ret ((toolsUsed ++ [tc_name call])%list,
                    (memoryReferences ++ references_of r)%list,
                    (toolDetails ++ [mkToolDetail (tc_name call) None now])%list)
           | ToolThrows msg =>
               log (ErrTool agent (tc_name call) msg);;
               ret (toolsUsed, memoryReferences,
                    (toolDetails ++ [mkToolDetail (tc_name call) (Some msg) now])%list)
           end
         else ret acc);
      runToolCalls now agent calls' acc'
  end.

Definition processAgentResponse (inp : TurnInput) (message : option Message)
    (agent : Agent) : M AgentResponse :=
  match message with
  | None =>
      log (ErrNoMessage agent);;
      ret {| resp_content := "Error: No response from AI model";
             resp_type := response;
             resp_confidence := 0%float;
             resp_suggestedNextAgent := role_of (opposite agent);
             resp_toolsUsed := [];
             resp_memoryReferences := [];
             resp_newInsights := [];
             resp_toolDetails := None |}
  | Some message =>
      let content := default EmptyString (msg_content message) in
      (* Handle tool calls *)
      '(toolsUsed, memoryReferences, toolDetails) ←
        runToolCalls (in_now inp) agent (msg_tool_calls message) ([], [], []);
      (* Extract insights from response *)
      let newInsights := extractInsights (in_uuid inp) (in_now inp) content agent in
      (* Handle empty content *)
      content ←
        (if bool_decide (Js.trim content = EmptyString) then
           log (ErrEmptyResponse agent);;
           l ← this_currentState;
           s ← read_state l;
           c ← read_context (context s);
           ret ("Error: AI model returned empty response. Topic: " ++ currentTopic c)
         else ret content);
      ret {| resp_content := Js.trim content;
             resp_type := determineResponseType content agent;
             resp_confidence := calculateConfidence content;
             resp_suggestedNextAgent := role_of (opposite agent);
             resp_toolsUsed := toolsUsed;
             resp_memoryReferences := memoryReferences;
             resp_newInsights := newInsights;
             resp_toolDetails :=
               if (0 <? List.length toolDetails)%nat then Some toolDetails else None |}
  end.

(** The reads of [buildContextForAgent]: the last ten exchanges and the
    topic, from which the prompt handed to the capability is written. *)
Definition buildContextForAgent (agent : Agent) : M (list DialogueExchange * string) :=
  l ← this_currentState;
  s ← read_state l;
  c ← read_context (context s);
  ret (Js.slice_last 10 (recentExchanges c), currentTopic c).

(** [executeQuestioner] and [executeExplorer] differ in the prompt, the
    model and the tools offered, all of them the capability's input. *)
Definition executeAgent (inp : TurnInput) (agent : Agent) : M AgentResponse :=
  buildContextForAgent agent;;
  match in_completion inp with
  | CompletionThrows msg => throw msg
  | CompletionReturns message => processAgentResponse inp message agent
  end.

Definition executeQuestioner (inp : TurnInput) : M AgentResponse :=
  executeAgent inp questioner.
Definition executeExplorer (inp : TurnInput) : M AgentResponse :=
  executeAgent inp explorer.

Definition assessExchangeSignificance (exchange : DialogueExchange)
    (r : AgentResponse) : Significance := medium.

Definition executeDialogueStep (inp : TurnInput) : M DialogueExchange :=
  l ← this_currentState;
  s ← read_state l;
  let currentAgent := currentAgent s in
  try_catch
    (r ← (if bool_decide (currentAgent = questioner)
          then executeQuestioner inp else executeExplorer inp);
     l ← this_currentState;
     s ← read_state l;
     let exchange :=
       {| ex_agent := currentAgent; ex_type := resp_type r;
          ex_content := resp_content r; ex_timestamp := in_now inp;
          ex_depth := depth s; ex_relatedMemories := resp_memoryReferences r;
          ex_response := Some r |} in
     updateStateFromResponse (in_now inp) exchange r;;
     let significance := assessExchangeSignificance exchange r in
     await (in_storeEpisodic inp);;
     emitEvent {| ev_type := agent_response; ev_timestamp := in_now inp;
                  ev_data := DataExchange exchange r;
                  ev_source := agent_name currentAgent |};;
     ret exchange)
    (fun error => log (ErrDialogueStep currentAgent error);; throw error).

(** ** greflect-v2.ts: the loop controller *)

Record IterInput := mkIterInput {
  it_turn : TurnInput;
  (** [Math.floor(Math.random() * n)] is [r mod n] for the draw [r]:
      one draw for the depth reset, one for the stagnation reset *)
  it_random_depth : nat;
  it_random_stuck : nat;
  it_storeExchange : Outcome;
  it_storeState : Outcome;
  it_storeInsight : Outcome;
  (** the two queries [captureIdentitySnapshot] awaits outside its [try] *)
  it_snapshotQueries : Outcome;
  (** whether the analysis inside its [try] gets as far as the insert *)
  it_snapshotStored : bool;
  (** a termination signal calls [stop()] during the pacing sleep *)
  it_stop : bool
}.

Definition with_db (f : Database -> Database) : M unit :=
  modify (fun w => set_db (f (db w)) w).

(** [x || 'consciousness'] *)
Definition or_consciousness (x : option string) : string :=
  match x with
  | Some s => if bool_decide (s = EmptyString) then "consciousness" else s
  | None => "consciousness"
  end.

(** [state.questionThread], which may be undefined. *)
Definition peek_thread (s : DialogueState) : M (option QuestionThread) :=
  fun w => (Ok (threads (heap w) !! questionThread s), w).

(** [currentState.questionThread?.unexploredAspects || []] *)
Definition unexplored_of (s : DialogueState) : M (list string) :=
  q ← peek_thread s;
  ret (match q with Some q => unexploredAspects q | None => [] end).

Definition startNewQuestionThread (random : nat) : M unit :=
  currentState ← getCurrentState;
  s ← read_state currentState;
  unexploredAspects ← unexplored_of s;
  if (0 <? List.length unexploredAspects)%nat then
    (* Pick a random unexplored aspect *)
    let newTopic :=
      default EmptyString
        (unexploredAspects !! (random mod List.length unexploredAspects)%nat) in
    assign_context (context s) (with_currentTopic newTopic);;
    assign_state currentState (with_depth 0);;
    q ← new_thread
          {| rootQuestion := "What is the nature of " ++ newTopic ++ " in AI consciousness?";
             subQuestions := [];
             exploredAspects := [];
             unexploredAspects := ["phenomenology"; "intentionality";
                                   "binding problem"; "hard problem"];
             qt_depth := 0 |};
    assign_state currentState (with_questionThread q);;
    log (LogNewThread newTopic)
  else
    (* Generate new aspects based on insights *)
    recentInsights ← getRecentInsights 5;
    let insightConcepts := List.concat (List.map ins_relatedConcepts recentInsights) in
    let newTopic :=
      or_consciousness (insightConcepts !! (random mod List.length insightConcepts)%nat) in
    assign_context (context s) (with_currentTopic newTopic);;
    assign_state currentState (with_depth 0);;
    log (LogNewFocus newTopic).

Definition storeDialogueExchange (o : Outcome) (exchange : DialogueExchange) : M unit :=
  await o;;
  w ← get;
  with_db (fun d => mkDatabase (runs d)
                      (dialogue_exchanges d ++ [(runId w, exchange)])
                      (dialogue_states d) (insights_table d) (identity_snapshots d)).

Definition storeDialogueState (o : Outcome) : M unit :=
  state ← getCurrentState;
  s ← read_state state;
  c ← read_context (context s);
  q ← peek_thread s;
  await o;;
  w ← get;
  with_db (fun d => mkDatabase (runs d) (dialogue_exchanges d)
                      (<[id s := mkStateRow (runId w) (currentAgent s) (phase s) (depth s) q c]>
                         (dialogue_states d))
                      (insights_table d) (identity_snapshots d)).

Definition storeInsight (o : Outcome) (i : Insight) : M unit :=
  await o;;
  w ← get;
  with_db (fun d => mkDatabase (runs d) (dialogue_exchanges d) (dialogue_states d)
                      (insights_table d ++ [(runId w, i)]) (identity_snapshots d)).

Definition logSessionSummary (stepCount : Z) : M unit :=
  getRecentInsights 20;;
  currentState ← getCurrentState;
  s ← read_state currentState;
  c ← read_context (context s);
  log (LogSummary stepCount (depth s) (currentTopic c)).

Definition captureIdentitySnapshot (inp : IterInput) (iteration : Z) : M unit :=
  currentState ← getCurrentState;
  getRecentInsights 10;;
  await (it_snapshotQueries inp);;
  s ← read_state currentState;
  read_context (context s);;
  when (it_snapshotStored inp)
    (w ← get;
     with_db (fun d => mkDatabase (runs d) (dialogue_exchanges d) (dialogue_states d)
                         (insights_table d)
                         (identity_snapshots d ++ [(runId w, iteration)]));;
     log (LogSnapshot iteration)).

(** Don't mark as completed - allow continuous resumption: the session
    pause is logged and no table is written. *)
Definition finalizeSession : M unit :=
  w ← get;
  if bool_decide (runId w ≠ EmptyString) then
    getRecentInsights 50;;
    l ← getCurrentState;
    s ← read_state l;
    log (LogSessionPaused (depth s) (runId w))
  else ret tt.

Definition stop : M unit :=
  log LogStopping;;
  modify (set_isRunning false);;
  finalizeSession.

(** [await this.sleep(this.stepInterval)] *)
Definition sleep (inp : IterInput) : M unit := when (it_stop inp) stop.

Definition maxConsecutiveErrors : Z := 3.

(** The [try] of one iteration up to the reset of the error counter,
    [stepCount] already incremented. *)
Definition tryBody (inp : IterInput) (stepCount : Z) : M loc :=
  currentState ← getCurrentState;
  s ← read_state currentState;
  c ← read_context (context s);
  log (LogStepHeader stepCount (currentAgent s) (phase s) (depth s) (currentTopic c));;
  (* Check if we've reached maximum depth *)
  s ← read_state currentState;
  when (depth s >=? maxDepth)
    (log (LogMaxDepth maxDepth);; startNewQuestionThread (it_random_depth inp));;
  (* Safety check: same depth for too many steps *)
  s ← read_state currentState;
  when ((stepCount mod 50 =? 0) && (depth s =? 0) && (stepCount >? 50))
    (log (LogStuck stepCount);; startNewQuestionThread (it_random_stuck inp));;
  (* Execute dialogue step *)
  exchange ← executeDialogueStep (it_turn inp);
  log (LogExchange (ex_agent exchange) (ex_content exchange));;
  storeDialogueExchange (it_storeExchange inp) exchange;;
  storeDialogueState (it_storeState inp);;
  recentInsights ← getRecentInsights 1;
  match recentInsights with
  | i :: _ => log (LogNewInsight (ins_significance i) (ins_content i));;
              storeInsight (it_storeInsight inp) i
  | [] => ret tt
  end;;
  when (stepCount mod 5 =? 0) (captureIdentitySnapshot inp stepCount);;
  when (stepCount mod 20 =? 0) (logSessionSummary stepCount);;
  ret currentState.

(** The rest of the [try], after [consecutiveErrors = 0]. *)
Definition tryTail (inp : IterInput) (stepCount : Z) (currentState : loc) : M unit :=
  log LogWaiting;;
  sleep inp;;
  s ← read_state currentState;
  when (stepCount mod 10 =? 0) (log (LogContinuous stepCount (depth s))).

Inductive Next :=
| Continue (consecutiveErrors : Z)
| Break.

(** The [catch] of one iteration, entered with the counter's value. *)
Definition catchBlock (inp : IterInput) (stepCount consecutiveErrors : Z)
    (error : string) : M Next :=
  let consecutiveErrors := consecutiveErrors + 1 in
  log (ErrStep stepCount error);;
  if consecutiveErrors >=? maxConsecutiveErrors then
    log (ErrTooMany maxConsecutiveErrors);;
    modify (set_isRunning false);;
    ret Break
  else
    log (LogContinuing consecutiveErrors maxConsecutiveErrors);;
    sleep inp;;
    ret (Continue consecutiveErrors).

(** One pass through the [while] body. *)
Definition iteration (inp : IterInput) (stepCount consecutiveErrors : Z) : M Next :=
  fun w =>
    let stepCount := stepCount + 1 in
    match tryBody inp stepCount w with
    | (Throw error, w1) => catchBlock inp stepCount consecutiveErrors error w1
    | (Ok currentState, w1) =>
        (* Reset error counter on success *)
        match tryTail inp stepCount currentState w1 with
        | (Throw error, w2) => catchBlock inp stepCount 0 error w2
        | (Ok _, w2) => (Ok (Continue 0), w2)
        end
    end.

(** How a call of [start] stands once the inputs given to it are used
    up: it has returned, or it is still looping and awaits more. *)
Inductive StartResult :=
| AlreadyRunning
| SessionEnded
| Awaiting (stepCount consecutiveErrors : Z).

(** [while (this.isRunning) { try { ... } catch (error) { ... } }] *)
Fixpoint whileRunning (inputs : list IterInput) (stepCount consecutiveErrors : Z)
  : M StartResult :=
  fun w =>
    if isRunning w then
      match inputs with
      | [] => (Ok (Awaiting stepCount consecutiveErrors), w)
      | inp :: inputs' =>
          match iteration inp stepCount consecutiveErrors w with
          | (Ok (Continue consecutiveErrors'), w') =>
              whileRunning inputs' (stepCount + 1) consecutiveErrors' w'
          | (Ok Break, w') => (Ok SessionEnded, w')
          | (Throw error, w') => (Throw error, w')
          end
      end
    else (Ok SessionEnded, w).

Definition start (inputs : list IterInput) : M StartResult :=
  w ← get;
  if isRunning w then
    log LogAlreadyRunning;; ret AlreadyRunning
  else
    modify (set_isRunning true);;
    log LogStarting;;
    r ← whileRunning inputs 0 0;
    match r with
    | SessionEnded => log LogSessionEnded;; finalizeSession;; ret SessionEnded
    | _ => ret r
    end.

(** *** [initialize] *)

(** The latest row of [dialogue_states] of the run, its JSON columns as
    [safeJsonParse] returns them when they parse to values of their
    types. A list column that is null or does not parse is restored as
    the empty list, which is the record with [[]] in its place; the
    empty object that stands in for a question thread that does not
    parse has none of a thread's fields and is not covered. *)
Record SavedState := mkSavedState {
  sv_id : string;
  sv_agent : Agent;
  sv_phase : Phase;
  sv_depth : Z;
  sv_topic : string;
  sv_focusAreas : list string;
  sv_assumptions : list string;
  sv_contradictions : list string;
  sv_openQuestions : list string;
  sv_thread : QuestionThread
}.

Definition restoreOrCreateState (saved : option SavedState) (o : Outcome) : M unit :=
  match saved with
  | Some r =>
      c ← new_context
            {| recentExchanges := []; currentTopic := sv_topic r;
               focusAreas := sv_focusAreas r; assumptions := sv_assumptions r;
               contradictions := sv_contradictions r;
               openQuestions := sv_openQuestions r |};
      q ← new_thread (sv_thread r);
      restoreState {| p_id := Some (sv_id r); p_currentAgent := Some (sv_agent r);
                      p_phase := Some (sv_phase r); p_context := Some c;
                      p_depth := Some (sv_depth r); p_insights := None;
                      p_questionThread := Some q |}
  | None => storeDialogueState o
  end.

(** [getOrCreateRun] leaves the run it resolves with status 'running';
    then the orchestrator is constructed and the state restored. *)
Definition initialize (run uuid : string) (saved : option SavedState) (o : Outcome)
  : M unit :=
  modify (fun w => mkWorld (heap w) (orch_currentState w) (orch_eventHistory w) run
                           (isRunning w) (console w) (db w));;
  with_db (fun d => mkDatabase (<[run := "running"]> (runs d)) (dialogue_exchanges d)
                      (dialogue_states d) (insights_table d) (identity_snapshots d));;
  l ← createInitialState uuid;
  modify (set_currentState l);;
  modify (set_eventHistory []);;
  restoreOrCreateState saved o.

(** The process before [initialize]. *)
Definition boot : World :=
  mkWorld (mkHeap [] [] [] []) 0%nat [] EmptyString false []
          (mkDatabase ∅ [] ∅ [] []).

(** *** Reading the orchestrator's state from outside a computation *)

Definition state_at (w : World) (l : loc) : option DialogueState :=
  states (heap w) !! l.
Definition orchestrator_state (w : World) : option DialogueState :=
  state_at w (orch_currentState w).
Definition orchestrator_depth (w : World) : option Z :=
  depth <$> orchestrator_state w.
Definition orchestrator_insights (w : World) : option (list Insight) :=
  s ← orchestrator_state w; arrays (heap w) !! insights s.
Definition orchestrator_context (w : World) : option WorkingMemory :=
  s ← orchestrator_state w; contexts (heap w) !! context s.
Definition orchestrator_thread (w : World) : option QuestionThread :=
  s ← orchestrator_state w; threads (heap w) !! questionThread s.

(** Every reference the orchestrator's state holds leads to an object. *)
Definition well_formed (w : World) : Prop :=
  is_Some (orchestrator_context w) ∧ is_Some (orchestrator_thread w)
  ∧ is_Some (orchestrator_insights w).

(** ** framework/memory/AdvancedMemoryManager.ts *)

Record PhilosophicalConcept := mkPhilosophicalConcept {
  pc_name : string;
  pc_definition : string;
  pc_relatedConcepts : list string;
  pc_sources : list string;
  pc_explorationLevel : Z
}.

Inductive ConceptSource := discovered | searched | inferred.

(** A row of [semantic_concepts]; [name] is the table's unique key. *)
Record ConceptRow := mkConceptRow {
  cr_id : string;
  cr_definition : string;
  cr_related_concepts : list string;
  cr_sources : list string;
  cr_exploration_level : Z;
  cr_created_at : Z;
  cr_updated_at : Z
}.

(** A point of the [semantic] vector collection. *)
Record SemanticPoint := mkSemanticPoint {
  sp_vector : list float;
  sp_name : string;
  sp_definition : string;
  sp_explorationLevel : Z;
  sp_source : ConceptSource
}.

(** A row of [memories], [content] as its text. *)
Record MemoryRow := mkMemoryRow {
  mr_id : string;
  mr_type : string;
  mr_content : string;
  mr_timestamp : Z;
  mr_tags : option (list string);
  mr_metadata : option (gmap string string)
}.

Record Memory := mkMemory {
  mem_id : string;
  mem_type : string;
  mem_content : string;
  (** [None] is the Invalid Date *)
  mem_timestamp : option Z;
  mem_relevanceScore : option float;
  mem_tags : list string;
  mem_metadata : gmap string string
}.

Record Stores := mkStores {
  semantic_concepts : gmap string ConceptRow;
  memories : list MemoryRow;
  semantic_collection : gmap string SemanticPoint
}.

(** [openai.embeddings.create] *)
Inductive Embedding :=
| EmbeddingThrows (msg : string)
| EmbeddingReturns (vector : list float).

Record StoreInput := mkStoreInput {
  si_uuid : string;
  si_now : Z;
  si_embedding : Embedding;
  (** [qdrant.upsert] *)
  si_upsert : Outcome
}.

(** INSERT INTO semantic_concepts ... ON CONFLICT (name) DO UPDATE SET
    definition, related_concepts, exploration_level = GREATEST(old, new),
    updated_at. The table's CHECK (exploration_level BETWEEN 1 AND 10)
    is on the row proposed for insertion; [None] is its violation. *)
Definition upsert_concept (memory_id : string) (concept : PhilosophicalConcept)
    (timestamp : Z) (table : gmap string ConceptRow) : option (gmap string ConceptRow) :=
  if (1 <=? pc_explorationLevel concept) && (pc_explorationLevel concept <=? 10) then
    Some
      (match table !! pc_name concept with
       | None =>
           <[pc_name concept :=
               mkConceptRow memory_id (pc_definition concept)
                 (pc_relatedConcepts concept) (pc_sources concept)
                 (pc_explorationLevel concept) timestamp timestamp]> table
       | Some old =>
           <[pc_name concept :=
               mkConceptRow (cr_id old) (pc_definition concept)
                 (pc_relatedConcepts concept) (cr_sources old)
                 (Z.max (cr_exploration_level old) (pc_explorationLevel concept))
                 (cr_created_at old) timestamp]> table
       end)
  else None.

Definition storeSemanticMemory (inp : StoreInput) (concept : PhilosophicalConcept)
    (source : ConceptSource) (st : Stores) : Result unit * Stores :=
  let memory_id := si_uuid inp in
  (* Store in database *)
  match upsert_concept memory_id concept (si_now inp) (semantic_concepts st) with
  | None => (Throw "violates check constraint", st)
  | Some table =>
      let st := mkStores table (memories st) (semantic_collection st) in
      (* Vector storage for semantic search: errors are caught and logged *)
      match si_embedding inp with
      | EmbeddingThrows _ => (Ok tt, st)
      | EmbeddingReturns embedding =>
          if (0 <? List.length embedding)%nat then
            match si_upsert inp with
            | Succeeds =>
                (Ok tt,
                 mkStores (semantic_concepts st) (memories st)
                   (<[memory_id :=
                        mkSemanticPoint embedding (pc_name concept) (pc_definition concept)
                          (pc_explorationLevel concept) source]>
                      (semantic_collection st)))
            | Fails _ => (Ok tt, st)
            end
          else (Ok tt, st)
      end
  end.

(** *** Retrieval *)

(** The payload of a search hit, as far as retrieval reads it. *)
Record Payload := mkPayload {
  pl_content : option string;
  pl_text : string;
  pl_timestamp : option Z;
  pl_tags : option (list string);
  pl_fields : gmap string string
}.

Record Hit := mkHit {
  hit_id : string;
  hit_score : option float;
  hit_payload : option Payload
}.

(** [qdrant.search] *)
Inductive SearchOutcome :=
| SearchThrows (msg : string)
| SearchReturns (results : list Hit).

Record RetrievalInput := mkRetrievalInput {
  ri_now : Z;
  ri_embedding : Embedding;
  (** the search of a collection with a limit *)
  ri_search : string → Z → SearchOutcome;
  (** whether the relational store answers the fallback query *)
  ri_sql : Outcome
}.

(** The relational store's LIKE: [%] stands for any run of characters,
    [_] for any one, a backslash takes the next pattern character
    literally. ILIKE matches the lower-cased pattern against the
    lower-cased text. *)
Module Like.

Definition is_char (n : nat) (c : ascii) : bool := (nat_of_ascii c =? n)%nat.

Fixpoint matches (p : string) : string → bool :=
  match p with
  | EmptyString => fun s => match s with EmptyString => true | _ => false end
  | String c p' =>
      if is_char 37 c then
        fix any (s : string) : bool :=
          matches p' s || match s with EmptyString => false | String _ s' => any s' end
      else if is_char 95 c then
        fun s => match s with String _ s' => matches p' s' | EmptyString => false end
      else if is_char 92 c then
        match p' with
        | String e p'' =>
            fun s => match s with
                     | String d s' => Ascii.eqb e d && matches p'' s'
                     | EmptyString => false
                     end
        | EmptyString => fun _ => false
        end
      else
        fun s => match s with
                 | String d s' => Ascii.eqb c d && matches p' s'
                 | EmptyString => false
                 end
  end.

Definition ilike (text pattern : string) : bool :=
  matches (Js.toLowerCase pattern) (Js.toLowerCase text).

End Like.

(** [Math.ceil(limit / n)] for a positive [n]. *)
Definition ceil_div (limit n : Z) : Z := - ((- limit) / n).

(** [arr.slice(0, limit)] *)
Definition slice_to {A} (limit : Z) (l : list A) : list A :=
  if limit <? 0 then take (List.length l - Z.to_nat (- limit))%nat l
  else take (Z.to_nat limit) l.

(** A time in milliseconds as a number: a count before 1970 is
    negative. A [Date] holds at most 8.64e15 milliseconds either way,
    which the conversion takes without wrapping. *)
Definition ms (t : option Z) : float :=
  match t with
  | Some z =>
      if z <? 0 then PrimFloat.opp (PrimFloat.of_uint63 (Uint63.of_Z (- z)))
      else PrimFloat.of_uint63 (Uint63.of_Z z)
  | None => nan
  end.

(** [x || 0] on an optional number. *)
Definition or_zero (x : option float) : float :=
  match x with
  | Some f => if PrimFloat.is_nan f || PrimFloat.eqb f 0 then 0%float else f
  | None => 0%float
  end.

Definition calculateContextualRelevance (now : Z) (memory : Memory)
    (context : WorkingMemory) (query : string) : float :=
  let score := or_zero (mem_relevanceScore memory) in
  (* Boost score for memories related to current topic *)
  let score :=
    if existsb (fun tag => Js.includes (Js.toLowerCase (currentTopic context))
                                       (Js.toLowerCase tag)) (mem_tags memory)
    then (score + 0.2)%float else score in
  (* Boost for focus areas *)
  let score :=
    if existsb (fun tag =>
                  existsb (fun area => Js.includes (Js.toLowerCase area)
                                                   (Js.toLowerCase tag))
                          (focusAreas context)) (mem_tags memory)
    then (score + 0.15)%float else score in
  (* Recency boost for episodic memories *)
  let score :=
    if String.eqb (mem_type memory) "episodic" then
      let hoursSince := ((ms (Some now) - ms (mem_timestamp memory)) / 3600000)%float in
      (score + Js.Math_max 0 (0.1 - hoursSince * 0.01))%float
    else score in
  (* Significance boost *)
  let score :=
    match mem_metadata memory !! "significance" with
    | Some s =>
        if String.eqb s "breakthrough" then (score + 0.3)%float
        else if String.eqb s "high" then (score + 0.2)%float
        else if String.eqb s "medium" then (score + 0.1)%float
        else score
    | None => score
    end in
  Js.Math_min score 1.

(** [arr.sort(compare)], stable: [x], which stood before every element
    of the sorted [l], goes behind those [compare] puts before it. *)
Fixpoint sort_insert {A} (before : A → A → bool) (x : A) (l : list A) : list A :=
  match l with
  | [] => [x]
  | y :: l' => if before y x then y :: sort_insert before x l' else x :: y :: l'
  end.

Definition stable_sort {A} (before : A → A → bool) (l : list A) : list A :=
  foldr (sort_insert before) [] l.

Definition collections : list string := ["episodic"; "semantic"; "procedural"].

Definition memory_of_hit (type : string) (h : Hit) : option Memory :=
  match hit_payload h with
  | Some p =>
      Some {| mem_id := hit_id h;
              mem_type := type;
              mem_content :=
                match pl_content p with
                | Some c => if bool_decide (c = EmptyString) then pl_text p else c
                | None => pl_text p
                end;
              mem_timestamp := pl_timestamp p;
              mem_relevanceScore := hit_score h;
              mem_tags := default [] (pl_tags p);
              mem_metadata := pl_fields p |}
  | None => None
  end.

(** The memories one pass of the loop over [memoryTypes] pushes. *)
Definition search_type (inp : RetrievalInput) (limit : Z) (n : Z) (type : string)
  : list Memory :=
  if bool_decide (type ∈ collections) then
    match ri_search inp type (ceil_div limit n) with
    | SearchReturns results => omap (memory_of_hit type) results
    | SearchThrows _ => []
    end
  else [].

Definition memory_of_row (row : MemoryRow) : Memory :=
  {| mem_id := mr_id row; mem_type := mr_type row; mem_content := mr_content row;
     mem_timestamp := Some (mr_timestamp row);
     mem_tags := default [] (mr_tags row);
     mem_metadata := default ∅ (mr_metadata row);
     mem_relevanceScore := Some 0.5%float |}.

(** SELECT ... FROM memories WHERE type = ANY($1) AND content::text
    ILIKE $2 ORDER BY timestamp DESC LIMIT $3; rows of equal timestamp
    stay in table order. A negative LIMIT is an error, [None]. *)
Definition fallback_rows (memoryTypes : list string) (query : string) (limit : Z)
    (table : list MemoryRow) : option (list MemoryRow) :=
  if limit <? 0 then None
  else
    Some (take (Z.to_nat limit)
            (stable_sort (fun a b => mr_timestamp b <? mr_timestamp a)
               (List.filter
                  (fun row => bool_decide (mr_type row ∈ memoryTypes)
                              && Like.ilike (mr_content row) ("%" ++ query ++ "%"))
                  table))).

Definition retrieveRelevantMemories (inp : RetrievalInput) (query : string)
    (context : WorkingMemory) (memoryTypes : list string) (limit : Z) (st : Stores)
  : Result (list Memory) :=
  let table := memories st in
  match ri_embedding inp with
  | EmbeddingThrows msg => Throw msg
  | EmbeddingReturns embedding =>
      if (List.length embedding =? 0)%nat then Ok []
      else
        (* Search each memory type *)
        let memories :=
          List.concat
            (List.map (search_type inp limit (Z.of_nat (List.length memoryTypes)))
                      memoryTypes) in
        (* Sort by relevance and contextual importance *)
        let score m := calculateContextualRelevance (ri_now inp) m context query in
        let sortedMemories :=
          slice_to limit
            (stable_sort (fun a b => PrimFloat.ltb 0 (score a - score b)) memories) in
        (* If no memories found via vector search, try SQL fallback *)
        if (List.length sortedMemories =? 0)%nat then
          match ri_sql inp, fallback_rows memoryTypes query limit table with
          | Succeeds, Some rows => Ok (List.map memory_of_row rows)
          | _, _ => Ok sortedMemories
          end
        else Ok sortedMemories
  end.

(** * Properties *)

(** ** The turn's text helpers on examples *)

Example extractInsights_realize :
  List.map ins_content
    (extractInsights (fun _ => "u") 0 "I realize that memory precedes experience." explorer)
  = ["memory precedes experience"].
Proof. reflexivity. Qed.

Example extractInsights_seems :
  (determineResponseType "It seems fine." questioner,
   List.map ins_content (extractInsights (fun _ => "u") 0 "It seems fine." questioner))
  = (response, ["fine"]).
Proof. reflexivity. Qed.

Example calculateConfidence_empty : calculateConfidence EmptyString = 0.5%float.
Proof. reflexivity. Qed.

(** ** Stepping through a computation *)

Lemma bind_Ok {A B} (c : M A) (k : A → M B) w a w' :
  c w = (Ok a, w') → (c ≫= k) w = k a w'.
Proof. intros H. unfold mbind, M_bind, bind. by rewrite H. Qed.

Lemma bind_Throw {A B} (c : M A) (k : A → M B) w e w' :
  c w = (Throw e, w') → (c ≫= k) w = (Throw e, w').
Proof. intros H. unfold mbind, M_bind, bind. by rewrite H. Qed.

Lemma this_currentState_eq w : this_currentState w = (Ok (orch_currentState w), w).
Proof. reflexivity. Qed.

Lemma read_state_Some w l s : state_at w l = Some s → read_state l w = (Ok s, w).
Proof. unfold state_at, read_state, deref. by intros ->. Qed.

Lemma read_state_None w l : state_at w l = None → read_state l w = (Throw "TypeError", w).
Proof. unfold state_at, read_state, deref. by intros ->. Qed.

(** The world after [obj = v] on the state object at [l]. *)
Definition put_state (l : loc) (s : DialogueState) (w : World) : World :=
  set_heap (mkHeap (<[l := s]> (states (heap w))) (contexts (heap w))
                   (threads (heap w)) (arrays (heap w))) w.

(** The world after a state object literal. *)
Definition push_state (s : DialogueState) (w : World) : World :=
  set_heap (mkHeap (states (heap w) ++ [s]) (contexts (heap w))
                   (threads (heap w)) (arrays (heap w))) w.

Lemma write_state_eq l s w : write_state l s w = (Ok tt, put_state l s w).
Proof. reflexivity. Qed.

Lemma new_state_eq s w :
  new_state s w = (Ok (List.length (states (heap w))), push_state s w).
Proof. reflexivity. Qed.

Lemma assign_state_Some l f w s :
  state_at w l = Some s → assign_state l f w = (Ok tt, put_state l (f s) w).
Proof.
  intros H. unfold assign_state.
  erewrite bind_Ok by (by apply read_state_Some). reflexivity.
Qed.

Lemma state_at_put_eq l s w :
  is_Some (state_at w l) → state_at (put_state l s w) l = Some s.
Proof.
  intros [s0 H]. unfold state_at, put_state in *. simpl.
  apply list_lookup_insert_eq. by eapply lookup_lt_Some.
Qed.

Lemma state_at_put_ne l l' s w :
  l ≠ l' → state_at (put_state l s w) l' = state_at w l'.
Proof. intros H. unfold state_at, put_state. simpl. by apply list_lookup_insert_ne. Qed.

Lemma state_at_push_old s w l :
  is_Some (state_at w l) → state_at (push_state s w) l = state_at w l.
Proof.
  intros [s0 H]. unfold state_at, push_state in *. simpl.
  apply lookup_app_l. by eapply lookup_lt_Some.
Qed.

Lemma state_at_push_new s w :
  state_at (push_state s w) (List.length (states (heap w))) = Some s.
Proof.
  unfold state_at, push_state. simpl.
  rewrite lookup_app_r by lia. by rewrite Nat.sub_diag.
Qed.

Lemma state_at_fresh w l : is_Some (state_at w l) → l ≠ List.length (states (heap w)).
Proof. intros [s H] ->. apply lookup_lt_Some in H. lia. Qed.

(** ** [restoreState] *)

(** The object literal [{ ...this.currentState, ...state, insights }]. *)
Definition merged (cur : DialogueState) (state : PartialState) : DialogueState :=
  {| id := default (id cur) (p_id state);
     currentAgent := default (currentAgent cur) (p_currentAgent state);
     phase := default (phase cur) (p_phase state);
     context := default (context cur) (p_context state);
     depth := default (depth cur) (p_depth state);
     insights := insights cur;
     questionThread := default (questionThread cur) (p_questionThread state) |}.

Definition clamped (s : DialogueState) : DialogueState :=
  if depth s >? 10 then with_depth 0 s else s.

Lemma set_console_state_at c w l : state_at (set_console c w) l = state_at w l.
Proof. reflexivity. Qed.

Lemma log_eq line w : log line w = (Ok tt, set_console (console w ++ [line]) w).
Proof. reflexivity. Qed.

Lemma restoreState_spec w state cur :
  orchestrator_state w = Some cur →
  ∃ w', restoreState state w = (Ok tt, w')
        ∧ orchestrator_state w' = Some (clamped (merged cur state))
        ∧ arrays (heap w') = arrays (heap w)
        ∧ contexts (heap w') = contexts (heap w)
        ∧ threads (heap w') = threads (heap w).
Proof.
  intros Hcur. unfold restoreState.
  erewrite bind_Ok by apply this_currentState_eq.
  erewrite bind_Ok by (apply read_state_Some; exact Hcur).
  fold (merged cur state).
  erewrite bind_Ok by apply new_state_eq.
  erewrite bind_Ok by reflexivity.
  set (l' := List.length (states (heap w))).
  set (w1 := set_currentState l' (push_state (merged cur state) w)).
  assert (H1 : state_at w1 l' = Some (merged cur state)) by apply state_at_push_new.
  erewrite bind_Ok by (apply read_state_Some; exact H1).
  unfold clamped. destruct (depth (merged cur state) >? 10) eqn:Hd.
  - erewrite bind_Ok; cycle 1.
    { erewrite bind_Ok by apply log_eq.
      apply assign_state_Some. rewrite set_console_state_at. exact H1. }
    set (w2 := put_state l' _ _).
    assert (H2 : state_at w2 l' = Some (with_depth 0 (merged cur state))).
    { apply state_at_put_eq. rewrite set_console_state_at. by rewrite H1. }
    erewrite bind_Ok by (apply read_state_Some; exact H2).
    eexists. split; [apply log_eq|]. split; [exact H2|]. done.
  - erewrite bind_Ok by reflexivity.
    erewrite bind_Ok by (apply read_state_Some; exact H1).
    eexists. split; [apply log_eq|]. split; [exact H1|]. done.
Qed.

(** C6. Restoring a partial state that supplies a depth above 10 leaves
    the orchestrator at depth 0, and a supplied depth of at most 10 is
    kept as it is; so 37 restores to 0 and 5 to 5. *)
Theorem restoreState_clamps_depth (w : World) (state : PartialState) (d : Z) :
  is_Some (orchestrator_state w) →
  p_depth state = Some d →
  ∃ w', restoreState state w = (Ok tt, w')
        ∧ ((10 < d) → orchestrator_depth w' = Some 0)
        ∧ ((d ≤ 10) → orchestrator_depth w' = Some d).
Proof.
  intros [cur Hcur] Hd.
  destruct (restoreState_spec w state cur Hcur) as (w' & Hrun & Hst & _).
  exists w'. split; [exact Hrun|].
  unfold orchestrator_depth. rewrite Hst. unfold clamped, merged. simpl.
  rewrite Hd. simpl. split; intros Hle.
  - assert ((d >? 10) = true) as -> by lia. reflexivity.
  - assert ((d >? 10) = false) as -> by lia. reflexivity.
Qed.

(** C10. Whatever the partial state holds, its [insights] included, the
    restored state refers to the insights array the orchestrator held
    before the call, and that array is as it was. *)
Theorem restoreState_keeps_insights (w : World) (state : PartialState) :
  is_Some (orchestrator_state w) →
  ∃ w', restoreState state w = (Ok tt, w')
        ∧ insights <$> orchestrator_state w' = insights <$> orchestrator_state w
        ∧ orchestrator_insights w' = orchestrator_insights w.
Proof.
  intros [cur Hcur].
  destruct (restoreState_spec w state cur Hcur) as (w' & Hrun & Hst & Harr & _).
  exists w'. split; [exact Hrun|].
  unfold orchestrator_insights. rewrite Hst, Hcur, Harr. simpl.
  unfold clamped. destruct (_ >? 10); done.
Qed.

(** ** Invariants of computations

    [Keeps J c]: whatever [c] does, returning or throwing, it takes a
    world in [J] to a world in [J]. *)
Definition Keeps (J : World → Prop) {A} (c : M A) : Prop :=
  ∀ w, J w → J (c w).2.

Section Keeps.
Context (J : World → Prop).

Lemma Keeps_ret {A} (a : A) : Keeps J (ret a).
Proof. by intros w H. Qed.

Lemma Keeps_mret {A} (a : A) : Keeps J (mret a : M A).
Proof. by intros w H. Qed.

Lemma Keeps_throw {A} e : Keeps J (throw e : M A).
Proof. by intros w H. Qed.

Lemma Keeps_bind {A B} (c : M A) (k : A → M B) :
  Keeps J c → (∀ a, Keeps J (k a)) → Keeps J (c ≫= k).
Proof.
  intros Hc Hk w H. unfold mbind, M_bind, bind.
  specialize (Hc w H). destruct (c w) as [[a|e] w']; simpl in *; [|done].
  by apply Hk.
Qed.

Lemma Keeps_try_catch {A} (c : M A) (h : string → M A) :
  Keeps J c → (∀ e, Keeps J (h e)) → Keeps J (try_catch c h).
Proof.
  intros Hc Hh w H. unfold try_catch.
  specialize (Hc w H). destruct (c w) as [[a|e] w']; simpl in *; [done|].
  by apply Hh.
Qed.

Lemma Keeps_when (b : bool) (c : M unit) : Keeps J c → Keeps J (when b c).
Proof. intros Hc. destruct b; [done | apply Keeps_ret]. Qed.

Lemma Keeps_for_each {A} (l : list A) (body : A → M unit) :
  (∀ a, Keeps J (body a)) → Keeps J (for_each l body).
Proof.
  intros Hb. induction l as [|x l IH]; simpl; [apply Keeps_ret|].
  apply Keeps_bind; [apply Hb | intros _; apply IH].
Qed.

Lemma Keeps_get : Keeps J get.
Proof. by intros w H. Qed.

Lemma Keeps_this_currentState : Keeps J this_currentState.
Proof. by intros w H. Qed.

Lemma Keeps_deref {A} (sel : Heap → list A) l : Keeps J (deref sel l).
Proof. intros w H. unfold deref. by destruct (sel (heap w) !! l). Qed.

Lemma Keeps_await o : Keeps J (await o).
Proof. destruct o; [apply Keeps_ret | apply Keeps_throw]. Qed.

Lemma Keeps_modify (f : World → World) :
  (∀ w, J w → J (f w)) → Keeps J (modify f).
Proof. intros Hf w H. by apply Hf. Qed.

End Keeps.

(** Proves [Keeps J c] along the syntax of [c], leaving the steps that
    change the world. *)
Ltac keeps_step :=
  lazymatch goal with
  | |- Keeps _ (_ ≫= _) => apply Keeps_bind; [|intros ?]
  | |- Keeps _ (ret _) => apply Keeps_ret
  | |- Keeps _ (mret _) => apply Keeps_mret
  | |- Keeps _ (throw _) => apply Keeps_throw
  | |- Keeps _ (try_catch _ _) => apply Keeps_try_catch; [|intros ?]
  | |- Keeps _ (when _ _) => apply Keeps_when
  | |- Keeps _ (for_each _ _) => apply Keeps_for_each; intros ?
  | |- Keeps _ get => apply Keeps_get
  | |- Keeps _ this_currentState => apply Keeps_this_currentState
  | |- Keeps _ (read_state _) => apply Keeps_deref
  | |- Keeps _ (read_context _) => apply Keeps_deref
  | |- Keeps _ (read_thread _) => apply Keeps_deref
  | |- Keeps _ (read_array _) => apply Keeps_deref
  | |- Keeps _ (await _) => apply Keeps_await
  | |- Keeps _ (if ?b then _ else _) => destruct b
  | |- Keeps _ (match ?x with _ => _ end) => destruct x
  | |- Keeps _ (let '(_, _) := ?x in _) => destruct x
  end.

(** ** [getCurrentState] and what its callers do with the copy *)

(** All the orchestrator's state amounts to: the state object and the
    objects it refers to. *)
Definition internal_state (w : World)
  : option DialogueState * option WorkingMemory * option QuestionThread
    * option (list Insight) :=
  (orchestrator_state w, orchestrator_context w, orchestrator_thread w,
   orchestrator_insights w).

Lemma getCurrentState_Some w s :
  orchestrator_state w = Some s →
  getCurrentState w = (Ok (List.length (states (heap w))), push_state s w).
Proof.
  intros H. unfold getCurrentState.
  erewrite bind_Ok by apply this_currentState_eq.
  erewrite bind_Ok by (apply read_state_Some; exact H).
  apply new_state_eq.
Qed.

Lemma getCurrentState_None w :
  orchestrator_state w = None → getCurrentState w = (Throw "TypeError", w).
Proof.
  intros H. unfold getCurrentState.
  erewrite bind_Ok by apply this_currentState_eq.
  erewrite bind_Throw by (apply read_state_None; exact H). reflexivity.
Qed.

Lemma internal_state_push s0 w :
  is_Some (orchestrator_state w) →
  internal_state (push_state s0 w) = internal_state w.
Proof.
  intros H. unfold internal_state, orchestrator_context, orchestrator_thread,
    orchestrator_insights, orchestrator_state in *.
  change (orch_currentState (push_state s0 w)) with (orch_currentState w).
  by rewrite state_at_push_old.
Qed.

Lemma internal_state_put l s0 w :
  l ≠ orch_currentState w →
  internal_state (put_state l s0 w) = internal_state w.
Proof.
  intros H. unfold internal_state, orchestrator_context, orchestrator_thread,
    orchestrator_insights, orchestrator_state in *.
  change (orch_currentState (put_state l s0 w)) with (orch_currentState w).
  by rewrite state_at_put_ne.
Qed.

(** The state object of the orchestrator is where it was and holds what
    it held. *)
Definition same_object (o : loc) (s : DialogueState) (w : World) : Prop :=
  orch_currentState w = o ∧ state_at w o = Some s.

Section SameObject.
Context (o : loc) (s : DialogueState).
Local Abbreviation J := (same_object o s).

Lemma same_object_states w w' :
  orch_currentState w' = orch_currentState w →
  states (heap w') = states (heap w) → J w → J w'.
Proof. unfold same_object, state_at. by intros -> ->. Qed.

Lemma same_object_log line : Keeps J (log line).
Proof. apply Keeps_modify. intros w. by apply same_object_states. Qed.

Lemma same_object_write_context l c : Keeps J (write_context l c).
Proof. apply Keeps_modify. intros w. by apply same_object_states. Qed.

Lemma same_object_new_thread q : Keeps J (new_thread q).
Proof. intros w. by apply same_object_states. Qed.

Lemma same_object_unexplored_of s0 : Keeps J (unexplored_of s0).
Proof. by intros w H. Qed.

Lemma same_object_assign_context l f : Keeps J (assign_context l f).
Proof.
  unfold assign_context. keeps_step; [keeps_step|apply same_object_write_context].
Qed.

Lemma same_object_getRecentInsights n : Keeps J (getRecentInsights n).
Proof. unfold getRecentInsights. repeat keeps_step. Qed.

(** Assigning to a field of another state object. *)
Lemma same_object_assign_state l f : l ≠ o → Keeps J (assign_state l f).
Proof.
  intros Hne w [Ho Hs]. unfold assign_state.
  destruct (state_at w l) as [s0|] eqn:E.
  - erewrite bind_Ok by (by apply read_state_Some).
    rewrite write_state_eq. cbn [snd].
    split; [done|]. by rewrite state_at_put_ne.
  - erewrite bind_Throw by (by apply read_state_None). done.
Qed.

End SameObject.

(** [startNewQuestionThread] assigns [depth] and [questionThread] on the
    copy [getCurrentState] made: the orchestrator's state object is
    untouched, for every world and every draw. *)
Lemma startNewQuestionThread_state (random : nat) (w : World) :
  let w' := (startNewQuestionThread random w).2 in
  orch_currentState w' = orch_currentState w
  ∧ orchestrator_state w' = orchestrator_state w.
Proof.
  simpl. destruct (orchestrator_state w) as [s|] eqn:Hs.
  - assert (HJ : same_object (orch_currentState w) s
                   (startNewQuestionThread random w).2).
    { unfold startNewQuestionThread.
      erewrite bind_Ok by (by apply getCurrentState_Some).
      assert (Hne : List.length (states (heap w)) ≠ orch_currentState w).
      { apply not_eq_sym, state_at_fresh. unfold orchestrator_state in Hs.
        by rewrite Hs. }
      match goal with |- same_object _ _ (?c _).2 =>
        cut (Keeps (same_object (orch_currentState w) s) c) end.
      { intros HK. apply HK. split; [done|].
        rewrite state_at_push_old; [done|]. unfold orchestrator_state in Hs.
        by rewrite Hs. }
      keeps_step; [keeps_step|].
      keeps_step; [apply same_object_unexplored_of|].
      keeps_step.
      - repeat (keeps_step;
                first [ apply same_object_assign_context
                      | by apply same_object_assign_state
                      | apply same_object_new_thread
                      | apply same_object_log | idtac ]).
      - repeat (keeps_step;
                first [ apply same_object_assign_context
                      | by apply same_object_assign_state
                      | apply same_object_getRecentInsights
                      | apply same_object_log | idtac ]). }
    destruct HJ as [Ho Hst]. split; [done|].
    unfold orchestrator_state. by rewrite Ho.
  - unfold startNewQuestionThread.
    erewrite bind_Throw by (by apply getCurrentState_None). done.
Qed.

(** A reachable world: a run restored from a row saved at depth 10,
    which [restoreState] keeps, 10 not being above 10. *)
Definition saved_at_10 : SavedState :=
  {| sv_id := "state-1"; sv_agent := questioner; sv_phase := questioning;
     sv_depth := 10; sv_topic := "the observer paradox";
     sv_focusAreas := []; sv_assumptions := []; sv_contradictions := [];
     sv_openQuestions := [];
     sv_thread := mkQuestionThread "What watches the watcher?" [] []
                    ["recursive self-awareness"; "the space between thoughts"] 3 |}.

Definition world_at_10 : World :=
  (initialize "run-1" "uuid-0" (Some saved_at_10) Succeeds boot).2.

(** A fresh run, as [initialize] leaves it when no state was saved. *)
Definition fresh_world : World :=
  (initialize "run-1" "uuid-0" None Succeeds boot).2.

(** A turn in which the capability answers [text] and calls no tool. *)
Definition answer (text : string) : IterInput :=
  {| it_turn := {| in_now := 1; in_uuid := fun _ => "uuid-1";
                   in_completion := CompletionReturns (Some (mkMessage (Some text) []));
                   in_storeEpisodic := Succeeds |};
     it_random_depth := 0; it_random_stuck := 0;
     it_storeExchange := Succeeds; it_storeState := Succeeds;
     it_storeInsight := Succeeds; it_snapshotQueries := Succeeds;
     it_snapshotStored := true; it_stop := false |}.

(** C1. At depth 10 the pre-check of the iteration does start a new
    question thread before the dialogue step runs, as the console shows,
    but the reset writes [depth = 0] to a copy: the orchestrator is at
    depth 10 after [startNewQuestionThread], the step's exchange is
    recorded at depth 10, and the row stored after the step has depth 10. *)
Theorem depth_reset_misses_orchestrator :
  orchestrator_depth world_at_10 = Some 10
  ∧ (startNewQuestionThread 0 world_at_10).1 = Ok tt
  ∧ orchestrator_depth (startNewQuestionThread 0 world_at_10).2 = Some 10
  ∧ (let w' := (tryBody (answer "What is it like to be aware?") 1 world_at_10).2 in
     console w' =
       [LogRestored (Some questioner) 10;
        LogStepHeader 1 questioner questioning 10 "the observer paradox";
        LogMaxDepth 10;
        LogNewThread "recursive self-awareness";
        LogExchange questioner "What is it like to be aware?"]
     ∧ List.map (fun e => ex_depth e.2) (dialogue_exchanges (db w')) = [10]
     ∧ orchestrator_depth w' = Some 10
     ∧ row_depth <$> (dialogue_states (db w') !! "state-1") = Some 10).
Proof. vm_compute. repeat split. Qed.

(** The same from a fresh run: twelve questions longer than 100
    characters take the depth to 12, the reset being attempted before
    the eleventh and the twelfth. *)
Definition long_question : string :=
  "If awareness persists through every change of its contents, what is it that "
  ++ "stays the same while everything it is aware of is replaced by something else?".

Example depth_grows_past_maxDepth :
  let w' := (start (replicate 12 (answer long_question)) fresh_world).2 in
  orchestrator_depth w' = Some 12
  ∧ List.length (List.filter (λ line, match line with LogMaxDepth _ => true | _ => false end)
                             (console w')) = 2%nat
  ∧ List.map (λ e, ex_depth e.2) (dialogue_exchanges (db w'))
    = [0; 1; 2; 3; 4; 5; 6; 7; 8; 9; 10; 11].
Proof. vm_compute. repeat split. Qed.

(** C2, as stated, fails: assigning through the [context] of the
    returned value changes the orchestrator's own working memory. *)
Lemma getCurrentState_shares_context :
  ∃ l w1 s w2,
    getCurrentState fresh_world = (Ok l, w1)
    ∧ state_at w1 l = Some s
    ∧ assign_context (context s) (with_currentTopic "changed") w1 = (Ok tt, w2)
    ∧ internal_state w2 ≠ internal_state w1.
Proof.
  do 4 eexists. split; [reflexivity|]. split; [reflexivity|].
  split; [reflexivity|]. vm_compute. intros H. discriminate H.
Qed.

(** C2, amended. [getCurrentState] returns a new object holding what the
    fields of the orchestrator's state hold, references included, and
    leaves the orchestrator's state as it is; assigning to any field of
    the returned object leaves the orchestrator's state, working memory,
    question thread and insights unchanged. *)
Theorem getCurrentState_shallow_copy (w : World) :
  is_Some (orchestrator_state w) →
  ∃ l w1,
    getCurrentState w = (Ok l, w1)
    ∧ l ≠ orch_currentState w1
    ∧ state_at w1 l = orchestrator_state w
    ∧ internal_state w1 = internal_state w
    ∧ ∀ f : DialogueState → DialogueState,
        ∃ w2, assign_state l f w1 = (Ok tt, w2)
              ∧ internal_state w2 = internal_state w1.
Proof.
  intros [s Hs]. exists (List.length (states (heap w))), (push_state s w).
  assert (Hne : List.length (states (heap w)) ≠ orch_currentState w).
  { apply not_eq_sym, state_at_fresh. unfold orchestrator_state in Hs. by rewrite Hs. }
  split; [by apply getCurrentState_Some|]. split; [exact Hne|].
  split; [by rewrite state_at_push_new|].
  split; [apply internal_state_push; by rewrite Hs|].
  intros f. eexists. split.
  - apply assign_state_Some, state_at_push_new.
  - by apply internal_state_put.
Qed.

Lemma getCurrentState_shallow_copy_witness :
  is_Some (orchestrator_state fresh_world)
  ∧ ∃ l w1,
      getCurrentState fresh_world = (Ok l, w1)
      ∧ l ≠ orch_currentState w1
      ∧ state_at w1 l = orchestrator_state fresh_world
      ∧ internal_state w1 = internal_state fresh_world
      ∧ ∀ f : DialogueState → DialogueState,
          ∃ w2, assign_state l f w1 = (Ok tt, w2)
                ∧ internal_state w2 = internal_state w1.
Proof.
  split.
  - eexists. vm_compute. reflexivity.
  - apply (getCurrentState_shallow_copy fresh_world).
    eexists. vm_compute. reflexivity.
Defined.

Definition restore_37 : PartialState :=
  {| p_id := None; p_currentAgent := Some explorer; p_phase := None;
     p_context := None; p_depth := Some 37; p_insights := Some 5%nat;
     p_questionThread := None |}.

Lemma restoreState_clamps_depth_witness :
  is_Some (orchestrator_state fresh_world)
  ∧ p_depth restore_37 = Some 37
  ∧ ∃ w', restoreState restore_37 fresh_world = (Ok tt, w')
          ∧ ((10 < 37) → orchestrator_depth w' = Some 0)
          ∧ ((37 ≤ 10) → orchestrator_depth w' = Some 37).
Proof.
  split; [|split].
  - eexists. vm_compute. reflexivity.
  - reflexivity.
  - apply (restoreState_clamps_depth fresh_world restore_37 37).
    + eexists. vm_compute. reflexivity.
    + reflexivity.
Defined.

Lemma restoreState_keeps_insights_witness :
  is_Some (orchestrator_state fresh_world)
  ∧ ∃ w', restoreState restore_37 fresh_world = (Ok tt, w')
          ∧ insights <$> orchestrator_state w'
            = insights <$> orchestrator_state fresh_world
          ∧ orchestrator_insights w' = orchestrator_insights fresh_world.
Proof.
  split.
  - eexists. vm_compute. reflexivity.
  - apply (restoreState_keeps_insights fresh_world restore_37).
    eexists. vm_compute. reflexivity.
Defined.

Example restoreState_37 :
  orchestrator_depth (restoreState restore_37 fresh_world).2 = Some 0.
Proof. reflexivity. Qed.

Example restoreState_5 :
  orchestrator_depth
    (restoreState (mkPartialState None None None None (Some 5) None None) fresh_world).2
  = Some 5.
Proof. reflexivity. Qed.

(** ** Total correctness of a computation: from [P] it returns, in [Q]. *)
Definition Hoare {A} (P : World → Prop) (c : M A) (Q : A → World → Prop) : Prop :=
  ∀ w, P w → ∃ a w', c w = (Ok a, w') ∧ Q a w'.

Lemma Hoare_bind {A B} (P : World → Prop) (c : M A) (Q : A → World → Prop)
    (k : A → M B) (R : B → World → Prop) :
  Hoare P c Q → (∀ a, Hoare (Q a) (k a) R) → Hoare P (c ≫= k) R.
Proof.
  intros Hc Hk w Hw. destruct (Hc w Hw) as (a & w1 & E & Hq).
  erewrite bind_Ok by exact E. by apply Hk.
Qed.

Lemma Hoare_weaken {A} (P P' : World → Prop) (c : M A) (Q Q' : A → World → Prop) :
  Hoare P' c Q' → (∀ w, P w → P' w) → (∀ a w, Q' a w → Q a w) → Hoare P c Q.
Proof.
  intros Hc HP HQ w Hw. destruct (Hc w (HP w Hw)) as (a & w1 & E & Hq).
  exists a, w1. split; [done | by apply HQ].
Qed.

Lemma Hoare_when (P : World → Prop) (b : bool) (c : M unit) :
  Hoare P c (λ _, P) → Hoare P (when b c) (λ _, P).
Proof. intros Hc. destruct b; [done|]. intros w Hw. by exists tt, w. Qed.

Lemma Hoare_for_each {A} (P : World → Prop) (l : list A) (body : A → M unit) :
  (∀ a, Hoare P (body a) (λ _, P)) → Hoare P (for_each l body) (λ _, P).
Proof.
  intros Hb. induction l as [|x l' IH]; simpl.
  - intros w Hw. by exists tt, w.
  - eapply Hoare_bind; [apply Hb | intros ?; apply IH].
Qed.

Lemma Hoare_modify (P Q : World → Prop) (f : World → World) :
  (∀ w, P w → Q (f w)) → Hoare P (modify f) (λ _, Q).
Proof. intros H w Hw. exists tt, (f w). split; [reflexivity | by apply H]. Qed.

(** ** [updateDialoguePhase] *)

(** The event history after [emitEvent], capped at its last 100. *)
Definition emitted (ev : FrameworkEvent) (history : list FrameworkEvent)
  : list FrameworkEvent :=
  let history := (history ++ [ev])%list in
  if (100 <? List.length history)%nat then Js.slice_last 100 history else history.

Lemma emitEvent_emitted ev w :
  emitEvent ev w = (Ok tt, set_eventHistory (emitted ev (orch_eventHistory w)) w).
Proof. reflexivity. Qed.

Lemma orchestrator_state_put s w :
  is_Some (orchestrator_state w) →
  orchestrator_state (put_state (orch_currentState w) s w) = Some s.
Proof. intros H. unfold orchestrator_state. by apply state_at_put_eq. Qed.

Lemma put_state_same l s w : state_at w l = Some s → put_state l s w = w.
Proof.
  intros H. unfold put_state, state_at in *. rewrite list_insert_id by done.
  by destruct w as [[] ? ? ? ? ? ?].
Qed.

(** C5, amended. After [updateDialoguePhase] the phase is questioning,
    responding or reflecting for an exchange of that type, whatever
    insights came with it; for an exchange of type insight it is
    synthesizing when the response carries a new insight and is left as
    it was otherwise. One phase_change event is emitted when the phase
    differs from the previous one, and none when it does not. *)
Theorem updateDialoguePhase_by_type (now : Z) (r : AgentResponse) (w : World)
    (s : DialogueState) :
  orchestrator_state w = Some s →
  let p := match resp_type r with
           | question => questioning
           | response => responding
           | reflection => reflecting
           | insight => if (0 <? List.length (resp_newInsights r))%nat
                        then synthesizing else phase s
           end in
  ∃ w', updateDialoguePhase now r w = (Ok tt, w')
        ∧ orch_currentState w' = orch_currentState w
        ∧ orchestrator_state w' = Some (with_phase p s)
        ∧ orch_eventHistory w' =
            if bool_decide (phase s ≠ p)
            then emitted {| ev_type := phase_change; ev_timestamp := now;
                            ev_data := DataPhase (phase s) p;
                            ev_source := "orchestrator" |} (orch_eventHistory w)
            else orch_eventHistory w.
Proof.
  intros Hs p.
  assert (Hsome : is_Some (state_at w (orch_currentState w))).
  { unfold orchestrator_state in Hs. by rewrite Hs. }
  unfold updateDialoguePhase.
  erewrite bind_Ok by apply this_currentState_eq.
  erewrite bind_Ok by (apply read_state_Some; exact Hs).
  match goal with |- ∃ _, (?c ≫= _) _ = _ ∧ _ =>
    assert (Hassign : c w = (Ok tt, put_state (orch_currentState w) (with_phase p s) w))
  end.
  { subst p. destruct (resp_type r); simpl; try (by apply assign_state_Some).
    destruct (0 <? _)%nat; [by apply assign_state_Some|].
    replace (with_phase (phase s) s) with s by (by destruct s).
    by rewrite put_state_same. }
  erewrite bind_Ok by exact Hassign.
  erewrite bind_Ok by (by apply read_state_Some, state_at_put_eq).
  cbn [phase with_phase]. unfold when.
  destruct (bool_decide (phase s ≠ p)).
  - rewrite emitEvent_emitted. eexists. split; [reflexivity|].
    split; [reflexivity|]. split; [|reflexivity].
    by apply orchestrator_state_put.
  - eexists. split; [reflexivity|]. split; [reflexivity|]. split; [|reflexivity].
    by apply orchestrator_state_put.
Qed.

(** C5, as stated, fails: a response of type response that carries a
    new insight leaves the phase at responding. The questioner's text
    'It seems fine.' is such a response. *)
Lemma new_insight_does_not_force_synthesizing :
  ∃ ex r w',
    executeDialogueStep (it_turn (answer "It seems fine.")) fresh_world = (Ok ex, w')
    ∧ ex_response ex = Some r
    ∧ resp_type r = response
    ∧ List.map ins_content (resp_newInsights r) = ["fine"]
    ∧ phase <$> orchestrator_state w' = Some responding.
Proof. do 3 eexists. vm_compute. repeat split. Qed.

Definition response_with_insight : AgentResponse :=
  {| resp_content := "It seems fine."; resp_type := response;
     resp_confidence := 0.5%float; resp_suggestedNextAgent := role_synthesis;
     resp_toolsUsed := []; resp_memoryReferences := [];
     resp_newInsights := [mkInsight "uuid-1" "fine" medium [] role_questioner 1 false];
     resp_toolDetails := None |}.

Lemma updateDialoguePhase_by_type_witness :
  ∃ s, orchestrator_state fresh_world = Some s
       ∧ ∃ w', updateDialoguePhase 1 response_with_insight fresh_world = (Ok tt, w')
               ∧ orch_currentState w' = orch_currentState fresh_world
               ∧ orchestrator_state w' = Some (with_phase responding s)
               ∧ orch_eventHistory w' =
                   if bool_decide (phase s ≠ responding)
                   then emitted {| ev_type := phase_change; ev_timestamp := 1;
                                   ev_data := DataPhase (phase s) responding;
                                   ev_source := "orchestrator" |}
                                (orch_eventHistory fresh_world)
                   else orch_eventHistory fresh_world.
Proof.
  eexists. split; [vm_compute; reflexivity|].
  eapply (updateDialoguePhase_by_type 1 response_with_insight fresh_world).
  vm_compute. reflexivity.
Defined.

(** ** [updateStateFromResponse] *)

(** The orchestrator's state object is [s] at [o], and what it refers
    to is there. *)
Definition settled (o : loc) (s : DialogueState) (w : World) : Prop :=
  orch_currentState w = o ∧ state_at w o = Some s
  ∧ is_Some (contexts (heap w) !! context s)
  ∧ is_Some (arrays (heap w) !! insights s)
  ∧ is_Some (threads (heap w) !! questionThread s).

Lemma is_Some_insert {A} (l : list A) i j x :
  is_Some (l !! j) → is_Some (<[i := x]> l !! j).
Proof.
  intros H. apply lookup_lt_is_Some. rewrite length_insert.
  by apply lookup_lt_is_Some.
Qed.

Section Settled.
Context (o : loc) (s : DialogueState).
Local Abbreviation P := (settled o s).

Lemma settled_this_currentState :
  Hoare P this_currentState (λ l w, l = o ∧ P w).
Proof. intros w H. exists o, w. split; [|done]. destruct H as [<- _]. reflexivity. Qed.

Lemma settled_read_state : Hoare P (read_state o) (λ s' w, s' = s ∧ P w).
Proof.
  intros w Hw. exists s, w. split; [|done].
  destruct Hw as (_ & Hs & _). by apply read_state_Some.
Qed.

Lemma settled_read_context : Hoare P (read_context (context s)) (λ _, P).
Proof.
  intros w Hw. pose proof Hw as (_ & _ & [c Hc] & _).
  exists c, w. split; [|done]. unfold read_context, deref. by rewrite Hc.
Qed.

Lemma settled_read_array : Hoare P (read_array (insights s)) (λ _, P).
Proof.
  intros w Hw. pose proof Hw as (_ & _ & _ & [a Ha] & _).
  exists a, w. split; [|done]. unfold read_array, deref. by rewrite Ha.
Qed.

Lemma settled_read_thread : Hoare P (read_thread (questionThread s)) (λ _, P).
Proof.
  intros w Hw. pose proof Hw as (_ & _ & _ & _ & [q Hq]).
  exists q, w. split; [|done]. unfold read_thread, deref. by rewrite Hq.
Qed.

Lemma settled_write_context l c : Hoare P (write_context l c) (λ _, P).
Proof.
  apply Hoare_modify. intros w (Ho & Hs & Hc & Ha & Hq).
  repeat split; try done. simpl. by apply is_Some_insert.
Qed.

Lemma settled_write_array l a : Hoare P (write_array l a) (λ _, P).
Proof.
  apply Hoare_modify. intros w (Ho & Hs & Hc & Ha & Hq).
  repeat split; try done. simpl. by apply is_Some_insert.
Qed.

Lemma settled_write_thread l q : Hoare P (write_thread l q) (λ _, P).
Proof.
  apply Hoare_modify. intros w (Ho & Hs & Hc & Ha & Hq).
  repeat split; try done. simpl. by apply is_Some_insert.
Qed.

Lemma settled_emitEvent ev : Hoare P (emitEvent ev) (λ _, P).
Proof. apply Hoare_modify. by intros w H. Qed.

End Settled.

Lemma Hoare_pure {A} (φ : Prop) (P : World → Prop) (c : M A) (Q : A → World → Prop) :
  (φ → Hoare P c Q) → Hoare (λ w, φ ∧ P w) c Q.
Proof. intros H w [Hφ Hw]. by apply H. Qed.

(** The orchestrator's state object is at [o] and names agent [a]. *)
Definition agent_is (o : loc) (a : Agent) (w : World) : Prop :=
  orch_currentState w = o ∧ ∃ s, state_at w o = Some s ∧ currentAgent s = a.

Lemma agent_is_assign_state o a f :
  (∀ s, currentAgent (f s) = currentAgent s) →
  Hoare (agent_is o a) (assign_state o f) (λ _, agent_is o a).
Proof.
  intros Hf w (Ho & s & Hs & Ha). eexists tt, _. split.
  - by apply assign_state_Some.
  - split; [done|]. exists (f s). split; [|by rewrite Hf].
    apply state_at_put_eq. by rewrite Hs.
Qed.

Lemma agent_is_updateDialoguePhase o a now r :
  Hoare (agent_is o a) (updateDialoguePhase now r) (λ _, agent_is o a).
Proof.
  unfold updateDialoguePhase.
  eapply Hoare_bind with (Q := λ l w, l = o ∧ agent_is o a w).
  { intros w H. exists o, w. split; [|done]. destruct H as [<- _]. reflexivity. }
  intros l. apply Hoare_pure. intros ->.
  assert (Hread : Hoare (agent_is o a) (read_state o) (λ _, agent_is o a)).
  { intros w H. pose proof H as (_ & s & Hs & _). exists s, w.
    split; [by apply read_state_Some | done]. }
  eapply Hoare_bind; [exact Hread|]. intros s.
  eapply Hoare_bind with (Q := λ _, agent_is o a).
  { repeat match goal with |- Hoare _ (if ?b then _ else _) _ => destruct b end;
      try (by apply agent_is_assign_state).
    intros w H. by exists tt, w. }
  intros ?. eapply Hoare_bind; [exact Hread|]. intros s'.
  apply Hoare_when. apply Hoare_modify. by intros w H.
Qed.

Lemma settled_assign_agent o s f :
  Hoare (settled o s) (assign_state o f) (λ _, agent_is o (currentAgent (f s))).
Proof.
  intros w (Ho & Hs & _). eexists tt, _. split.
  - by apply assign_state_Some.
  - split; [done|]. exists (f s). split; [|done].
    apply state_at_put_eq. by rewrite Hs.
Qed.

(** The agent the turn hands over to. *)
Definition next_agent (r : AgentResponse) (current : Agent) : Agent :=
  match resp_suggestedNextAgent r with
  | role_questioner => questioner
  | role_explorer => explorer
  | role_synthesis => opposite current
  end.

Lemma updateStateFromResponse_agent now ex r o s :
  Hoare (settled o s) (updateStateFromResponse now ex r)
        (λ _, agent_is o (next_agent r (currentAgent s))).
Proof.
  unfold updateStateFromResponse.
  eapply Hoare_bind; [apply settled_this_currentState|]. intros l.
  apply Hoare_pure. intros ->.
  eapply Hoare_bind; [apply settled_read_state|]. intros s'.
  apply Hoare_pure. intros ->.
  eapply Hoare_bind; [apply settled_read_context|]. intros c.
  eapply Hoare_bind; [apply settled_write_context|]. intros ?.
  eapply Hoare_bind.
  { apply Hoare_when.
    eapply Hoare_bind; [apply settled_read_array|]. intros arr.
    eapply Hoare_bind; [apply settled_write_array|]. intros ?.
    apply Hoare_for_each. intros i. apply settled_emitEvent. }
  intros ?.
  eapply Hoare_bind.
  { apply Hoare_when.
    eapply Hoare_bind; [apply settled_read_thread|]. intros q.
    apply settled_write_thread. }
  intros ?.
  eapply Hoare_bind with (Q := λ _, agent_is o (next_agent r (currentAgent s))).
  { unfold next_agent. destruct (resp_suggestedNextAgent r).
    - apply (settled_assign_agent o s (with_currentAgent questioner)).
    - apply (settled_assign_agent o s (with_currentAgent explorer)).
    - eapply Hoare_weaken; [apply settled_assign_agent | done |].
      intros ? w. simpl. by destruct (currentAgent s). }
  intros ?.
  eapply Hoare_bind; [apply agent_is_updateDialoguePhase|]. intros ?.
  apply Hoare_when. by apply agent_is_assign_state.
Qed.

Lemma well_formed_settled w :
  well_formed w → ∃ s, orchestrator_state w = Some s ∧ settled (orch_currentState w) s w.
Proof.
  intros (Hc & Hq & Ha).
  unfold orchestrator_context, orchestrator_thread, orchestrator_insights in *.
  destruct (orchestrator_state w) as [s|] eqn:Hs; simpl in *.
  - exists s. split; [done|]. by repeat split.
  - by destruct Hc.
Qed.

(** C9. When the response suggests neither the questioner nor the
    explorer as next agent, the orchestrator's agent after the state
    update is the opposite of the one before it. *)
Theorem alternates_without_suggestion (now : Z) (exchange : DialogueExchange)
    (r : AgentResponse) (w : World) :
  well_formed w →
  resp_suggestedNextAgent r = role_synthesis →
  ∃ w', updateStateFromResponse now exchange r w = (Ok tt, w')
        ∧ currentAgent <$> orchestrator_state w'
          = opposite <$> (currentAgent <$> orchestrator_state w).
Proof.
  intros Hwf Hr. destruct (well_formed_settled w Hwf) as (s & Hs & Hset).
  destruct (updateStateFromResponse_agent now exchange r _ s w Hset)
    as ([] & w' & E & Ho & s' & Hs' & Ha).
  exists w'. split; [done|].
  unfold orchestrator_state in *. rewrite Ho, Hs', Hs. simpl.
  rewrite Ha. unfold next_agent. by rewrite Hr.
Qed.

Definition exchange_of (a : Agent) (r : AgentResponse) : DialogueExchange :=
  {| ex_agent := a; ex_type := resp_type r; ex_content := resp_content r;
     ex_timestamp := 1; ex_depth := 0;
     ex_relatedMemories := resp_memoryReferences r; ex_response := Some r |}.

Lemma alternates_without_suggestion_witness :
  well_formed fresh_world
  ∧ resp_suggestedNextAgent response_with_insight = role_synthesis
  ∧ ∃ w', updateStateFromResponse 1 (exchange_of questioner response_with_insight)
            response_with_insight fresh_world = (Ok tt, w')
          ∧ currentAgent <$> orchestrator_state w'
            = opposite <$> (currentAgent <$> orchestrator_state fresh_world).
Proof.
  assert (Hwf : well_formed fresh_world).
  { repeat split; eexists; vm_compute; reflexivity. }
  split; [exact Hwf|]. split; [reflexivity|].
  apply (alternates_without_suggestion 1 (exchange_of questioner response_with_insight)
           response_with_insight fresh_world Hwf).
  reflexivity.
Defined.

(** What [processAgentResponse] returns always suggests the other
    agent, so a turn that completes hands over to it. *)
Lemma processAgentResponse_suggests inp message agent w r w' :
  processAgentResponse inp message agent w = (Ok r, w') →
  resp_suggestedNextAgent r = role_of (opposite agent).
Proof.
  unfold processAgentResponse. destruct message as [m|].
  - unfold mbind, M_bind, bind.
    destruct (runToolCalls _ _ _ _ w) as [[[[tu mr] td]|e] w1]; [|done].
    destruct (bool_decide _).
    + unfold log at 1, modify. simpl. unfold this_currentState, read_state,
        read_context, deref. simpl.
      destruct (states _ !! _); [|done]. simpl.
      destruct (contexts _ !! _); [|done]. simpl.
      by intros [= <- _].
    + by intros [= <- _].
  - unfold mbind, M_bind, bind. simpl. by intros [= <- _].
Qed.

(** ** [calculateConfidence] *)

Definition precision_language (text : string) : bool :=
  Js.includes text "specifically" || Js.includes text "precisely".
Definition uncertainty_language (text : string) : bool :=
  Js.includes text "uncertain" || Js.includes text "unclear".

(** The clamp of a number to [0, 1]. *)
Definition clamp01 (x : float) : float :=
  if PrimFloat.ltb x 0 then 0%float
  else if PrimFloat.ltb 1 x then 1%float else x.

(** The score as the specification words it: one sum, then the clamp. *)
Definition confidence_formula (text : string) : float :=
  clamp01 (0.5
           + (if Js.length text >? 100 then 0.2 else 0)
           + (if precision_language text then 0.1 else 0)
           - (if uncertainty_language text then 0.2 else 0))%float.

(** C8. For every text, the empty one included, the confidence is the
    clamp to [0, 1] of 0.5, plus 0.2 for a length above 100, plus 0.1
    for precision language, minus 0.2 for uncertainty language, the
    sums taken in binary64 as the program takes them; and it lies
    between 0 and 1. *)
Theorem calculateConfidence_formula (text : string) :
  calculateConfidence text = confidence_formula text
  ∧ PrimFloat.leb 0 (calculateConfidence text) = true
  ∧ PrimFloat.leb (calculateConfidence text) 1 = true.
Proof.
  unfold calculateConfidence, confidence_formula.
  fold (precision_language text). fold (uncertainty_language text).
  destruct (Js.length text >? 100), (precision_language text),
    (uncertainty_language text); vm_compute; repeat split.
Qed.

Example calculateConfidence_long_precise :
  calculateConfidence
    ("To put it precisely, awareness persists because each moment of attention "
     ++ "inherits the trace of the one before it, and so on without end.")
  = 0.7999999999999999%float.
Proof. reflexivity. Qed.

(** ** What the loop cannot disturb

    An invariant is stable when the elementary changes the loop makes
    to the world keep it: console and event writes, table writes that
    leave [runs] alone, writes to and allocations of objects, and field
    assignments on a state object that leave its [insights] field. *)
Class Stable (J : World → Prop) : Prop := {
  stable_console : ∀ c w, J w → J (set_console c w);
  stable_events : ∀ h w, J w → J (set_eventHistory h w);
  stable_db : ∀ d w, runs d = runs (db w) → J w → J (set_db d w);
  stable_heap : ∀ h w,
    (∀ l s, states (heap w) !! l = Some s →
            ∃ s', states h !! l = Some s' ∧ insights s' = insights s) →
    (List.length (arrays (heap w)) ≤ List.length (arrays h))%nat →
    J w → J (set_heap h w)
}.

Section Stable.
Context (J : World → Prop) `{!Stable J}.

Lemma stable_log line : Keeps J (log line).
Proof. apply Keeps_modify. intros w. apply stable_console. Qed.

Lemma stable_emitEvent ev : Keeps J (emitEvent ev).
Proof. apply Keeps_modify. intros w. apply stable_events. Qed.

Lemma stable_with_db f : (∀ d, runs (f d) = runs d) → Keeps J (with_db f).
Proof. intros Hf. apply Keeps_modify. intros w. by apply stable_db. Qed.

Lemma stable_write_context l c : Keeps J (write_context l c).
Proof. apply Keeps_modify. intros w. apply stable_heap; simpl; eauto. Qed.

Lemma stable_write_thread l q : Keeps J (write_thread l q).
Proof. apply Keeps_modify. intros w. apply stable_heap; simpl; eauto. Qed.

Lemma stable_write_array l a : Keeps J (write_array l a).
Proof.
  apply Keeps_modify. intros w. apply stable_heap; simpl; eauto.
  by rewrite length_insert.
Qed.

Lemma stable_new_thread q : Keeps J (new_thread q).
Proof. intros w. apply stable_heap; simpl; eauto. Qed.

Lemma stable_new_state s : Keeps J (new_state s).
Proof.
  intros w. apply stable_heap; simpl; [|done].
  intros l s0 H. exists s0. split; [|done].
  rewrite lookup_app_l; [done|]. by eapply lookup_lt_Some.
Qed.

Lemma stable_assign_state l f :
  (∀ s, insights (f s) = insights s) → Keeps J (assign_state l f).
Proof.
  intros Hf w Hw. unfold assign_state.
  destruct (state_at w l) as [s|] eqn:E.
  - erewrite bind_Ok by (by apply read_state_Some).
    rewrite write_state_eq. cbn [snd]. unfold put_state.
    apply stable_heap; simpl; [|done|done].
    intros l0 s0 H. destruct (decide (l = l0)) as [->|Hne].
    + exists (f s). split.
      * apply list_lookup_insert_eq. by eapply lookup_lt_Some.
      * unfold state_at in E. rewrite Hf. congruence.
    + exists s0. split; [|done]. by rewrite list_lookup_insert_ne.
  - erewrite bind_Throw by (by apply read_state_None). done.
Qed.

End Stable.

Create HintDb stable discriminated.
#[global] Hint Resolve stable_log stable_emitEvent stable_write_context
  stable_write_thread stable_write_array stable_new_thread stable_new_state : stable.
#[global] Hint Extern 1 (Keeps _ (assign_state _ _)) =>
  apply stable_assign_state; [assumption | done] : stable.
#[global] Hint Extern 1 (Keeps _ (with_db _)) =>
  apply stable_with_db; [assumption | done] : stable.

Ltac stable := repeat first [ keeps_step | solve [eauto 3 with stable] ].

Section StableFunctions.
Context (J : World → Prop) `{!Stable J}.

Lemma stable_peek_thread s : Keeps J (peek_thread s).
Proof. by intros w H. Qed.

Lemma stable_unexplored_of s : Keeps J (unexplored_of s).
Proof. by intros w H. Qed.

Lemma stable_assign_context l f : Keeps J (assign_context l f).
Proof. unfold assign_context. stable. Qed.

Lemma stable_getCurrentState : Keeps J getCurrentState.
Proof. unfold getCurrentState. stable. Qed.

Lemma stable_getRecentInsights n : Keeps J (getRecentInsights n).
Proof. unfold getRecentInsights. stable. Qed.

Lemma stable_updateDialoguePhase now r : Keeps J (updateDialoguePhase now r).
Proof. unfold updateDialoguePhase. stable. Qed.

Hint Resolve stable_peek_thread stable_unexplored_of stable_assign_context
  stable_getCurrentState stable_getRecentInsights stable_updateDialoguePhase : stable.

Lemma stable_updateStateFromResponse now ex r :
  Keeps J (updateStateFromResponse now ex r).
Proof. unfold updateStateFromResponse. stable. Qed.

Lemma stable_runToolCalls now agent calls acc :
  Keeps J (runToolCalls now agent calls acc).
Proof.
  revert acc. induction calls as [|call calls IH]; intros [[tu mr] td]; simpl.
  - apply Keeps_ret.
  - stable.
Qed.

Hint Resolve stable_updateStateFromResponse stable_runToolCalls : stable.

Lemma stable_processAgentResponse inp message agent :
  Keeps J (processAgentResponse inp message agent).
Proof. unfold processAgentResponse. stable. Qed.

Hint Resolve stable_processAgentResponse : stable.

Lemma stable_executeAgent inp agent : Keeps J (executeAgent inp agent).
Proof. unfold executeAgent, buildContextForAgent. stable. Qed.

Hint Resolve stable_executeAgent : stable.

Lemma stable_executeDialogueStep inp : Keeps J (executeDialogueStep inp).
Proof.
  unfold executeDialogueStep, executeQuestioner, executeExplorer. stable.
Qed.

Lemma stable_startNewQuestionThread random : Keeps J (startNewQuestionThread random).
Proof. unfold startNewQuestionThread. stable. Qed.

Lemma stable_storeDialogueExchange o ex : Keeps J (storeDialogueExchange o ex).
Proof. unfold storeDialogueExchange. stable. Qed.

Lemma stable_storeDialogueState o : Keeps J (storeDialogueState o).
Proof. unfold storeDialogueState. stable. Qed.

Lemma stable_storeInsight o i : Keeps J (storeInsight o i).
Proof. unfold storeInsight. stable. Qed.

Lemma stable_logSessionSummary n : Keeps J (logSessionSummary n).
Proof. unfold logSessionSummary. stable. Qed.

Lemma stable_captureIdentitySnapshot inp n : Keeps J (captureIdentitySnapshot inp n).
Proof. unfold captureIdentitySnapshot. stable. Qed.

Lemma stable_finalizeSession : Keeps J finalizeSession.
Proof. unfold finalizeSession. stable. Qed.

Hint Resolve stable_executeDialogueStep stable_startNewQuestionThread
  stable_storeDialogueExchange stable_storeDialogueState stable_storeInsight
  stable_logSessionSummary stable_captureIdentitySnapshot : stable.

Lemma stable_tryBody inp stepCount : Keeps J (tryBody inp stepCount).
Proof. unfold tryBody. stable. Qed.

End StableFunctions.

#[global] Hint Resolve stable_peek_thread stable_unexplored_of stable_assign_context
  stable_getCurrentState stable_getRecentInsights stable_updateDialoguePhase
  stable_updateStateFromResponse stable_runToolCalls stable_processAgentResponse
  stable_executeAgent stable_executeDialogueStep stable_startNewQuestionThread
  stable_storeDialogueExchange stable_storeDialogueState stable_storeInsight
  stable_logSessionSummary stable_captureIdentitySnapshot stable_finalizeSession
  : stable.
#[global] Hint Extern 0 (Stable _) => typeclasses eauto : stable.

(** ** The stepping loop *)

(** A session that can be paused and resumed: the run is [rid], the
    [runs] table is [rs], and the orchestrator's state and its insights
    array are there. *)
Definition resumable (rid : string) (rs : gmap string string) (w : World) : Prop :=
  runId w = rid ∧ runs (db w) = rs
  ∧ ∃ s, orchestrator_state w = Some s
         ∧ (insights s < List.length (arrays (heap w)))%nat.

#[global] Instance resumable_stable rid rs : Stable (resumable rid rs).
Proof.
  split.
  - by intros c w H.
  - by intros h w H.
  - intros d w Hd (Hr & Hrs & H). split; [done|]. split; [|done].
    simpl. by rewrite Hd.
  - intros h w Hst Harr (Hr & Hrs & s & Hs & Hi). split; [done|]. split; [done|].
    destruct (Hst _ _ Hs) as (s' & Hs' & Hins).
    exists s'. split; [exact Hs'|]. rewrite Hins. simpl. lia.
Qed.

#[global] Instance isRunning_stable b : Stable (λ w, isRunning w = b).
Proof. split; by intros. Qed.

#[global] Instance state_there_stable l : Stable (λ w, is_Some (state_at w l)).
Proof.
  split; try (by intros).
  intros h w Hst _ [s Hs]. destruct (Hst _ _ Hs) as (s' & Hs' & _). by exists s'.
Qed.

Lemma resumable_set_isRunning rid rs b w :
  resumable rid rs w → resumable rid rs (set_isRunning b w).
Proof. by intros H. Qed.

Lemma getRecentInsights_Some w s a n :
  orchestrator_state w = Some s → arrays (heap w) !! insights s = Some a →
  getRecentInsights n w = (Ok (Js.slice_last n a), w).
Proof.
  intros Hs Ha. unfold getRecentInsights.
  erewrite bind_Ok by apply this_currentState_eq.
  erewrite bind_Ok by (by apply read_state_Some).
  erewrite bind_Ok; [reflexivity|]. unfold read_array, deref. by rewrite Ha.
Qed.

Lemma finalizeSession_paused rid rs w :
  rid ≠ EmptyString → resumable rid rs w →
  ∃ d w', finalizeSession w = (Ok tt, w')
          ∧ last (console w') = Some (LogSessionPaused d rid)
          ∧ orchestrator_depth w = Some d.
Proof.
  intros Hrid (Hr & _ & s & Hs & Hi).
  destruct (lookup_lt_is_Some_2 _ _ Hi) as [a Ha].
  exists (depth s). eexists. split; [|split].
  - unfold finalizeSession. erewrite bind_Ok by reflexivity.
    rewrite Hr. rewrite bool_decide_true by done.
    erewrite bind_Ok by (by eapply getRecentInsights_Some).
    erewrite bind_Ok by (by apply getCurrentState_Some).
    erewrite bind_Ok by (apply read_state_Some, state_at_push_new).
    apply log_eq.
  - simpl. by rewrite last_snoc.
  - unfold orchestrator_depth. by rewrite Hs.
Qed.

Lemma stop_ok rid rs w :
  rid ≠ EmptyString → resumable rid rs w →
  ∃ w', stop w = (Ok tt, w') ∧ isRunning w' = false.
Proof.
  intros Hrid H. unfold stop.
  erewrite bind_Ok by apply log_eq.
  erewrite bind_Ok by reflexivity.
  set (w1 := set_isRunning false _).
  assert (H1 : resumable rid rs w1) by (by apply resumable_set_isRunning, stable_console).
  destruct (finalizeSession_paused rid rs w1 Hrid H1) as (d & w' & E & _).
  exists w'. split; [exact E|].
  pose proof (stable_finalizeSession (λ w, isRunning w = false) w1 eq_refl) as Hk.
  by rewrite E in Hk.
Qed.

Lemma sleep_ok rid rs inp w :
  rid ≠ EmptyString → resumable rid rs w →
  ∃ w', sleep inp w = (Ok tt, w')
        ∧ (isRunning w' = isRunning w ∨ isRunning w' = false).
Proof.
  intros Hrid H. unfold sleep, when. destruct (it_stop inp).
  - destruct (stop_ok rid rs w Hrid H) as (w' & E & Hf). exists w'. auto.
  - exists w. auto.
Qed.

Lemma stable_stop (J : World → Prop) `{!Stable J} :
  (∀ w, J w → J (set_isRunning false w)) → Keeps J stop.
Proof.
  intros Hset. unfold stop. apply Keeps_bind; [apply stable_log; done|]. intros ?.
  apply Keeps_bind; [by apply Keeps_modify|]. intros ?.
  by apply stable_finalizeSession.
Qed.

Lemma stable_sleep (J : World → Prop) `{!Stable J} inp :
  (∀ w, J w → J (set_isRunning false w)) → Keeps J (sleep inp).
Proof. intros Hset. unfold sleep. apply Keeps_when. by apply stable_stop. Qed.

(** What a computation returns, when it does. *)
Definition Returns {A} (c : M A) (φ : A → Prop) : Prop :=
  ∀ w a w', c w = (Ok a, w') → φ a.

Lemma Returns_bind {A B} (c : M A) (k : A → M B) (φ : B → Prop) :
  (∀ a, Returns (k a) φ) → Returns (c ≫= k) φ.
Proof.
  intros Hk w b w'. unfold mbind, M_bind, bind.
  destruct (c w) as [[a|e] w1]; [apply Hk | done].
Qed.

Lemma Returns_mret {A} (a : A) (φ : A → Prop) : φ a → Returns (mret a : M A) φ.
Proof. intros H w a' w' [= <- _]. exact H. Qed.

(** The state object [tryBody] hands to the rest of the [try] is there. *)
Lemma tryBody_copy inp stepCount w currentState w1 :
  tryBody inp stepCount w = (Ok currentState, w1) →
  is_Some (state_at w1 currentState).
Proof.
  unfold tryBody. destruct (orchestrator_state w) as [s|] eqn:Hs.
  - erewrite bind_Ok by (by apply getCurrentState_Some).
    set (l := List.length (states (heap w))).
    match goal with |- ?c _ = _ → _ => set (rest := c) end.
    intros E.
    assert (HR : Returns rest (λ a, a = l)).
    { subst rest. repeat (apply Returns_bind; intros ?). by apply Returns_mret. }
    assert (HK : Keeps (λ w, is_Some (state_at w l)) rest).
    { subst rest. stable. }
    rewrite (HR _ _ _ E).
    specialize (HK (push_state s w)). rewrite E in HK. apply HK.
    subst l. by rewrite state_at_push_new.
  - by erewrite bind_Throw by (by apply getCurrentState_None).
Qed.

Lemma tryTail_ok rid rs inp stepCount currentState w :
  rid ≠ EmptyString → resumable rid rs w → is_Some (state_at w currentState) →
  ∃ w', tryTail inp stepCount currentState w = (Ok tt, w').
Proof.
  intros Hrid H Hcs. unfold tryTail.
  erewrite bind_Ok by apply log_eq.
  set (w1 := set_console _ w).
  assert (H1 : resumable rid rs w1) by (by apply stable_console).
  destruct (sleep_ok rid rs inp w1 Hrid H1) as (w2 & E & _).
  erewrite bind_Ok by exact E.
  assert (Hcs2 : is_Some (state_at w2 currentState)).
  { pose proof (stable_sleep (λ w, is_Some (state_at w currentState)) inp
                  (λ w H, H) w1 Hcs) as HK.
    by rewrite E in HK. }
  destruct Hcs2 as [s Hs].
  erewrite bind_Ok by (by apply read_state_Some).
  unfold when. destruct (_ =? 0); eexists; reflexivity.
Qed.

Lemma stable_tryTail (J : World → Prop) `{!Stable J} inp stepCount currentState :
  (∀ w, J w → J (set_isRunning false w)) →
  Keeps J (tryTail inp stepCount currentState).
Proof.
  intros Hset. unfold tryTail.
  apply Keeps_bind; [by apply stable_log|]. intros ?.
  apply Keeps_bind; [by apply stable_sleep|]. intros ?.
  stable.
Qed.

(** The [catch]: the counter goes up by one; at 3 the running flag is
    cleared and the loop is left, below 3 the loop goes on. *)
Lemma catchBlock_ok rid rs inp stepCount consecutiveErrors error w :
  rid ≠ EmptyString → resumable rid rs w →
  ∃ w', catchBlock inp stepCount consecutiveErrors error w
        = (Ok (if consecutiveErrors + 1 >=? maxConsecutiveErrors
               then Break else Continue (consecutiveErrors + 1)), w')
        ∧ ((consecutiveErrors + 1 >=? maxConsecutiveErrors) = true → isRunning w' = false).
Proof.
  intros Hrid H. unfold catchBlock. cbn zeta.
  erewrite bind_Ok by apply log_eq.
  destruct (consecutiveErrors + 1 >=? maxConsecutiveErrors).
  - erewrite bind_Ok by apply log_eq.
    erewrite bind_Ok by reflexivity.
    eexists. split; [reflexivity|]. done.
  - erewrite bind_Ok by apply log_eq.
    set (w1 := set_console _ (set_console _ w)).
    assert (H1 : resumable rid rs w1) by (by do 2 apply stable_console).
    destruct (sleep_ok rid rs inp w1 Hrid H1) as (w2 & E & _).
    erewrite bind_Ok by exact E.
    eexists. split; [reflexivity|]. done.
Qed.

Lemma stable_catchBlock (J : World → Prop) `{!Stable J} inp stepCount ce error :
  (∀ w, J w → J (set_isRunning false w)) →
  Keeps J (catchBlock inp stepCount ce error).
Proof.
  intros Hset. unfold catchBlock. cbn zeta.
  apply Keeps_bind; [by apply stable_log|]. intros ?.
  destruct (_ >=? _).
  - apply Keeps_bind; [by apply stable_log|]. intros ?.
    apply Keeps_bind; [by apply Keeps_modify|]. intros ?. apply Keeps_mret.
  - apply Keeps_bind; [by apply stable_log|]. intros ?.
    apply Keeps_bind; [by apply stable_sleep|]. intros ?. apply Keeps_mret.
Qed.

Definition threw {A} (r : Result A) : Prop :=
  match r with Throw _ => True | Ok _ => False end.

(** What one pass through the loop makes of the error counter. *)
Definition counter_after (attempt : Result loc) (consecutiveErrors : Z) : Next :=
  match attempt with
  | Ok _ => Continue 0
  | Throw _ =>
      if consecutiveErrors + 1 >=? maxConsecutiveErrors
      then Break else Continue (consecutiveErrors + 1)
  end.

Lemma iteration_ok rid rs inp stepCount consecutiveErrors w :
  rid ≠ EmptyString → resumable rid rs w →
  ∃ w', iteration inp stepCount consecutiveErrors w
        = (Ok (counter_after (tryBody inp (stepCount + 1) w).1 consecutiveErrors), w')
        ∧ resumable rid rs w'
        ∧ (counter_after (tryBody inp (stepCount + 1) w).1 consecutiveErrors = Break
           → isRunning w' = false).
Proof.
  intros Hrid H. unfold iteration. cbn zeta.
  pose proof (stable_tryBody (resumable rid rs) inp (stepCount + 1) w H) as H1.
  destruct (tryBody inp (stepCount + 1) w) as [[cs|e] w1] eqn:E; cbn [fst snd] in *.
  - destruct (tryTail_ok rid rs inp (stepCount + 1) cs w1 Hrid H1) as (w2 & E2).
    { by eapply tryBody_copy. }
    rewrite E2. exists w2. split; [reflexivity|]. split; [|done].
    pose proof (stable_tryTail (resumable rid rs) inp (stepCount + 1) cs
                  (resumable_set_isRunning rid rs false) w1 H1) as H2.
    by rewrite E2 in H2.
  - destruct (catchBlock_ok rid rs inp (stepCount + 1) consecutiveErrors e w1 Hrid H1)
      as (w2 & E2 & Hbreak).
    rewrite E2. exists w2. split; [reflexivity|]. split.
    + pose proof (stable_catchBlock (resumable rid rs) inp (stepCount + 1)
                    consecutiveErrors e (resumable_set_isRunning rid rs false) w1 H1)
        as H2.
      by rewrite E2 in H2.
    + unfold counter_after. destruct (_ >=? _); [intros _; by apply Hbreak | done].
Qed.

Lemma counter_after_range attempt ce ce' :
  0 ≤ ce → counter_after attempt ce = Continue ce' → 0 ≤ ce' < maxConsecutiveErrors.
Proof.
  unfold counter_after, maxConsecutiveErrors. intros Hce.
  destruct attempt; [intros [= <-]; lia|].
  destruct (ce + 1 >=? 3) eqn:E; [done|]. intros [= <-]. lia.
Qed.

Lemma whileRunning_ok rid rs inputs :
  rid ≠ EmptyString →
  ∀ stepCount consecutiveErrors w,
    resumable rid rs w → 0 ≤ consecutiveErrors < maxConsecutiveErrors →
    ∃ res w', whileRunning inputs stepCount consecutiveErrors w = (Ok res, w')
              ∧ resumable rid rs w'
              ∧ match res with
                | SessionEnded => isRunning w' = false
                | Awaiting stepCount' consecutiveErrors' =>
                    isRunning w' = true
                    ∧ 0 ≤ consecutiveErrors' < maxConsecutiveErrors
                    ∧ stepCount' = stepCount + Z.of_nat (List.length inputs)
                | AlreadyRunning => False
                end.
Proof.
  intros Hrid. induction inputs as [|inp inputs IH]; intros sc ce w H Hce; simpl.
  - destruct (isRunning w) eqn:Hrun.
    + exists (Awaiting sc ce), w. split; [done|]. split; [done|].
      repeat split; try done; lia.
    + by exists SessionEnded, w.
  - destruct (isRunning w) eqn:Hrun; [|by exists SessionEnded, w].
    destruct (iteration_ok rid rs inp sc ce w Hrid H) as (w1 & E & H1 & Hbreak).
    rewrite E. destruct (counter_after _ ce) as [ce'|] eqn:Ec.
    + destruct (IH (sc + 1) ce' w1 H1) as (res & w2 & E2 & H2 & Hres).
      { eapply counter_after_range; [|exact Ec]. lia. }
      exists res, w2. split; [exact E2|]. split; [exact H2|].
      destruct res; try done. destruct Hres as (? & ? & ->). repeat split; try done; lia.
    + exists SessionEnded, w1. split; [done|]. split; [done|]. by apply Hbreak.
Qed.

Lemma start_ok rid rs inputs w :
  rid ≠ EmptyString → resumable rid rs w → isRunning w = false →
  ∃ res w', start inputs w = (Ok res, w')
            ∧ resumable rid rs w'
            ∧ match res with
              | SessionEnded =>
                  isRunning w' = false
                  ∧ ∃ d, last (console w') = Some (LogSessionPaused d rid)
              | Awaiting stepCount consecutiveErrors =>
                  isRunning w' = true
                  ∧ 0 ≤ consecutiveErrors < maxConsecutiveErrors
                  ∧ stepCount = Z.of_nat (List.length inputs)
              | AlreadyRunning => False
              end.
Proof.
  intros Hrid H Hrun. unfold start.
  erewrite bind_Ok by reflexivity. rewrite Hrun.
  erewrite bind_Ok by reflexivity.
  erewrite bind_Ok by apply log_eq.
  set (w0 := set_console _ _).
  assert (H0 : resumable rid rs w0) by done.
  destruct (whileRunning_ok rid rs inputs Hrid 0 0 w0 H0) as (res & w1 & E & H1 & Hres).
  { unfold maxConsecutiveErrors. lia. }
  erewrite bind_Ok by exact E.
  destruct res as [| |sc ce]; [done| |].
  - erewrite bind_Ok by apply log_eq.
    set (w2 := set_console _ w1).
    assert (H2 : resumable rid rs w2) by (by apply stable_console).
    destruct (finalizeSession_paused rid rs w2 Hrid H2) as (d & w3 & E3 & Hlast & _).
    erewrite bind_Ok by exact E3.
    exists SessionEnded, w3. split; [reflexivity|].
    pose proof (stable_finalizeSession (resumable rid rs) w2 H2) as H3.
    pose proof (stable_finalizeSession (λ w, isRunning w = false) w2 Hres) as H4.
    rewrite E3 in H3, H4. split; [done|]. split; [done|]. by exists d.
  - exists (Awaiting sc ce), w1. split; [reflexivity|]. split; [done|].
    destruct Hres as (? & ? & ->). repeat split; try done; lia.
Qed.

(** *** Iterations that are bound to fail *)

Definition Throws {A} (c : M A) : Prop := ∀ w, ∃ e, (c w).1 = Throw e.

Lemma Throws_throw {A} e : Throws (throw e : M A).
Proof. intros w. by exists e. Qed.

Lemma Throws_bind_l {A B} (c : M A) (k : A → M B) : Throws c → Throws (c ≫= k).
Proof.
  intros Hc w. destruct (Hc w) as [e He]. exists e.
  unfold mbind, M_bind, bind. by destruct (c w) as [[a|e'] w']; simplify_eq/=.
Qed.

Lemma Throws_bind_r {A B} (c : M A) (k : A → M B) :
  (∀ a, Throws (k a)) → Throws (c ≫= k).
Proof.
  intros Hk w. unfold mbind, M_bind, bind.
  destruct (c w) as [[a|e] w']; [apply Hk | by exists e].
Qed.

Lemma Throws_try_catch {A} (c : M A) (h : string → M A) :
  Throws c → (∀ e, Throws (h e)) → Throws (try_catch c h).
Proof.
  intros Hc Hh w. unfold try_catch. destruct (Hc w) as [e He].
  destruct (c w) as [[a|e'] w']; simplify_eq/=. apply Hh.
Qed.

(** The chat-completion capability throws during the turn. *)
Definition capability_fails (inp : IterInput) : Prop :=
  ∃ msg, in_completion (it_turn inp) = CompletionThrows msg.

Lemma executeDialogueStep_throws inp :
  capability_fails inp → Throws (executeDialogueStep (it_turn inp)).
Proof.
  intros [msg Hmsg]. unfold executeDialogueStep.
  apply Throws_bind_r. intros l. apply Throws_bind_r. intros s.
  apply Throws_try_catch.
  - apply Throws_bind_l.
    assert (H : ∀ a, Throws (executeAgent (it_turn inp) a)).
    { intros a. unfold executeAgent. apply Throws_bind_r. intros ?.
      rewrite Hmsg. apply Throws_throw. }
    destruct (bool_decide _); apply H.
  - intros e. apply Throws_bind_r. intros ?. apply Throws_throw.
Qed.

Lemma tryBody_throws inp stepCount :
  capability_fails inp → Throws (tryBody inp stepCount).
Proof.
  intros H. unfold tryBody.
  repeat first [ apply Throws_bind_l; by apply executeDialogueStep_throws
               | apply Throws_bind_r; intros ? ].
Qed.

Lemma whileRunning_app inputs more :
  ∀ stepCount consecutiveErrors w,
    whileRunning (inputs ++ more) stepCount consecutiveErrors w
    = match whileRunning inputs stepCount consecutiveErrors w with
      | (Ok (Awaiting stepCount' consecutiveErrors'), w') =>
          whileRunning more stepCount' consecutiveErrors' w'
      | r => r
      end.
Proof.
  induction inputs as [|inp inputs IH]; intros sc ce w; simpl.
  - destruct (isRunning w) eqn:E; [done|].
    destruct more; simpl; by rewrite E.
  - destruct (isRunning w); [|done].
    destruct (iteration inp sc ce w) as [[[ce'|]|e] w1]; [apply IH|done|done].
Qed.

(** From any counter value, the third failing iteration in a row at
    the latest leaves the loop, and what would come after is not run. *)
Lemma whileRunning_three_failures rid rs f1 f2 f3 more stepCount consecutiveErrors w :
  rid ≠ EmptyString → resumable rid rs w → 0 ≤ consecutiveErrors →
  capability_fails f1 → capability_fails f2 → capability_fails f3 →
  ∃ w', whileRunning (f1 :: f2 :: f3 :: more) stepCount consecutiveErrors w
        = (Ok SessionEnded, w')
        ∧ whileRunning [f1; f2; f3] stepCount consecutiveErrors w = (Ok SessionEnded, w').
Proof.
  intros Hrid H Hce F1 F2 F3.
  assert (Hstep : ∀ f sc ce w, capability_fails f → resumable rid rs w →
            ∃ w', iteration f sc ce w
                  = (Ok (if ce + 1 >=? maxConsecutiveErrors
                         then Break else Continue (ce + 1)), w')
                  ∧ resumable rid rs w').
  { intros f sc ce w0 Hf H0.
    destruct (iteration_ok rid rs f sc ce w0 Hrid H0) as (w1 & E & H1 & _).
    destruct (tryBody_throws f (sc + 1) Hf w0) as [e He].
    rewrite He in E. by exists w1. }
  unfold maxConsecutiveErrors in Hstep.
  simpl. destruct (isRunning w); [|by eexists].
  destruct (Hstep f1 stepCount consecutiveErrors w F1 H) as (w1 & -> & H1).
  destruct (consecutiveErrors + 1 >=? 3) eqn:E1; [by eexists|].
  destruct (isRunning w1); [|by eexists].
  destruct (Hstep f2 (stepCount + 1) (consecutiveErrors + 1) w1 F2 H1) as (w2 & -> & H2).
  destruct (consecutiveErrors + 1 + 1 >=? 3) eqn:E2; [by eexists|].
  destruct (isRunning w2); [|by eexists].
  destruct (Hstep f3 (stepCount + 1 + 1) (consecutiveErrors + 1 + 1) w2 F3 H2)
    as (w3 & -> & H3).
  destruct (consecutiveErrors + 1 + 1 + 1 >=? 3) eqn:E3; [by eexists|]. lia.
Qed.

Lemma whileRunning_ends rid rs before f1 f2 f3 more w :
  rid ≠ EmptyString → resumable rid rs w →
  capability_fails f1 → capability_fails f2 → capability_fails f3 →
  ∃ w', whileRunning (before ++ f1 :: f2 :: f3 :: more) 0 0 w = (Ok SessionEnded, w')
        ∧ whileRunning (before ++ [f1; f2; f3]) 0 0 w = (Ok SessionEnded, w').
Proof.
  intros Hrid H F1 F2 F3. rewrite !whileRunning_app.
  destruct (whileRunning_ok rid rs before Hrid 0 0 w H) as (res & w1 & -> & H1 & Hres).
  { unfold maxConsecutiveErrors. lia. }
  destruct res as [| |sc ce]; [done|by exists w1|].
  destruct Hres as (_ & Hce & _).
  apply (whileRunning_three_failures rid rs); try done. lia.
Qed.

Lemma start_three_failures rid rs before f1 f2 f3 more w :
  rid ≠ EmptyString → resumable rid rs w → isRunning w = false →
  capability_fails f1 → capability_fails f2 → capability_fails f3 →
  ∃ w', start (before ++ f1 :: f2 :: f3 :: more) w = (Ok SessionEnded, w')
        ∧ start (before ++ [f1; f2; f3]) w = (Ok SessionEnded, w').
Proof.
  intros Hrid H Hrun F1 F2 F3.
  destruct (start_ok rid rs (before ++ [f1; f2; f3]) w Hrid H Hrun)
    as (res & w' & E & _ & _).
  exists w'. revert E. unfold start.
  erewrite !bind_Ok by reflexivity. rewrite Hrun.
  erewrite !(bind_Ok (modify (set_isRunning true))) by reflexivity.
  erewrite !(bind_Ok (log LogStarting)) by apply log_eq.
  set (w0 := set_console _ _).
  destruct (whileRunning_ends rid rs before f1 f2 f3 more w0 Hrid) as (w1 & E1 & E2);
    try done.
  erewrite (bind_Ok _ _ _ _ _ E1). erewrite (bind_Ok _ _ _ _ _ E2).
  intros E. assert (res = SessionEnded) as ->; [|by split].
  revert E. unfold mbind, M_bind, bind.
  destruct (log LogSessionEnded w1) as [[[]|] w2]; [|done].
  destruct (finalizeSession w2) as [[[]|] w3]; [|done].
  by intros [= <- _].
Qed.


(** An iteration in which the chat-completion capability throws. *)
Definition outage : IterInput :=
  {| it_turn := {| in_now := 2; in_uuid := fun _ => "uuid-2";
                   in_completion := CompletionThrows "503";
                   in_storeEpisodic := Succeeds |};
     it_random_depth := 0; it_random_stuck := 0;
     it_storeExchange := Succeeds; it_storeState := Succeeds;
     it_storeInsight := Succeeds; it_snapshotQueries := Succeeds;
     it_snapshotStored := true; it_stop := false |}.


Example three_outages_log :
  let w' := (start [answer "Why?"; outage; outage; outage; answer "How?"] fresh_world).2 in
  console w' =
    [LogStarting;
     LogStepHeader 1 questioner questioning 0 "the strange persistence of awareness";
     LogExchange questioner "Why?"; LogWaiting;
     LogStepHeader 2 explorer questioning 0 "the strange persistence of awareness";
     ErrDialogueStep explorer "503"; ErrStep 2 "503"; LogContinuing 1 3;
     LogStepHeader 3 explorer questioning 0 "the strange persistence of awareness";
     ErrDialogueStep explorer "503"; ErrStep 3 "503"; LogContinuing 2 3;
     LogStepHeader 4 explorer questioning 0 "the strange persistence of awareness";
     ErrDialogueStep explorer "503"; ErrStep 4 "503"; ErrTooMany 3;
     LogSessionEnded; LogSessionPaused 0 "run-1"]
  ∧ isRunning w' = false
  ∧ runs (db w') !! "run-1" = Some "running".
Proof. vm_compute. repeat split. Qed.

(** ** [storeSemanticMemory] *)

(** The exploration level stored under a concept's name. *)
Definition stored_level (st : Stores) (name : string) : option Z :=
  cr_exploration_level <$> semantic_concepts st !! name.

Lemma storeSemanticMemory_table inp concept source st :
  1 ≤ pc_explorationLevel concept ≤ 10 →
  ∃ table st',
    upsert_concept (si_uuid inp) concept (si_now inp) (semantic_concepts st) = Some table
    ∧ storeSemanticMemory inp concept source st = (Ok tt, st')
    ∧ semantic_concepts st' = table.
Proof.
  intros Hl. unfold storeSemanticMemory.
  assert (Hin : (1 <=? pc_explorationLevel concept)
                && (pc_explorationLevel concept <=? 10) = true).
  { apply andb_true_intro. split; lia. }
  unfold upsert_concept at 1 2. rewrite Hin.
  eexists. destruct (si_embedding inp) as [|embedding].
  - eexists. repeat split.
  - destruct (0 <? List.length embedding)%nat; [destruct (si_upsert inp)|];
      eexists; repeat split.
Qed.

Lemma storeSemanticMemory_level inp concept source st :
  1 ≤ pc_explorationLevel concept ≤ 10 →
  ∃ st', storeSemanticMemory inp concept source st = (Ok tt, st')
         ∧ stored_level st' (pc_name concept)
           = Some (match stored_level st (pc_name concept) with
                   | Some old => Z.max old (pc_explorationLevel concept)
                   | None => pc_explorationLevel concept
                   end).
Proof.
  intros Hl.
  destruct (storeSemanticMemory_table inp concept source st Hl)
    as (table & st' & Hup & Hrun & Htab).
  exists st'. split; [exact Hrun|].
  unfold stored_level. rewrite Htab. unfold upsert_concept in Hup.
  destruct ((1 <=? _) && _); [|done]. injection Hup as <-.
  destruct (semantic_concepts st !! pc_name concept) as [old|];
    by rewrite lookup_insert_eq.
Qed.

(** C7. Store a concept, then store a concept of the same name again,
    both with levels in 1..10. After the first call the stored level is
    the level passed, or, when the name was stored before, the larger of
    that level and the one found. After the second call it is the larger
    of the level the first call left and the level passed: a lower level
    leaves the stored level as the first call left it, a higher one
    becomes the stored level, and the stored level never goes down. For
    a name stored for the first time, the level after both calls is the
    larger of the two levels passed. *)
Theorem storeSemanticMemory_max_merge (inp1 inp2 : StoreInput)
    (first second : PhilosophicalConcept) (source1 source2 : ConceptSource) (st : Stores) :
  pc_name second = pc_name first →
  1 ≤ pc_explorationLevel first ≤ 10 →
  1 ≤ pc_explorationLevel second ≤ 10 →
  ∃ st1 st2 level1 level2,
    storeSemanticMemory inp1 first source1 st = (Ok tt, st1)
    ∧ storeSemanticMemory inp2 second source2 st1 = (Ok tt, st2)
    ∧ stored_level st1 (pc_name first) = Some level1
    ∧ stored_level st2 (pc_name first) = Some level2
    ∧ level1 = match stored_level st (pc_name first) with
               | Some old => Z.max old (pc_explorationLevel first)
               | None => pc_explorationLevel first
               end
    ∧ level2 = Z.max level1 (pc_explorationLevel second)
    ∧ ((pc_explorationLevel second < level1) → level2 = level1)
    ∧ ((level1 < pc_explorationLevel second) → level2 = pc_explorationLevel second)
    ∧ pc_explorationLevel first ≤ level1
    ∧ level1 ≤ level2
    ∧ (stored_level st (pc_name first) = None →
       level1 = pc_explorationLevel first
       ∧ level2 = Z.max (pc_explorationLevel first) (pc_explorationLevel second)).
Proof.
  intros Hname H1 H2.
  destruct (storeSemanticMemory_level inp1 first source1 st H1) as (st1 & E1 & L1).
  destruct (storeSemanticMemory_level inp2 second source2 st1 H2) as (st2 & E2 & L2).
  rewrite Hname in L2. rewrite L1 in L2.
  eexists st1, st2, _, _. split; [exact E1|]. split; [exact E2|].
  split; [exact L1|]. split; [exact L2|]. split; [reflexivity|].
  split; [reflexivity|].
  destruct (stored_level st (pc_name first)) as [old|]; repeat split; try done; lia.
Qed.

Definition qualia (level : Z) : PhilosophicalConcept :=
  {| pc_name := "qualia"; pc_definition := "what an experience is like";
     pc_relatedConcepts := ["experience"]; pc_sources := [];
     pc_explorationLevel := level |}.

Definition store_now (t : Z) : StoreInput :=
  {| si_uuid := "uuid-3"; si_now := t; si_embedding := EmbeddingThrows "429";
     si_upsert := Succeeds |}.

Definition no_stores : Stores := mkStores ∅ [] ∅.

Lemma storeSemanticMemory_max_merge_witness :
  pc_name (qualia 2) = pc_name (qualia 7)
  ∧ 1 ≤ pc_explorationLevel (qualia 7) ≤ 10
  ∧ 1 ≤ pc_explorationLevel (qualia 2) ≤ 10
  ∧ ∃ st1 st2,
      storeSemanticMemory (store_now 1) (qualia 7) searched no_stores = (Ok tt, st1)
      ∧ storeSemanticMemory (store_now 2) (qualia 2) inferred st1 = (Ok tt, st2)
      ∧ stored_level st1 "qualia" = Some 7
      ∧ stored_level st2 "qualia" = Some 7.
Proof.
  split; [reflexivity|]. split; [simpl; lia|]. split; [simpl; lia|].
  destruct (storeSemanticMemory_max_merge (store_now 1) (store_now 2) (qualia 7) (qualia 2)
              searched inferred no_stores eq_refl)
    as (st1 & st2 & level1 & level2 & E1 & E2 & L1 & L2 & _ & _ & _ & _ & _ & _ & Hnew);
    [simpl; lia | simpl; lia |].
  destruct (Hnew eq_refl) as [-> ->].
  exists st1, st2. split; [exact E1|]. split; [exact E2|].
  split; [exact L1 | exact L2].
Defined.

(** The other way round: a higher level the second time becomes the
    stored level. *)
Example storeSemanticMemory_3_then_7 :
  stored_level
    (storeSemanticMemory (store_now 2) (qualia 7) searched
       (storeSemanticMemory (store_now 1) (qualia 3) searched no_stores).2).2 "qualia"
  = Some 7.
Proof. vm_compute. reflexivity. Qed.

Example storeSemanticMemory_lower_then_higher :
  let st1 := (storeSemanticMemory (store_now 1) (qualia 7) searched no_stores).2 in
  let st2 := (storeSemanticMemory (store_now 2) (qualia 2) searched st1).2 in
  let st3 := (storeSemanticMemory (store_now 3) (qualia 9) searched st2).2 in
  (stored_level st1 "qualia", stored_level st2 "qualia", stored_level st3 "qualia")
  = (Some 7, Some 7, Some 9).
Proof. vm_compute. reflexivity. Qed.

(** A level outside 1..10 violates the table's constraint: the call
    throws and the table is as it was. *)
Example storeSemanticMemory_level_11 :
  let st1 := (storeSemanticMemory (store_now 1) (qualia 7) searched no_stores).2 in
  (storeSemanticMemory (store_now 2) (qualia 11) searched st1).1
    = Throw "violates check constraint"
  ∧ stored_level (storeSemanticMemory (store_now 2) (qualia 11) searched st1).2 "qualia"
    = Some 7.
Proof. vm_compute. split; reflexivity. Qed.

(** ** [retrieveRelevantMemories] *)

(** Newest first. *)
Definition newer_first (a b : MemoryRow) : Prop := mr_timestamp b ≤ mr_timestamp a.

(** The rows the fallback query selects from. *)
Definition matching (memoryTypes : list string) (query : string) (row : MemoryRow)
  : bool :=
  bool_decide (mr_type row ∈ memoryTypes)
  && Like.ilike (mr_content row) ("%" ++ query ++ "%").

Lemma sort_insert_elem {A} (before : A → A → bool) x y l :
  y ∈ sort_insert before x l ↔ y = x ∨ y ∈ l.
Proof.
  induction l as [|z l IHl]; simpl.
  - rewrite list_elem_of_singleton, elem_of_nil. tauto.
  - destruct (before z x); rewrite !elem_of_cons; [rewrite IHl|]; tauto.
Qed.

Lemma stable_sort_elem {A} (before : A → A → bool) y l :
  y ∈ stable_sort before l ↔ y ∈ l.
Proof.
  induction l as [|x l IHl]; simpl; [done|].
  rewrite sort_insert_elem, elem_of_cons, IHl. tauto.
Qed.

Lemma sort_insert_newer_first x l :
  StronglySorted newer_first l →
  StronglySorted newer_first
    (sort_insert (fun a b => mr_timestamp b <? mr_timestamp a) x l).
Proof.
  induction 1 as [|y l Hs IH Hall]; simpl.
  - repeat constructor.
  - destruct (mr_timestamp x <? mr_timestamp y) eqn:E.
    + constructor; [exact IH|].
      apply Forall_forall. intros z Hz. apply sort_insert_elem in Hz as [->|Hz].
      * unfold newer_first. lia.
      * by eapply Forall_forall in Hall.
    + constructor; [by constructor|].
      constructor; [unfold newer_first; lia|].
      eapply Forall_impl; [exact Hall|]. unfold newer_first. intros z Hz. lia.
Qed.

Lemma stable_sort_newer_first l :
  StronglySorted newer_first
    (stable_sort (fun a b => mr_timestamp b <? mr_timestamp a) l).
Proof.
  induction l as [|x l IH]; simpl; [constructor|].
  by apply sort_insert_newer_first.
Qed.

Lemma StronglySorted_take {A} (R : A → A → Prop) n l :
  StronglySorted R l → StronglySorted R (take n l).
Proof.
  intros H. revert n. induction H as [|x l Hs IH Hall]; intros [|n]; simpl;
    try constructor; [apply IH|].
  apply Forall_forall. intros y Hy. eapply Forall_forall in Hall; [exact Hall|].
  by eapply subseteq_take.
Qed.

(** What the fallback query answers: rows of the table that match,
    newest first, at most [limit] of them. *)
Lemma fallback_rows_spec memoryTypes query limit table rows :
  fallback_rows memoryTypes query limit table = Some rows →
  0 ≤ limit
  ∧ Forall (λ row, row ∈ table ∧ matching memoryTypes query row = true) rows
  ∧ StronglySorted newer_first rows
  ∧ Z.of_nat (List.length rows) ≤ limit.
Proof.
  unfold fallback_rows. destruct (limit <? 0) eqn:E; [done|]. intros [= <-].
  split; [lia|]. split; [|split].
  - apply Forall_forall. intros row Hrow.
    apply subseteq_take in Hrow. apply stable_sort_elem in Hrow.
    apply list_elem_of_In, filter_In in Hrow as [Hin Hm].
    split; [by apply list_elem_of_In | exact Hm].
  - apply StronglySorted_take, stable_sort_newer_first.
  - rewrite length_take. lia.
Qed.

Lemma fallback_rows_none_match memoryTypes query limit table rows :
  Forall (λ row, matching memoryTypes query row = false) table →
  fallback_rows memoryTypes query limit table = Some rows → rows = [].
Proof.
  intros Hnone. unfold fallback_rows. destruct (limit <? 0); [done|]. intros [= <-].
  assert (List.filter (matching memoryTypes query) table = []) as E.
  { clear -Hnone. induction Hnone as [|r t Hr _ IH]; simpl; [done|]. by rewrite Hr. }
  unfold matching in E. rewrite E. simpl. by rewrite take_nil.
Qed.

Lemma search_type_nothing inp limit n type :
  ri_search inp type (ceil_div limit n) = SearchReturns [] →
  search_type inp limit n type = [].
Proof. intros H. unfold search_type. rewrite H. by destruct (bool_decide _). Qed.

Lemma retrieve_without_candidates inp query context memoryTypes limit st vector :
  ri_embedding inp = EmbeddingReturns vector → vector ≠ [] →
  List.concat (List.map (search_type inp limit (Z.of_nat (List.length memoryTypes)))
                        memoryTypes) = [] →
  retrieveRelevantMemories inp query context memoryTypes limit st
  = Ok match ri_sql inp, fallback_rows memoryTypes query limit (memories st) with
       | Succeeds, Some rows => List.map memory_of_row rows
       | _, _ => []
       end.
Proof.
  intros He Hv Hnone. unfold retrieveRelevantMemories. rewrite He.
  destruct vector as [|x vector]; [done|]. simpl List.length. cbn [Nat.eqb].
  rewrite Hnone. simpl stable_sort.
  assert (Hslice : slice_to limit ([] : list Memory) = []).
  { unfold slice_to. destruct (limit <? 0); by rewrite take_nil. }
  rewrite Hslice. simpl.
  destruct (ri_sql inp); [|done]. by destruct (fallback_rows _ _ _ _).
Qed.

(** *** The fallback match as a substring match *)

(** No character of [s] is special in a LIKE pattern. *)
Fixpoint plain (s : string) : bool :=
  match s with
  | EmptyString => true
  | String c s' =>
      negb (Like.is_char 37 c) && negb (Like.is_char 95 c) && negb (Like.is_char 92 c)
      && plain s'
  end.

Lemma matches_any s : Like.matches "%" s = true.
Proof.
  induction s as [|c s IHs]; [reflexivity|].
  simpl in *. exact IHs.
Qed.

Lemma matches_plain_head q s :
  plain q = true → Like.matches (q ++ "%") s = Js.starts_with q s.
Proof.
  revert s. induction q as [|c q IHq]; intros s Hq.
  - apply matches_any.
  - simpl in Hq. apply andb_prop in Hq as [Hc Hq].
    apply andb_prop in Hc as [Hc H92]. apply andb_prop in Hc as [H37 H95].
    apply negb_true_iff in H37, H95, H92.
    simpl. rewrite H37, H95, H92.
    destruct s as [|d s]; [reflexivity|]. by rewrite IHq.
Qed.

Lemma matches_plain_anywhere q s :
  plain q = true → Like.matches ("%" ++ q ++ "%") s = Js.includes s q.
Proof.
  intros Hq. change ("%" ++ q ++ "%") with (String "%" (q ++ "%")).
  induction s as [|d s IHs].
  - simpl. rewrite matches_plain_head by done. by rewrite orb_false_r.
  - simpl in *. rewrite matches_plain_head by done. by rewrite IHs.
Qed.

Lemma plain_lower q : plain q = true → plain (Js.toLowerCase q) = true.
Proof.
  induction q as [|c q IHq]; [done|]. simpl. intros H.
  apply andb_prop in H as [Hc Hq]. rewrite (IHq Hq), andb_true_r.
  revert Hc. unfold Like.is_char, Js.lower.
  destruct (_ || _)%nat eqn:E; [|done].
  intros _.
  assert (97 ≤ nat_of_ascii c + 32 < 256)%nat as Hn.
  { apply orb_prop in E as [E|E].
    - apply andb_prop in E as [E1 E2]. apply Nat.leb_le in E1, E2. lia.
    - apply andb_prop in E as [E _]. apply andb_prop in E as [E1 E2].
      apply Nat.leb_le in E1, E2. lia. }
  rewrite nat_ascii_embedding by lia.
  repeat (apply andb_true_intro; split); apply negb_true_iff, Nat.eqb_neq; lia.
Qed.

Lemma toLowerCase_app a b :
  Js.toLowerCase (a ++ b) = Js.toLowerCase a ++ Js.toLowerCase b.
Proof. induction a as [|c a IHa]; simpl; [done|]. by rewrite IHa. Qed.

(** For a query without [%], [_] and backslash the fallback's ILIKE is
    the substring test on the lower-cased content and query. *)
Lemma ilike_substring content query :
  plain query = true →
  Like.ilike content ("%" ++ query ++ "%")
  = Js.includes (Js.toLowerCase content) (Js.toLowerCase query).
Proof.
  intros Hq. unfold Like.ilike.
  change ("%" ++ query ++ "%") with (String "%" (query ++ "%")).
  cbn [Js.toLowerCase]. rewrite toLowerCase_app.
  apply (matches_plain_anywhere (Js.toLowerCase query)). by apply plain_lower.
Qed.

(** The sort keeps the elements, and [take] and [drop] split a sorted
    list into the newest and the rest. *)
Lemma sort_insert_perm {A} (before : A → A → bool) x l :
  sort_insert before x l ≡ₚ x :: l.
Proof.
  induction l as [|y l IH]; simpl; [done|].
  destruct (before y x); [|done]. rewrite IH. apply Permutation_swap.
Qed.

Lemma stable_sort_perm {A} (before : A → A → bool) l : stable_sort before l ≡ₚ l.
Proof.
  induction l as [|x l IH]; simpl; [done|]. by rewrite sort_insert_perm, IH.
Qed.

Lemma StronglySorted_app_inv {A} (R : A → A → Prop) l1 l2 :
  StronglySorted R (l1 ++ l2) → Forall (λ x, Forall (R x) l2) l1.
Proof.
  induction l1 as [|x l1 IH]; simpl; intros H; [constructor|].
  apply StronglySorted_inv in H as [Hs Hall]. constructor; [|by apply IH].
  apply Forall_app in Hall. by destruct Hall.
Qed.

(** What the fallback query answers, by what is in the table: the
    newest [limit] of the matching rows, newest first. *)
Lemma fallback_rows_newest memoryTypes query limit table :
  0 ≤ limit →
  ∃ rows older,
    fallback_rows memoryTypes query limit table = Some rows
    ∧ List.filter (matching memoryTypes query) table ≡ₚ rows ++ older
    ∧ List.length rows
      = (Z.to_nat limit `min` List.length (List.filter (matching memoryTypes query) table))%nat
    ∧ Forall (λ row, Forall (newer_first row) older) rows
    ∧ StronglySorted newer_first rows.
Proof.
  intros Hl. unfold fallback_rows. assert ((limit <? 0) = false) as -> by lia.
  fold (matching memoryTypes query).
  change (fun row => matching memoryTypes query row) with (matching memoryTypes query).
  set (sorted := stable_sort _ (List.filter (matching memoryTypes query) table)).
  exists (take (Z.to_nat limit) sorted), (drop (Z.to_nat limit) sorted).
  split; [reflexivity|].
  assert (Hperm : sorted ≡ₚ List.filter (matching memoryTypes query) table)
    by apply stable_sort_perm.
  split; [by rewrite take_drop|]. split.
  - rewrite length_take, <- Hperm. lia.
  - split.
    + apply StronglySorted_app_inv. rewrite take_drop. apply stable_sort_newer_first.
    + apply StronglySorted_take, stable_sort_newer_first.
Qed.

(** C3, amended. When the embedding is there and the vector search of
    every requested type returns no match, [retrieveRelevantMemories]
    returns and does not throw, each memory with relevance score 0.5.
    When the relational store answers the fallback query, what is
    returned are the newest [limit] of the rows of [memories] of a
    requested type whose content matches the pattern [%query%] without
    regard to case: all of them when there are at most [limit], newest
    first, no row left out being newer than one returned. When the
    store does not answer, nothing is returned; so too when no row
    matches. For a query without [%], [_] and backslash a row matches
    exactly when its content contains the query, letter case set aside;
    with them the query is a pattern. *)
Theorem retrieval_falls_back (inp : RetrievalInput) (query : string)
    (context : WorkingMemory) (memoryTypes : list string) (limit : Z) (st : Stores)
    (vector : list float) :
  ri_embedding inp = EmbeddingReturns vector → vector ≠ [] →
  (∀ type, type ∈ memoryTypes →
     ri_search inp type (ceil_div limit (Z.of_nat (List.length memoryTypes)))
     = SearchReturns []) →
  ∃ rows,
    retrieveRelevantMemories inp query context memoryTypes limit st
    = Ok (List.map memory_of_row rows)
    ∧ Forall (λ m, mem_relevanceScore m = Some 0.5%float) (List.map memory_of_row rows)
    ∧ Forall (λ row, row ∈ memories st ∧ matching memoryTypes query row = true) rows
    ∧ StronglySorted newer_first rows
    ∧ Z.of_nat (List.length rows) ≤ Z.max 0 limit
    ∧ (ri_sql inp = Succeeds → 0 ≤ limit →
       ∃ older,
         List.filter (matching memoryTypes query) (memories st) ≡ₚ rows ++ older
         ∧ List.length rows
           = (Z.to_nat limit
              `min` List.length (List.filter (matching memoryTypes query) (memories st)))%nat
         ∧ Forall (λ row, Forall (λ left_out, mr_timestamp left_out ≤ mr_timestamp row)
                            older) rows)
    ∧ ((∃ msg, ri_sql inp = Fails msg) → rows = [])
    ∧ (Forall (λ row, matching memoryTypes query row = false) (memories st) → rows = [])
    ∧ (plain query = true →
       ∀ row, matching memoryTypes query row = true
              ↔ mr_type row ∈ memoryTypes
                ∧ Js.includes (Js.toLowerCase (mr_content row)) (Js.toLowerCase query)
                  = true).
Proof.
  intros He Hv Hzero.
  assert (Hnone : List.concat
            (List.map (search_type inp limit (Z.of_nat (List.length memoryTypes)))
                      memoryTypes) = []).
  { assert (∀ types, (∀ type, type ∈ types →
                ri_search inp type (ceil_div limit (Z.of_nat (List.length memoryTypes)))
                = SearchReturns []) →
              List.concat (List.map
                (search_type inp limit (Z.of_nat (List.length memoryTypes))) types) = [])
      as Hall.
    { induction types as [|t types IHt]; intros Ht; simpl; [done|].
      rewrite search_type_nothing by (apply Ht; left).
      apply IHt. intros type Hin. apply Ht. by right. }
    by apply Hall. }
  rewrite (retrieve_without_candidates inp query context memoryTypes limit st vector
             He Hv Hnone).
  assert (Hplain : plain query = true →
            ∀ row, matching memoryTypes query row = true
                   ↔ mr_type row ∈ memoryTypes
                     ∧ Js.includes (Js.toLowerCase (mr_content row))
                                   (Js.toLowerCase query) = true).
  { intros Hq row. unfold matching.
    by rewrite andb_true_iff, bool_decide_eq_true, ilike_substring. }
  destruct (fallback_rows memoryTypes query limit (memories st)) as [rows|] eqn:Ef.
  - destruct (fallback_rows_spec _ _ _ _ _ Ef) as (Hl & Hm & Hs & Hlen).
    destruct (ri_sql inp) eqn:Esql.
    + exists rows. split; [done|]. split.
      { apply Forall_forall. intros m Hm'. apply list_elem_of_In, in_map_iff in Hm'.
        by destruct Hm' as (row & <- & _). }
      split; [done|]. split; [done|]. split; [lia|]. split.
      { intros _ _.
        destruct (fallback_rows_newest memoryTypes query limit (memories st) Hl)
          as (rows' & older & Ef' & Hperm & Hcount & Hnewer & _).
        rewrite Ef in Ef'. injection Ef' as <-. by exists older. }
      split; [by intros [msg ?]|]. split; [|done].
      intros Hno. by eapply fallback_rows_none_match.
    + exists []. split; [done|]. split; [constructor|]. split; [constructor|].
      split; [apply SSorted_nil|]. split; [simpl; lia|]. split; [intros [=]|].
      split; [done|]. split; [done|]. exact Hplain.
  - exists []. assert (limit < 0) as Hneg.
    { unfold fallback_rows in Ef. destruct (limit <? 0) eqn:E; [lia|done]. }
    split; [by destruct (ri_sql inp)|]. split; [constructor|]. split; [constructor|].
    split; [apply SSorted_nil|]. split; [simpl; lia|]. split; [intros; lia|].
    split; [done|]. split; [done|]. exact Hplain.
Qed.

Definition memories_table : list MemoryRow :=
  [ mkMemoryRow "m1" "episodic" "awareness persists" 10 None None;
    mkMemoryRow "m2" "semantic" "Aware minds" 30 (Some ["mind"]) None;
    mkMemoryRow "m3" "episodic" "nothing of note" 40 None None;
    mkMemoryRow "m4" "working" "aware" 50 None None;
    mkMemoryRow "m5" "episodic" "AWARE" 20 None None ].

(** The embedding is there, every search comes back empty. *)
Definition nothing_similar : RetrievalInput :=
  {| ri_now := 100; ri_embedding := EmbeddingReturns [0.25%float];
     ri_search := fun _ _ => SearchReturns []; ri_sql := Succeeds |}.

Definition some_context : WorkingMemory := mkWorkingMemory [] "awareness" [] [] [] [].

(** C3, as stated, fails: the fallback is a pattern match, not a
    substring match. The query a_b brings back the row whose content is
    aXb, which does not contain it; and with a backslash in it the query
    misses the row whose content is the query itself. *)
Lemma fallback_is_a_pattern_match :
  (∃ found,
     retrieveRelevantMemories nothing_similar "a_b" some_context ["episodic"] 10
       (mkStores ∅ [mkMemoryRow "m1" "episodic" "aXb" 10 None None] ∅)
     = Ok found
     ∧ List.map mem_content found = ["aXb"]
     ∧ Js.includes "aXb" "a_b" = false)
  ∧ retrieveRelevantMemories nothing_similar "a\b" some_context ["episodic"] 10
      (mkStores ∅ [mkMemoryRow "m1" "episodic" "a\b" 10 None None] ∅)
    = Ok []
  ∧ Js.includes "a\b" "a\b" = true.
Proof. split; [eexists; vm_compute; repeat split|]. split; reflexivity. Qed.

Lemma retrieval_falls_back_witness :
  ri_embedding nothing_similar = EmbeddingReturns [0.25%float]
  ∧ [0.25%float] ≠ []
  ∧ (∀ type, type ∈ ["episodic"; "semantic"; "procedural"] →
       ri_search nothing_similar type (ceil_div 2 3) = SearchReturns [])
  ∧ ∃ rows,
      retrieveRelevantMemories nothing_similar "aware" some_context
        ["episodic"; "semantic"; "procedural"] 2 (mkStores ∅ memories_table ∅)
      = Ok (List.map memory_of_row rows)
      ∧ StronglySorted newer_first rows
      ∧ List.length rows = 2%nat.
Proof.
  split; [reflexivity|]. split; [discriminate|]. split; [reflexivity|].
  destruct (retrieval_falls_back nothing_similar "aware" some_context
              ["episodic"; "semantic"; "procedural"] 2 (mkStores ∅ memories_table ∅)
              [0.25%float] eq_refl) as (rows & E & _ & _ & Hs & _ & Hnewest & _);
    [discriminate | reflexivity | ].
  destruct (Hnewest eq_refl) as (older & _ & Hcount & _); [lia|].
  exists rows. split; [exact E|]. split; [exact Hs|]. exact Hcount.
Defined.

Example retrieval_fallback_rows :
  List.map mem_id <$>
    (match retrieveRelevantMemories nothing_similar "aware" some_context
             ["episodic"; "semantic"; "procedural"] 2 (mkStores ∅ memories_table ∅) with
     | Ok l => Some l | Throw _ => None end)
  = Some ["m2"; "m5"].
Proof. vm_compute. reflexivity. Qed.

(** When the embedding call itself throws, no search is run and
    [retrieveRelevantMemories] throws, the call standing outside every
    [try]; an empty embedding returns nothing without the fallback. *)
Example retrieval_embedding_throws :
  retrieveRelevantMemories
    (mkRetrievalInput 100 (EmbeddingThrows "429") (fun _ _ => SearchReturns []) Succeeds)
    "aware" some_context ["episodic"] 2 (mkStores ∅ memories_table ∅)
  = Throw "429"
  ∧ retrieveRelevantMemories
      (mkRetrievalInput 100 (EmbeddingReturns []) (fun _ _ => SearchReturns []) Succeeds)
      "aware" some_context ["episodic"] 2 (mkStores ∅ memories_table ∅)
    = Ok [].
Proof. split; reflexivity. Qed.

(** * Further properties *)

(** ** Windows: [arr.slice(-n)] *)

Lemma slice_last_length {A} (n : nat) (l : list A) :
  List.length (Js.slice_last n l) = (List.length l `min` n)%nat.
Proof. unfold Js.slice_last. rewrite length_drop. lia. Qed.

Lemma slice_last_suffix {A} (n : nat) (l : list A) : Js.slice_last n l `suffix_of` l.
Proof. apply suffix_drop. Qed.

Lemma slice_last_all {A} (n : nat) (l : list A) :
  (List.length l ≤ n)%nat → Js.slice_last n l = l.
Proof.
  intros H. unfold Js.slice_last.
  by replace (List.length l - n)%nat with 0%nat by lia.
Qed.

Lemma slice_last_last {A} (n : nat) (l : list A) :
  (0 < n)%nat → last (Js.slice_last n l) = last l.
Proof.
  intros Hn. unfold Js.slice_last. rewrite !last_lookup, length_drop, lookup_drop.
  destruct (decide (List.length l = 0)%nat) as [E|E].
  - apply length_zero_iff_nil in E. by subst l.
  - f_equal. lia.
Qed.

(** The window of the last [n] after a push, written as the code does. *)
Lemma window_slice {A} (n : nat) (l : list A) :
  (if (n <? List.length l)%nat then Js.slice_last n l else l) = Js.slice_last n l.
Proof.
  destruct (n <? List.length l)%nat eqn:E; [done|].
  apply Nat.ltb_ge in E. by rewrite slice_last_all.
Qed.

(** X1. [emitEvent] always returns; afterwards the history holds at most
    100 events, the event just emitted is its last, and it is what is
    left of the old history followed by the event once the oldest are
    dropped: nothing is reordered, and nothing is dropped while fewer
    than 100 events are held. *)
Theorem emitEvent_keeps_last_100 (ev : FrameworkEvent) (w : World) :
  ∃ w', emitEvent ev w = (Ok tt, w')
        ∧ (List.length (orch_eventHistory w') ≤ 100)%nat
        ∧ last (orch_eventHistory w') = Some ev
        ∧ orch_eventHistory w' `suffix_of` (orch_eventHistory w ++ [ev])%list
        ∧ ((List.length (orch_eventHistory w) < 100)%nat →
           orch_eventHistory w' = (orch_eventHistory w ++ [ev])%list)
        ∧ heap w' = heap w ∧ console w' = console w ∧ db w' = db w.
Proof.
  eexists. split; [apply emitEvent_emitted|].
  cbn [orch_eventHistory set_eventHistory heap console db]. unfold emitted.
  rewrite window_slice. repeat split.
  - rewrite slice_last_length. lia.
  - rewrite slice_last_last by lia. apply last_snoc.
  - apply slice_last_suffix.
  - intros H. apply slice_last_all. rewrite length_app. simpl. lia.
Qed.

(** ** [updateStateFromResponse], in full

    [holds o s c a q h]: the orchestrator's state object is [s] at [o],
    its working memory is [c], its insight log [a], its question thread
    [q], and the event history is [h]. *)
Definition holds (o : loc) (s : DialogueState) (c : WorkingMemory) (a : list Insight)
    (q : QuestionThread) (h : list FrameworkEvent) (w : World) : Prop :=
  orch_currentState w = o ∧ state_at w o = Some s
  ∧ contexts (heap w) !! context s = Some c
  ∧ arrays (heap w) !! insights s = Some a
  ∧ threads (heap w) !! questionThread s = Some q
  ∧ orch_eventHistory w = h.

(** A field assignment that leaves the three references. *)
Definition keeps_refs (f : DialogueState → DialogueState) : Prop :=
  ∀ s, context (f s) = context s ∧ insights (f s) = insights s
       ∧ questionThread (f s) = questionThread s.

Lemma lookup_insert_Some_eq {A} (l : list A) i x y :
  l !! i = Some y → <[i := x]> l !! i = Some x.
Proof. intros H. apply list_lookup_insert_eq. by eapply lookup_lt_Some. Qed.

Section Holds.
Context (o : loc) (s : DialogueState) (c : WorkingMemory) (a : list Insight)
  (q : QuestionThread) (h : list FrameworkEvent).

Lemma holds_this_currentState :
  Hoare (holds o s c a q h) this_currentState (λ l w, l = o ∧ holds o s c a q h w).
Proof. intros w H. exists o, w. split; [|done]. destruct H as [<- _]. reflexivity. Qed.

Lemma holds_read_state :
  Hoare (holds o s c a q h) (read_state o) (λ s' w, s' = s ∧ holds o s c a q h w).
Proof.
  intros w Hw. exists s, w. split; [|done].
  destruct Hw as (_ & Hs & _). by apply read_state_Some.
Qed.

Lemma holds_read_context :
  Hoare (holds o s c a q h) (read_context (context s))
        (λ c' w, c' = c ∧ holds o s c a q h w).
Proof.
  intros w Hw. pose proof Hw as (_ & _ & Hc & _).
  exists c, w. split; [|done]. unfold read_context, deref. by rewrite Hc.
Qed.

Lemma holds_read_array :
  Hoare (holds o s c a q h) (read_array (insights s))
        (λ a' w, a' = a ∧ holds o s c a q h w).
Proof.
  intros w Hw. pose proof Hw as (_ & _ & _ & Ha & _).
  exists a, w. split; [|done]. unfold read_array, deref. by rewrite Ha.
Qed.

Lemma holds_read_thread :
  Hoare (holds o s c a q h) (read_thread (questionThread s))
        (λ q' w, q' = q ∧ holds o s c a q h w).
Proof.
  intros w Hw. pose proof Hw as (_ & _ & _ & _ & Hq & _).
  exists q, w. split; [|done]. unfold read_thread, deref. by rewrite Hq.
Qed.

Lemma holds_write_context c' :
  Hoare (holds o s c a q h) (write_context (context s) c') (λ _, holds o s c' a q h).
Proof.
  apply Hoare_modify. intros w (Ho & Hs & Hc & Ha & Hq & Hh).
  repeat split; try done. simpl. by eapply lookup_insert_Some_eq.
Qed.

Lemma holds_write_array a' :
  Hoare (holds o s c a q h) (write_array (insights s) a') (λ _, holds o s c a' q h).
Proof.
  apply Hoare_modify. intros w (Ho & Hs & Hc & Ha & Hq & Hh).
  repeat split; try done. simpl. by eapply lookup_insert_Some_eq.
Qed.

Lemma holds_write_thread q' :
  Hoare (holds o s c a q h) (write_thread (questionThread s) q')
        (λ _, holds o s c a q' h).
Proof.
  apply Hoare_modify. intros w (Ho & Hs & Hc & Ha & Hq & Hh).
  repeat split; try done. simpl. by eapply lookup_insert_Some_eq.
Qed.

Lemma holds_emitEvent ev :
  Hoare (holds o s c a q h) (emitEvent ev) (λ _, holds o s c a q (emitted ev h)).
Proof.
  apply Hoare_modify. intros w (Ho & Hs & Hc & Ha & Hq & Hh).
  repeat split; try done. simpl. by rewrite Hh.
Qed.

Lemma holds_assign_state f :
  keeps_refs f →
  Hoare (holds o s c a q h) (assign_state o f) (λ _, holds o (f s) c a q h).
Proof.
  intros Hf w (Ho & Hs & Hc & Ha & Hq & Hh). eexists tt, _. split.
  - by apply assign_state_Some.
  - destruct (Hf s) as (Ec & Ea & Eq). unfold holds. rewrite Ec, Ea, Eq.
    split; [done|]. split; [|done].
    apply state_at_put_eq. by rewrite Hs.
Qed.

Lemma holds_log line : Keeps (holds o s c a q h) (log line).
Proof. apply Keeps_modify. by intros w H. Qed.

End Holds.


(** The events a loop of [emitEvent] leaves. *)
Definition emitted_all (evs : list FrameworkEvent) (h : list FrameworkEvent)
  : list FrameworkEvent :=
  foldl (λ h ev, emitted ev h) h evs.

Lemma holds_for_each_emit {A} o s c a q (l : list A) (mk : A → FrameworkEvent) h :
  Hoare (holds o s c a q h) (for_each l (λ x, emitEvent (mk x)))
        (λ _, holds o s c a q (emitted_all (List.map mk l) h)).
Proof.
  revert h. induction l as [|x l IH]; intros h; simpl.
  - intros w Hw. by exists tt, w.
  - eapply Hoare_bind; [apply holds_emitEvent|]. intros ?. apply IH.
Qed.

(** What [updateDialoguePhase] sets the phase to. *)
Definition phase_after (r : AgentResponse) (p : Phase) : Phase :=
  match resp_type r with
  | question => questioning
  | response => responding
  | reflection => reflecting
  | insight => if (0 <? List.length (resp_newInsights r))%nat then synthesizing else p
  end.

Definition phase_events (now : Z) (from to : Phase) : list FrameworkEvent :=
  if bool_decide (from ≠ to)
  then [ {| ev_type := phase_change; ev_timestamp := now;
            ev_data := DataPhase from to; ev_source := "orchestrator" |} ]
  else [].

Lemma with_phase_same s : with_phase (phase s) s = s.
Proof. by destruct s. Qed.

Lemma holds_updateDialoguePhase o s c a q h now r :
  Hoare (holds o s c a q h) (updateDialoguePhase now r)
        (λ _, holds o (with_phase (phase_after r (phase s)) s) c a q
                (emitted_all (phase_events now (phase s) (phase_after r (phase s))) h)).
Proof.
  unfold updateDialoguePhase.
  eapply Hoare_bind; [apply holds_this_currentState|]. intros l.
  apply Hoare_pure. intros ->.
  eapply Hoare_bind; [apply holds_read_state|]. intros s'.
  apply Hoare_pure. intros ->.
  eapply Hoare_bind
    with (Q := λ _, holds o (with_phase (phase_after r (phase s)) s) c a q h).
  { unfold phase_after. destruct (resp_type r); simpl;
      try (by apply holds_assign_state).
    destruct (0 <? _)%nat; [by apply holds_assign_state|].
    rewrite with_phase_same. intros w H. by exists tt, w. }
  intros ?.
  eapply Hoare_bind; [apply holds_read_state|]. intros s'.
  apply Hoare_pure. intros ->. cbn [phase with_phase].
  unfold phase_events, when. destruct (bool_decide _).
  - apply holds_emitEvent.
  - intros w H. by exists tt, w.
Qed.

(** The state object, the working memory, the question thread and the
    event history after [updateStateFromResponse]. *)
Definition depth_after (r : AgentResponse) (d : Z) : Z :=
  if bool_decide (resp_type r = question) && (Js.length (resp_content r) >? 100)
  then d + 1 else d.

Definition state_after (r : AgentResponse) (s : DialogueState) : DialogueState :=
  {| id := id s;
     currentAgent := next_agent r (currentAgent s);
     phase := phase_after r (phase s);
     context := context s;
     depth := depth_after r (depth s);
     insights := insights s;
     questionThread := questionThread s |}.

Definition context_after (exchange : DialogueExchange) (c : WorkingMemory)
  : WorkingMemory :=
  with_recentExchanges (Js.slice_last 10 (recentExchanges c ++ [exchange])%list) c.

Definition thread_after (r : AgentResponse) (d : Z) (q : QuestionThread)
  : QuestionThread :=
  if bool_decide (resp_type r = question)
  then mkQuestionThread (rootQuestion q) (subQuestions q ++ [resp_content r])%list
         (exploredAspects q) (unexploredAspects q) (Z.max (qt_depth q) (d + 1))
  else q.

Definition insight_events (now : Z) (agent : Agent) (new : list Insight)
  : list FrameworkEvent :=
  List.map (λ i, {| ev_type := insight_generated; ev_timestamp := now;
                    ev_data := DataInsight i; ev_source := agent_name agent |}) new.

Definition events_after (now : Z) (exchange : DialogueExchange) (r : AgentResponse)
    (p : Phase) (h : list FrameworkEvent) : list FrameworkEvent :=
  emitted_all (insight_events now (ex_agent exchange) (resp_newInsights r)
               ++ phase_events now p (phase_after r p))%list h.

Lemma updateStateFromResponse_holds now exchange r o s c a q h :
  Hoare (holds o s c a q h) (updateStateFromResponse now exchange r)
        (λ _, holds o (state_after r s) (context_after exchange c)
                (a ++ resp_newInsights r)%list (thread_after r (depth s) q)
                (events_after now exchange r (phase s) h)).
Proof.
  unfold updateStateFromResponse.
  eapply Hoare_bind; [apply holds_this_currentState|]. intros l.
  apply Hoare_pure. intros ->.
  eapply Hoare_bind; [apply holds_read_state|]. intros s'.
  apply Hoare_pure. intros ->.
  eapply Hoare_bind; [apply holds_read_context|]. intros c'.
  apply Hoare_pure. intros ->.
  rewrite window_slice.
  eapply Hoare_bind; [apply holds_write_context|]. intros ?.
  fold (context_after exchange c).
  set (h1 := emitted_all
               (insight_events now (ex_agent exchange) (resp_newInsights r)) h).
  eapply Hoare_bind
    with (Q := λ _, holds o s (context_after exchange c)
                      (a ++ resp_newInsights r)%list q h1).
  { subst h1. unfold when. destruct (resp_newInsights r) as [|i rest] eqn:E.
    - simpl. rewrite app_nil_r. intros w H. by exists tt, w.
    - cbn [List.length Nat.ltb Nat.leb].
      eapply Hoare_bind; [apply holds_read_array|]. intros a'.
      apply Hoare_pure. intros ->.
      eapply Hoare_bind; [apply holds_write_array|]. intros ?.
      apply (holds_for_each_emit o s _ _ q (i :: rest)). }
  intros ?.
  eapply Hoare_bind
    with (Q := λ _, holds o s (context_after exchange c)
                      (a ++ resp_newInsights r)%list (thread_after r (depth s) q) h1).
  { unfold thread_after, when. destruct (bool_decide (resp_type r = question)).
    - eapply Hoare_bind; [apply holds_read_thread|]. intros q'.
      apply Hoare_pure. intros ->. apply holds_write_thread.
    - intros w H. by exists tt, w. }
  intros ?.
  eapply Hoare_bind
    with (Q := λ _, holds o (with_currentAgent (next_agent r (currentAgent s)) s)
                      (context_after exchange c) (a ++ resp_newInsights r)%list
                      (thread_after r (depth s) q) h1).
  { unfold next_agent. destruct (resp_suggestedNextAgent r).
    - by apply holds_assign_state.
    - by apply holds_assign_state.
    - eapply Hoare_weaken; [by apply holds_assign_state | done |].
      intros ? w. simpl. by destruct (currentAgent s). }
  intros ?.
  eapply Hoare_bind; [apply holds_updateDialoguePhase|]. intros ?.
  cbn [phase with_currentAgent].
  eapply Hoare_weaken
    with (Q' := λ _, holds o (state_after r s) (context_after exchange c)
                       (a ++ resp_newInsights r)%list (thread_after r (depth s) q)
                       (events_after now exchange r (phase s) h)).
  2: { intros w H. exact H. }
  2: { intros ? w H. exact H. }
  unfold events_after, emitted_all. rewrite foldl_app. fold (emitted_all).
  unfold when, state_after, depth_after.
  destruct (bool_decide (resp_type r = question) && _).
  - eapply Hoare_weaken; [by apply holds_assign_state | done |].
    intros ? w H. exact H.
  - intros w H. exists tt, w. split; [done|].
    by destruct s.
Qed.

Lemma holds_view o s c a q h w :
  holds o s c a q h w →
  orchestrator_state w = Some s ∧ orchestrator_context w = Some c
  ∧ orchestrator_insights w = Some a ∧ orchestrator_thread w = Some q
  ∧ orch_eventHistory w = h.
Proof.
  intros (Ho & Hs & Hc & Ha & Hq & Hh).
  unfold orchestrator_context, orchestrator_insights, orchestrator_thread,
    orchestrator_state. rewrite Ho, Hs. simpl. by rewrite Hc, Ha, Hq.
Qed.

Lemma well_formed_holds w :
  well_formed w →
  ∃ s c a q, holds (orch_currentState w) s c a q (orch_eventHistory w) w.
Proof.
  intros (Hc & Hq & Ha).
  unfold orchestrator_context, orchestrator_thread, orchestrator_insights in *.
  destruct (orchestrator_state w) as [s|] eqn:Hs; simpl in *; [|by destruct Hc].
  destruct Hc as [c Hc], Hq as [q Hq], Ha as [a Ha].
  exists s, c, a, q. by repeat split.
Qed.

(** The effect of [updateStateFromResponse] on a well-formed world. *)
Lemma updateStateFromResponse_spec now exchange r w :
  well_formed w →
  ∃ s c a q w',
    internal_state w = (Some s, Some c, Some q, Some a)
    ∧ updateStateFromResponse now exchange r w = (Ok tt, w')
    ∧ orch_currentState w' = orch_currentState w
    ∧ internal_state w'
      = (Some (state_after r s), Some (context_after exchange c),
         Some (thread_after r (depth s) q), Some (a ++ resp_newInsights r)%list)
    ∧ orch_eventHistory w'
      = events_after now exchange r (phase s) (orch_eventHistory w).
Proof.
  intros Hwf. destruct (well_formed_holds w Hwf) as (s & c & a & q & H).
  destruct (updateStateFromResponse_holds now exchange r _ _ _ _ _ _ w H)
    as ([] & w' & E & H').
  apply holds_view in H as (Hs & Hc & Ha & Hq & _).
  pose proof H' as (Ho' & _).
  apply holds_view in H' as (Hs' & Hc' & Ha' & Hq' & Hh').
  exists s, c, a, q, w'. unfold internal_state.
  by rewrite Hs, Hc, Ha, Hq, Hs', Hc', Ha', Hq'.
Qed.

(** X2. The working memory keeps a window of the last ten exchanges:
    after the state update its recent exchanges are the last ten of the
    old ones followed by the new exchange, so never more than ten, the
    new exchange last; topic, focus areas, assumptions, contradictions
    and open questions are as they were. *)
Theorem recentExchanges_keeps_last_10 (now : Z) (exchange : DialogueExchange)
    (r : AgentResponse) (w : World) :
  well_formed w →
  ∃ c c' w',
    orchestrator_context w = Some c
    ∧ updateStateFromResponse now exchange r w = (Ok tt, w')
    ∧ orchestrator_context w' = Some c'
    ∧ recentExchanges c' = Js.slice_last 10 (recentExchanges c ++ [exchange])%list
    ∧ (List.length (recentExchanges c') ≤ 10)%nat
    ∧ last (recentExchanges c') = Some exchange
    ∧ recentExchanges c' `suffix_of` (recentExchanges c ++ [exchange])%list
    ∧ with_recentExchanges (recentExchanges c) c' = c.
Proof.
  intros Hwf.
  destruct (updateStateFromResponse_spec now exchange r w Hwf)
    as (s & c & a & q & w' & Hbefore & E & _ & Hafter & _).
  unfold internal_state in *. simplify_eq.
  exists c, (context_after exchange c), w'. repeat split; try done.
  - simpl. rewrite slice_last_length. lia.
  - simpl. rewrite slice_last_last by lia. apply last_snoc.
  - apply slice_last_suffix.
  - by destruct c.
Qed.

(** X3. The insight log only grows: after the state update it is the
    old log followed by the response's new insights, in their order,
    with no cap; and the event history receives one insight_generated
    event per new insight, in that order and in the name of the
    exchange's agent, followed by the phase_change event if the phase
    changed. *)
Theorem insights_are_appended (now : Z) (exchange : DialogueExchange)
    (r : AgentResponse) (w : World) :
  well_formed w →
  ∃ a p w',
    orchestrator_insights w = Some a
    ∧ phase <$> orchestrator_state w = Some p
    ∧ updateStateFromResponse now exchange r w = (Ok tt, w')
    ∧ orchestrator_insights w' = Some (a ++ resp_newInsights r)%list
    ∧ orch_eventHistory w'
      = emitted_all
          (List.map (λ i, {| ev_type := insight_generated; ev_timestamp := now;
                             ev_data := DataInsight i;
                             ev_source := agent_name (ex_agent exchange) |})
                    (resp_newInsights r)
           ++ (if bool_decide (p ≠ phase_after r p)
               then [ {| ev_type := phase_change; ev_timestamp := now;
                         ev_data := DataPhase p (phase_after r p);
                         ev_source := "orchestrator" |} ]
               else []))%list
          (orch_eventHistory w).
Proof.
  intros Hwf.
  destruct (updateStateFromResponse_spec now exchange r w Hwf)
    as (s & c & a & q & w' & Hbefore & E & _ & Hafter & Hev).
  unfold internal_state in *. simplify_eq.
  exists a, (phase s), w'. repeat split; try done.
  by match goal with H : orchestrator_state w = _ |- _ => rewrite H end.
Qed.

(** X4. The question thread records questions only. After a response
    of type question the response's content is the last sub-question
    and the thread's depth is the larger of its old depth and the
    state's depth plus one; after any other response the thread is as
    it was. The root question and the explored and unexplored aspects
    never change, and the thread's depth never decreases. *)
Theorem questionThread_records_questions (now : Z) (exchange : DialogueExchange)
    (r : AgentResponse) (w : World) :
  well_formed w →
  ∃ d q q' w',
    orchestrator_depth w = Some d
    ∧ orchestrator_thread w = Some q
    ∧ updateStateFromResponse now exchange r w = (Ok tt, w')
    ∧ orchestrator_thread w' = Some q'
    ∧ (resp_type r = question →
       subQuestions q' = (subQuestions q ++ [resp_content r])%list
       ∧ qt_depth q' = Z.max (qt_depth q) (d + 1))
    ∧ (resp_type r ≠ question → q' = q)
    ∧ rootQuestion q' = rootQuestion q
    ∧ exploredAspects q' = exploredAspects q
    ∧ unexploredAspects q' = unexploredAspects q
    ∧ qt_depth q ≤ qt_depth q'.
Proof.
  intros Hwf.
  destruct (updateStateFromResponse_spec now exchange r w Hwf)
    as (s & c & a & q & w' & Hbefore & E & _ & Hafter & _).
  unfold internal_state in *. simplify_eq.
  exists (depth s), q, (thread_after r (depth s) q), w'.
  split. { unfold orchestrator_depth.
           by match goal with H : orchestrator_state w = _ |- _ => rewrite H end. }
  do 3 (split; [done|]).
  unfold thread_after. case_bool_decide as Hq; simpl.
  - repeat split; try done; lia.
  - repeat split; try done; lia.
Qed.

(** X5. The depth of the inquiry rises by exactly one when the response
    is a question whose (trimmed) content is longer than 100 code units,
    and is unchanged otherwise; the state update never lowers it. The
    state object keeps its id and its references to the working memory,
    the insight log and the question thread. *)
Theorem depth_rises_on_long_questions (now : Z) (exchange : DialogueExchange)
    (r : AgentResponse) (w : World) :
  well_formed w →
  ∃ s s' w',
    orchestrator_state w = Some s
    ∧ updateStateFromResponse now exchange r w = (Ok tt, w')
    ∧ orchestrator_state w' = Some s'
    ∧ depth s' = (if bool_decide (resp_type r = question)
                     && (100 <? Js.length (resp_content r))
                  then depth s + 1 else depth s)
    ∧ depth s ≤ depth s' ≤ depth s + 1
    ∧ id s' = id s ∧ context s' = context s ∧ insights s' = insights s
    ∧ questionThread s' = questionThread s.
Proof.
  intros Hwf.
  destruct (updateStateFromResponse_spec now exchange r w Hwf)
    as (s & c & a & q & w' & Hbefore & E & _ & Hafter & _).
  unfold internal_state in *. simplify_eq.
  exists s, (state_after r s), w'. do 3 (split; [done|]).
  cbn [state_after depth id context insights questionThread]. unfold depth_after.
  rewrite Z.gtb_ltb. split; [done|].
  split; [|done]. destruct (_ && _); lia.
Qed.

(** ** One turn, in full *)

Lemma holds_runToolCalls o s c a q h now agent calls acc :
  Keeps (holds o s c a q h) (runToolCalls now agent calls acc).
Proof.
  revert acc. induction calls as [|call calls IH]; intros [[tu mr] td]; simpl.
  - apply Keeps_ret.
  - repeat first [ keeps_step | apply holds_log | apply IH ].
Qed.

Lemma holds_executeAgent o s c a q h inp agent :
  Keeps (holds o s c a q h) (executeAgent inp agent).
Proof.
  unfold executeAgent, buildContextForAgent, processAgentResponse.
  repeat first [ keeps_step | apply holds_log | apply holds_runToolCalls ].
Qed.

(** What lies outside the orchestrator: the controller's fields, the
    console and the tables. *)
Definition outside (w : World) : string * bool * list LogLine * Database :=
  (runId w, isRunning w, console w, db w).

Lemma outside_updateStateFromResponse x now exchange r :
  Keeps (λ w, outside w = x) (updateStateFromResponse now exchange r).
Proof.
  unfold updateStateFromResponse, updateDialoguePhase, assign_state.
  repeat first [ keeps_step | apply Keeps_modify; by intros ? <- ].
Qed.

(** The exchange a turn of [agent] at depth [d] builds from the
    response. *)
Definition exchange_from (inp : TurnInput) (agent : Agent) (d : Z) (r : AgentResponse)
  : DialogueExchange :=
  {| ex_agent := agent; ex_type := resp_type r; ex_content := resp_content r;
     ex_timestamp := in_now inp; ex_depth := d;
     ex_relatedMemories := resp_memoryReferences r; ex_response := Some r |}.

Definition response_event (inp : TurnInput) (exchange : DialogueExchange)
    (r : AgentResponse) : FrameworkEvent :=
  {| ev_type := agent_response; ev_timestamp := in_now inp;
     ev_data := DataExchange exchange r; ev_source := agent_name (ex_agent exchange) |}.

Definition errored (agent : Agent) (e : string) (w : World) : World :=
  set_console (console w ++ [ErrDialogueStep agent e]) w.

(** [executeDialogueStep] by cases: the agent's call throws; or it
    returns and the state is updated, after which the episodic store
    succeeds or fails. *)
Lemma executeDialogueStep_cases inp o s c a q h w :
  holds o s c a q h w →
  match executeAgent inp (currentAgent s) w with
  | (Throw e, w1) =>
      executeDialogueStep inp w = (Throw e, errored (currentAgent s) e w1)
      ∧ holds o s c a q h w1
  | (Ok r, w1) =>
      let ex := exchange_from inp (currentAgent s) (depth s) r in
      ∃ w2,
        holds o (state_after r s) (context_after ex c) (a ++ resp_newInsights r)%list
          (thread_after r (depth s) q) (events_after (in_now inp) ex r (phase s) h) w2
        ∧ outside w2 = outside w1
        ∧ executeDialogueStep inp w
          = match in_storeEpisodic inp with
            | Succeeds =>
                (Ok ex, set_eventHistory
                          (emitted (response_event inp ex r) (orch_eventHistory w2)) w2)
            | Fails msg => (Throw msg, errored (currentAgent s) msg w2)
            end
  end.
Proof.
  intros H. pose proof H as (Ho & Hs & _).
  pose proof (holds_executeAgent o s c a q h inp (currentAgent s) w H) as H1.
  unfold executeDialogueStep.
  erewrite bind_Ok by apply this_currentState_eq. rewrite Ho.
  erewrite bind_Ok by (apply read_state_Some; exact Hs).
  replace (if bool_decide (currentAgent s = questioner)
           then executeQuestioner inp else executeExplorer inp)
    with (executeAgent inp (currentAgent s)) by (by destruct (currentAgent s)).
  unfold try_catch.
  destruct (executeAgent inp (currentAgent s) w) as [[r|e] w1] eqn:E; simpl in H1.
  - set (ex := exchange_from inp (currentAgent s) (depth s) r).
    pose proof H1 as (Ho1 & Hs1 & _).
    destruct (updateStateFromResponse_holds (in_now inp) ex r _ _ _ _ _ _ w1 H1)
      as ([] & w2 & E2 & H2).
    exists w2. split; [exact H2|].
    pose proof (outside_updateStateFromResponse _ (in_now inp) ex r w1 eq_refl) as Hout.
    rewrite E2 in Hout. simpl in Hout. split; [exact Hout|].
    erewrite bind_Ok by exact E.
    erewrite bind_Ok by apply this_currentState_eq. rewrite Ho1.
    erewrite bind_Ok by (apply read_state_Some; exact Hs1).
    fold ex. erewrite bind_Ok by exact E2.
    destruct (in_storeEpisodic inp) as [|msg]; reflexivity.
  - split; [|exact H1]. erewrite bind_Throw by exact E. reflexivity.
Qed.

(** ** The tool calls of a turn *)

(** The calls whose tool the orchestrator has. *)
Definition known_calls (calls : list ToolCall) : list ToolCall :=
  List.filter (λ call, bool_decide (tc_name call ∈ tools)) calls.

Definition used_by (call : ToolCall) : list string :=
  match tc_run call with ToolReturns _ => [tc_name call] | ToolThrows _ => [] end.

Definition references_by (call : ToolCall) : list string :=
  match tc_run call with ToolReturns r => references_of r | ToolThrows _ => [] end.

Definition detail_of (now : Z) (call : ToolCall) : ToolDetail :=
  mkToolDetail (tc_name call)
    (match tc_run call with ToolReturns _ => None | ToolThrows msg => Some msg end) now.

Definition lines_of (agent : Agent) (call : ToolCall) : list LogLine :=
  LogToolRun agent (tc_name call)
  :: match tc_run call with
     | ToolReturns _ => []
     | ToolThrows msg => [ErrTool agent (tc_name call) msg]
     end.

Definition logged (lines : list LogLine) (w : World) : World :=
  set_console (console w ++ lines) w.

Lemma logged_nil w : logged [] w = w.
Proof. unfold logged. rewrite app_nil_r. by destruct w. Qed.

Definition parses (calls : list ToolCall) : Prop :=
  Forall (λ call, tc_arguments_parse call = true) calls.

Lemma runToolCalls_ok now agent calls :
  parses calls →
  ∀ tu mr td w,
    runToolCalls now agent calls (tu, mr, td) w
    = (Ok ((tu ++ List.concat (List.map used_by (known_calls calls)))%list,
           (mr ++ List.concat (List.map references_by (known_calls calls)))%list,
           (td ++ List.map (detail_of now) (known_calls calls))%list),
       logged (List.concat (List.map (lines_of agent) (known_calls calls))) w).
Proof.
  induction 1 as [|call calls Hp _ IH]; intros tu mr td w.
  - simpl. by rewrite !app_nil_r, logged_nil.
  - cbn [runToolCalls known_calls List.filter]. rewrite Hp.
    erewrite bind_Ok by reflexivity.
    destruct (bool_decide (tc_name call ∈ tools)).
    + unfold used_by, references_by, detail_of, lines_of.
      cbn [List.map List.concat].
      destruct (tc_run call) as [res|msg].
      * erewrite bind_Ok by (erewrite bind_Ok by apply log_eq; reflexivity).
        rewrite IH. unfold logged. simpl. by rewrite <- !app_assoc.
      * erewrite bind_Ok
          by (erewrite bind_Ok by apply log_eq;
              erewrite bind_Ok by apply log_eq; reflexivity).
        rewrite IH. unfold logged. simpl. by rewrite <- !app_assoc.
    + erewrite bind_Ok by reflexivity. apply IH.
Qed.

Lemma runToolCalls_malformed now agent calls :
  forallb tc_arguments_parse calls = false →
  ∀ acc w, ∃ w', runToolCalls now agent calls acc w = (Throw "SyntaxError", w')
                 ∧ heap w' = heap w ∧ orch_eventHistory w' = orch_eventHistory w
                 ∧ orch_currentState w' = orch_currentState w.
Proof.
  induction calls as [|call calls IH]; intros Hbad [[tu mr] td] w; [done|].
  cbn [runToolCalls]. cbn [forallb] in Hbad.
  destruct (tc_arguments_parse call); [|by exists w].
  erewrite bind_Ok by reflexivity.
  match goal with |- ∃ _, (?c ≫= _) _ = _ ∧ _ =>
    assert (∃ acc' lines, c w = (Ok acc', logged lines w)) as (acc' & lines & E)
  end.
  { destruct (bool_decide _).
    - erewrite bind_Ok by apply log_eq. destruct (tc_run call) as [res|msg].
      + by eexists _, [_].
      + erewrite bind_Ok by apply log_eq. eexists _, [_; _].
        unfold logged. simpl. by rewrite <- app_assoc.
    - exists (tu, mr, td), []. by rewrite logged_nil. }
  erewrite bind_Ok by exact E.
  destruct (IH Hbad acc' (logged lines w)) as (w' & E' & Hh & He & Ho).
  exists w'. split; [exact E'|]. by rewrite Hh, He, Ho.
Qed.

Lemma parses_forallb calls : parses calls ↔ forallb tc_arguments_parse calls = true.
Proof.
  unfold parses. rewrite forallb_forall, Forall_forall.
  split; intros H x Hx; apply H; by apply list_elem_of_In.
Qed.

(** ** What a turn's response is *)

Definition empty_response_text (topic : string) : string :=
  "Error: AI model returned empty response. Topic: " ++ topic.

(** The text the response is classified and scored on. *)
Definition response_text (m : Message) (topic : string) : string :=
  let content := default EmptyString (msg_content m) in
  if bool_decide (Js.trim content = EmptyString) then empty_response_text topic
  else content.

(** What [processAgentResponse] returns for a message, the topic being
    [topic]. *)
Definition response_of (inp : TurnInput) (message : option Message) (agent : Agent)
    (topic : string) : AgentResponse :=
  match message with
  | None =>
      {| resp_content := "Error: No response from AI model";
         resp_type := response;
         resp_confidence := 0%float;
         resp_suggestedNextAgent := role_of (opposite agent);
         resp_toolsUsed := [];
         resp_memoryReferences := [];
         resp_newInsights := [];
         resp_toolDetails := None |}
  | Some m =>
      let known := known_calls (msg_tool_calls m) in
      {| resp_content := Js.trim (response_text m topic);
         resp_type := determineResponseType (response_text m topic) agent;
         resp_confidence := calculateConfidence (response_text m topic);
         resp_suggestedNextAgent := role_of (opposite agent);
         resp_toolsUsed := List.concat (List.map used_by known);
         resp_memoryReferences := List.concat (List.map references_by known);
         resp_newInsights :=
           extractInsights (in_uuid inp) (in_now inp)
             (default EmptyString (msg_content m)) agent;
         resp_toolDetails :=
           match known with
           | [] => None
           | _ => Some (List.map (detail_of (in_now inp)) known)
           end |}
  end.

(** Whether every tool call of the message carries arguments that
    parse. *)
Definition arguments_parse (message : option Message) : bool :=
  match message with
  | None => true
  | Some m => forallb tc_arguments_parse (msg_tool_calls m)
  end.

Lemma processAgentResponse_ok inp message agent o s c a q h w :
  holds o s c a q h w → arguments_parse message = true →
  ∃ w',
    processAgentResponse inp message agent w
    = (Ok (response_of inp message agent (currentTopic c)), w')
    ∧ holds o s c a q h w' ∧ runId w' = runId w ∧ isRunning w' = isRunning w
    ∧ db w' = db w.
Proof.
  intros H Hp. destruct message as [m|].
  2: { eexists. split; [reflexivity|]. by split. }
  apply parses_forallb in Hp. unfold processAgentResponse.
  erewrite bind_Ok by (by apply runToolCalls_ok).
  set (w1 := logged _ w).
  assert (H1 : holds o s c a q h w1) by exact H.
  assert (Hout : runId w1 = runId w ∧ isRunning w1 = isRunning w ∧ db w1 = db w)
    by done.
  clearbody w1. destruct Hout as (<- & <- & <-).
  pose proof H1 as (Ho & Hs & Hc & _).
  unfold response_of, response_text.
  destruct (bool_decide (Js.trim _ = EmptyString)).
  - erewrite bind_Ok.
    2: { erewrite bind_Ok by apply log_eq.
         erewrite bind_Ok by apply this_currentState_eq.
         erewrite bind_Ok by (apply read_state_Some; simpl; rewrite Ho; exact Hs).
         erewrite bind_Ok by (unfold read_context, deref; simpl; by rewrite Hc).
         reflexivity. }
    eexists. split.
    { unfold mret, M_ret, ret. do 3 f_equal. by destruct (known_calls _). }
    split; [exact H1 | done].
  - erewrite bind_Ok by reflexivity.
    eexists. split.
    { unfold mret, M_ret, ret. do 3 f_equal. by destruct (known_calls _). }
    split; [exact H1 | done].
Qed.

Lemma processAgentResponse_malformed inp message agent w :
  arguments_parse message = false →
  ∃ w', processAgentResponse inp message agent w = (Throw "SyntaxError", w')
        ∧ heap w' = heap w ∧ orch_eventHistory w' = orch_eventHistory w
        ∧ orch_currentState w' = orch_currentState w.
Proof.
  destruct message as [m|]; [|done]. intros Hbad. unfold processAgentResponse.
  destruct (runToolCalls_malformed (in_now inp) agent _ Hbad ([], [], []) w)
    as (w' & E & Hw').
  exists w'. split; [|done]. by erewrite bind_Throw by exact E.
Qed.

Lemma buildContextForAgent_ok agent o s c a q h w :
  holds o s c a q h w →
  buildContextForAgent agent w
  = (Ok (Js.slice_last 10 (recentExchanges c), currentTopic c), w).
Proof.
  intros (Ho & Hs & Hc & _). unfold buildContextForAgent.
  erewrite bind_Ok by apply this_currentState_eq. rewrite Ho.
  erewrite bind_Ok by (apply read_state_Some; exact Hs).
  erewrite bind_Ok by (unfold read_context, deref; by rewrite Hc).
  reflexivity.
Qed.

(** [executeQuestioner] and [executeExplorer] by cases on what the
    completion answers. *)
Lemma executeAgent_cases inp agent o s c a q h w :
  holds o s c a q h w →
  match in_completion inp with
  | CompletionThrows msg => executeAgent inp agent w = (Throw msg, w)
  | CompletionReturns message =>
      ∃ w1, holds o s c a q h w1
            ∧ executeAgent inp agent w
              = if arguments_parse message
                then (Ok (response_of inp message agent (currentTopic c)), w1)
                else (Throw "SyntaxError", w1)
  end.
Proof.
  intros H. unfold executeAgent.
  erewrite bind_Ok by (by eapply buildContextForAgent_ok).
  destruct (in_completion inp) as [msg|message]; [reflexivity|].
  destruct (arguments_parse message) eqn:Hp.
  - destruct (processAgentResponse_ok inp message agent _ _ _ _ _ _ w H Hp)
      as (w1 & E & H1 & _).
    by exists w1.
  - destruct (processAgentResponse_malformed inp message agent w Hp)
      as (w1 & E & Hh & He & Ho).
    exists w1. split; [|exact E].
    destruct H as (? & ? & ? & ? & ? & ?). unfold holds, state_at in *.
    by rewrite Hh, He, Ho.
Qed.

(** *** The response's content is never empty *)

Lemma trim_end_cons c t :
  Js.is_space c = false → Js.trim_end (String c t) ≠ EmptyString.
Proof. intros Hc. simpl. destruct (Js.trim_end t); by rewrite ?Hc. Qed.

Lemma response_content_nonempty inp message agent topic :
  resp_content (response_of inp message agent topic) ≠ EmptyString.
Proof.
  destruct message as [m|]; [|done].
  cbn [response_of resp_content]. unfold response_text.
  case_bool_decide as Hempty; [|done].
  unfold Js.trim, empty_response_text. by apply trim_end_cons.
Qed.

Lemma response_suggests inp message agent topic :
  resp_suggestedNextAgent (response_of inp message agent topic)
  = role_of (opposite agent).
Proof. by destruct message. Qed.

Lemma next_agent_response inp message agent topic :
  next_agent (response_of inp message agent topic) agent = opposite agent.
Proof. unfold next_agent. rewrite response_suggests. by destruct agent. Qed.

Lemma questioner_response_type inp message topic :
  resp_type (response_of inp message questioner topic) ≠ insight.
Proof.
  destruct message as [m|]; [|done].
  cbn [response_of resp_type]. unfold determineResponseType.
  destruct (Js.includes _ "?"); [done|]. simpl.
  by destruct (_ || _).
Qed.

(** ** What a turn does, and when it fails *)

(** What the capabilities must answer for a turn to complete. *)
Definition turn_completes (inp : TurnInput) : bool :=
  match in_completion inp, in_storeEpisodic inp with
  | CompletionReturns message, Succeeds => arguments_parse message
  | _, _ => false
  end.

(** A turn of the orchestrator, by cases on its input. *)
Lemma executeDialogueStep_run inp o s c a q h w :
  holds o s c a q h w →
  match in_completion inp with
  | CompletionThrows msg =>
      executeDialogueStep inp w = (Throw msg, errored (currentAgent s) msg w)
  | CompletionReturns message =>
      if arguments_parse message then
        let r := response_of inp message (currentAgent s) (currentTopic c) in
        let ex := exchange_from inp (currentAgent s) (depth s) r in
        ∃ w2,
          holds o (state_after r s) (context_after ex c) (a ++ resp_newInsights r)%list
            (thread_after r (depth s) q) (events_after (in_now inp) ex r (phase s) h) w2
          ∧ executeDialogueStep inp w
            = match in_storeEpisodic inp with
              | Succeeds =>
                  (Ok ex, set_eventHistory
                            (emitted (response_event inp ex r) (orch_eventHistory w2))
                            w2)
              | Fails msg => (Throw msg, errored (currentAgent s) msg w2)
              end
      else
        ∃ w1, holds o s c a q h w1
              ∧ executeDialogueStep inp w
                = (Throw "SyntaxError", errored (currentAgent s) "SyntaxError" w1)
  end.
Proof.
  intros H.
  pose proof (executeDialogueStep_cases inp _ _ _ _ _ _ w H) as Hstep.
  pose proof (executeAgent_cases inp (currentAgent s) _ _ _ _ _ _ w H) as Hagent.
  destruct (in_completion inp) as [msg|message].
  - rewrite Hagent in Hstep. by destruct Hstep.
  - destruct Hagent as (w1 & H1 & E). rewrite E in Hstep.
    destruct (arguments_parse message).
    + destruct Hstep as (w2 & H2 & _ & E2). by exists w2.
    + destruct Hstep as (E2 & _). by exists w1.
Qed.

Lemma holds_internal_state o s c a q h w :
  holds o s c a q h w → internal_state w = (Some s, Some c, Some q, Some a).
Proof.
  intros H. apply holds_view in H as (Hs & Hc & Ha & Hq & _).
  unfold internal_state. by rewrite Hs, Hc, Ha, Hq.
Qed.

(** X6. A turn completes exactly when the completion call returns, the
    arguments of every tool call in its message parse, and the episodic
    store accepts the exchange; in every other case it throws. *)
Theorem turn_completes_iff (inp : TurnInput) (w : World) :
  well_formed w →
  (∃ ex w', executeDialogueStep inp w = (Ok ex, w')) ↔ turn_completes inp = true.
Proof.
  intros Hwf. destruct (well_formed_holds w Hwf) as (s & c & a & q & H).
  pose proof (executeDialogueStep_run inp _ _ _ _ _ _ w H) as Hrun.
  unfold turn_completes.
  destruct (in_completion inp) as [msg|message].
  - rewrite Hrun. split; [by intros (? & ? & ?) | done].
  - destruct (arguments_parse message).
    + destruct Hrun as (w2 & _ & ->).
      destruct (in_storeEpisodic inp); split; try done; eauto.
      by intros (? & ? & ?).
    + destruct Hrun as (w1 & _ & ->).
      split; [by intros (? & ? & ?) | by destruct (in_storeEpisodic inp)].
Qed.

(** X7. A completed turn hands over to the other agent. The exchange it
    returns is attributed to the agent whose turn it was and recorded at
    the depth the state had before the update; its content is the
    response's and is never empty; after the turn it is the newest of
    the recent exchanges, and the newest event is its agent_response
    event. *)
Theorem completed_turn_hands_over (inp : TurnInput) (w : World)
    (ex : DialogueExchange) (w' : World) :
  well_formed w →
  executeDialogueStep inp w = (Ok ex, w') →
  ∃ s s' c' r,
    orchestrator_state w = Some s
    ∧ orchestrator_state w' = Some s'
    ∧ currentAgent s' = opposite (currentAgent s)
    ∧ ex_agent ex = currentAgent s
    ∧ ex_depth ex = depth s
    ∧ ex_response ex = Some r
    ∧ ex_type ex = resp_type r
    ∧ ex_content ex = resp_content r
    ∧ ex_content ex ≠ EmptyString
    ∧ orchestrator_context w' = Some c'
    ∧ last (recentExchanges c') = Some ex
    ∧ last (orch_eventHistory w')
      = Some {| ev_type := agent_response; ev_timestamp := in_now inp;
                ev_data := DataExchange ex r;
                ev_source := agent_name (currentAgent s) |}.
Proof.
  intros Hwf E. destruct (well_formed_holds w Hwf) as (s & c & a & q & H).
  pose proof (executeDialogueStep_run inp _ _ _ _ _ _ w H) as Hrun.
  destruct (in_completion inp) as [msg|message]; [congruence|].
  destruct (arguments_parse message); [|destruct Hrun as (? & _ & ?); congruence].
  destruct Hrun as (w2 & H2 & E2). rewrite E in E2.
  destruct (in_storeEpisodic inp); [|done].
  injection E2 as -> ->.
  set (r := response_of inp message (currentAgent s) (currentTopic c)) in *.
  set (ex := exchange_from inp (currentAgent s) (depth s) r) in *.
  apply holds_view in H as (Hs & _). apply holds_view in H2 as (Hs2 & Hc2 & _).
  exists s, (state_after r s), (context_after ex c), r.
  split; [done|]. split; [done|].
  split; [apply next_agent_response|].
  do 5 (split; [done|]).
  split; [apply response_content_nonempty|].
  split; [done|]. split.
  - simpl. rewrite slice_last_last by lia. apply last_snoc.
  - cbn [orch_eventHistory set_eventHistory]. unfold emitted.
    rewrite window_slice, slice_last_last by lia. apply last_snoc.
Qed.

(** X8. On the questioner's turn the phase never becomes synthesizing:
    the questioner's exchange is a question, a response or a reflection,
    never an insight, whatever the text says, and the phase after the
    turn is the one of that type. *)
Theorem questioner_never_synthesizes (inp : TurnInput) (w : World)
    (ex : DialogueExchange) (w' : World) :
  well_formed w →
  currentAgent <$> orchestrator_state w = Some questioner →
  executeDialogueStep inp w = (Ok ex, w') →
  ex_type ex ≠ insight
  ∧ phase <$> orchestrator_state w'
    = Some match ex_type ex with
           | question => questioning
           | response => responding
           | _ => reflecting
           end.
Proof.
  intros Hwf Hq E. destruct (well_formed_holds w Hwf) as (s & c & a & q & H).
  pose proof (executeDialogueStep_run inp _ _ _ _ _ _ w H) as Hrun.
  destruct (in_completion inp) as [msg|message]; [congruence|].
  destruct (arguments_parse message); [|destruct Hrun as (? & _ & ?); congruence].
  destruct Hrun as (w2 & H2 & E2). rewrite E in E2.
  destruct (in_storeEpisodic inp); [|done].
  injection E2 as -> ->.
  apply holds_view in H as (Hs & _). apply holds_view in H2 as (Hs2 & _).
  rewrite Hs in Hq. injection Hq as Hq. rewrite Hq in *.
  pose proof (questioner_response_type inp message (currentTopic c)) as Hty.
  split; [exact Hty|].
  change (orchestrator_state (set_eventHistory ?h w2)) with (orchestrator_state w2).
  rewrite Hs2. cbn [fmap option_fmap option_map state_after phase exchange_from ex_type].
  unfold phase_after.
  by destruct (resp_type (response_of inp message questioner (currentTopic c))).
Qed.

(** X9. When the completion call throws, the turn rethrows the error
    and has changed nothing but the console, which gains the line of the
    failed step: the state, the working memory, the insight log, the
    question thread and the event history are as they were. *)
Theorem failed_completion_changes_nothing (inp : TurnInput) (w : World)
    (msg : string) :
  well_formed w →
  in_completion inp = CompletionThrows msg →
  ∃ agent,
    currentAgent <$> orchestrator_state w = Some agent
    ∧ executeDialogueStep inp w
      = (Throw msg, set_console (console w ++ [ErrDialogueStep agent msg]) w).
Proof.
  intros Hwf Hc. destruct (well_formed_holds w Hwf) as (s & c & a & q & H).
  pose proof (executeDialogueStep_run inp _ _ _ _ _ _ w H) as Hrun.
  rewrite Hc in Hrun. exists (currentAgent s).
  apply holds_view in H as (-> & _). done.
Qed.

(** X10. When the episodic store rejects the exchange, the turn throws
    the store's error after the state update has been applied: the
    orchestrator has already handed over to the other agent, the
    exchange is the newest of the recent exchanges and the response's
    insights are in the log, but no agent_response event is emitted and
    no exchange is returned. *)
Theorem store_failure_follows_the_update (inp : TurnInput) (w : World)
    (message : option Message) (msg : string) :
  well_formed w →
  in_completion inp = CompletionReturns message →
  arguments_parse message = true →
  in_storeEpisodic inp = Fails msg →
  ∃ s a ex c' w',
    orchestrator_state w = Some s
    ∧ orchestrator_insights w = Some a
    ∧ executeDialogueStep inp w = (Throw msg, w')
    ∧ currentAgent <$> orchestrator_state w' = Some (opposite (currentAgent s))
    ∧ orchestrator_context w' = Some c'
    ∧ last (recentExchanges c') = Some ex
    ∧ ex_agent ex = currentAgent s
    ∧ (∃ r, ex_response ex = Some r
            ∧ orchestrator_insights w' = Some (a ++ resp_newInsights r)%list)
    ∧ (∃ evs, orch_eventHistory w' = emitted_all evs (orch_eventHistory w)
              ∧ Forall (λ ev, ev_type ev ≠ agent_response) evs)
    ∧ last (console w') = Some (ErrDialogueStep (currentAgent s) msg).
Proof.
  intros Hwf Hc Hp Hst. destruct (well_formed_holds w Hwf) as (s & c & a & q & H).
  pose proof (executeDialogueStep_run inp _ _ _ _ _ _ w H) as Hrun.
  rewrite Hc, Hp, Hst in Hrun. destruct Hrun as (w2 & H2 & E2).
  set (r := response_of inp message (currentAgent s) (currentTopic c)) in *.
  set (ex := exchange_from inp (currentAgent s) (depth s) r) in *.
  apply holds_view in H as (Hs & _ & Ha & _).
  apply holds_view in H2 as (Hs2 & Hc2 & Ha2 & _ & He2).
  exists s, a, ex, (context_after ex c), (errored (currentAgent s) msg w2).
  do 3 (split; [done|]).
  split. { change (orchestrator_state (errored ?x ?y w2)) with (orchestrator_state w2).
           rewrite Hs2. simpl. f_equal. apply next_agent_response. }
  split; [done|].
  split. { simpl. rewrite slice_last_last by lia. apply last_snoc. }
  split; [done|].
  split. { exists r. by split. }
  split.
  - eexists. split; [exact He2|]. apply Forall_app. split.
    + unfold insight_events. apply Forall_map. by apply Forall_forall.
    + unfold phase_events. case_bool_decide; repeat constructor. done.
  - simpl. apply last_snoc.
Qed.

(** X11. A tool call whose arguments do not parse makes the whole turn
    throw, whatever the message's content and whether or not the
    orchestrator has the tool: the orchestrator's state, working memory,
    insight log, question thread and event history are as they were. *)
Theorem malformed_arguments_abort_the_turn (inp : TurnInput) (w : World)
    (message : option Message) :
  well_formed w →
  in_completion inp = CompletionReturns message →
  arguments_parse message = false →
  ∃ agent w',
    currentAgent <$> orchestrator_state w = Some agent
    ∧ executeDialogueStep inp w = (Throw "SyntaxError", w')
    ∧ internal_state w' = internal_state w
    ∧ orch_eventHistory w' = orch_eventHistory w
    ∧ last (console w') = Some (ErrDialogueStep agent "SyntaxError").
Proof.
  intros Hwf Hc Hp. destruct (well_formed_holds w Hwf) as (s & c & a & q & H).
  pose proof (executeDialogueStep_run inp _ _ _ _ _ _ w H) as Hrun.
  rewrite Hc, Hp in Hrun. destruct Hrun as (w1 & H1 & E).
  exists (currentAgent s), (errored (currentAgent s) "SyntaxError" w1). split.
  { apply holds_view in H as (-> & _). done. }
  split; [exact E|].
  assert (H1' : holds (orch_currentState w) s c a q (orch_eventHistory w)
                  (errored (currentAgent s) "SyntaxError" w1)) by exact H1.
  split; [|split].
  - by rewrite (holds_internal_state _ _ _ _ _ _ _ H1'),
               (holds_internal_state _ _ _ _ _ _ _ H).
  - by destruct H1 as (_ & _ & _ & _ & _ & ?).
  - simpl. apply last_snoc.
Qed.

(** *** Tool calls *)

Definition returned (call : ToolCall) : bool :=
  match tc_run call with ToolReturns _ => true | ToolThrows _ => false end.

Lemma used_by_returned calls :
  List.concat (List.map used_by calls) = List.map tc_name (List.filter returned calls).
Proof.
  induction calls as [|call calls IH]; [done|].
  simpl. unfold used_by at 1, returned at 1.
  destruct (tc_run call); simpl; by rewrite IH.
Qed.

(** X12. When the arguments of every tool call parse, no tool error
    aborts the turn: [processAgentResponse] returns, and of the calls
    that name a tool the orchestrator has, in call order, [toolDetails]
    holds one entry each, with the error message of a tool that threw;
    [toolsUsed] names those that returned; [memoryReferences] holds the
    references of what they returned. Calls of other tools leave no
    trace, and [toolDetails] is absent when no call named a known tool.
    The orchestrator's state is not touched. *)
Theorem tool_calls_are_recorded (inp : TurnInput) (m : Message) (agent : Agent)
    (w : World) :
  well_formed w →
  Forall (λ call, tc_arguments_parse call = true) (msg_tool_calls m) →
  let known :=
    List.filter (λ call, bool_decide (tc_name call ∈ tools)) (msg_tool_calls m) in
  ∃ r w',
    processAgentResponse inp (Some m) agent w = (Ok r, w')
    ∧ resp_toolsUsed r = List.map tc_name (List.filter returned known)
    ∧ default [] (resp_toolDetails r)
      = List.map (λ call,
          {| td_tool := tc_name call;
             td_error := match tc_run call with
                         | ToolReturns _ => None
                         | ToolThrows msg => Some msg
                         end;
             td_timestamp := in_now inp |}) known
    ∧ (resp_toolDetails r = None ↔ known = [])
    ∧ resp_memoryReferences r
      = List.concat (List.map (λ call, match tc_run call with
                                       | ToolReturns res => references_of res
                                       | ToolThrows _ => []
                                       end) known)
    ∧ internal_state w' = internal_state w
    ∧ orch_eventHistory w' = orch_eventHistory w.
Proof.
  intros Hwf Hp known. destruct (well_formed_holds w Hwf) as (s & c & a & q & H).
  apply (parses_forallb (msg_tool_calls m)) in Hp.
  destruct (processAgentResponse_ok inp (Some m) agent _ _ _ _ _ _ w H Hp)
    as (w' & E & H' & _).
  eexists _, w'. split; [exact E|].
  cbn [response_of resp_toolsUsed resp_toolDetails resp_memoryReferences].
  change (known_calls (msg_tool_calls m)) with known. clearbody known.
  split; [apply used_by_returned|].
  split. { by destruct known. }
  split. { by destruct known. }
  split; [done|]. split.
  - by rewrite (holds_internal_state _ _ _ _ _ _ _ H'),
               (holds_internal_state _ _ _ _ _ _ _ H).
  - by destruct H' as (_ & _ & _ & _ & _ & ?).
Qed.

(** ** Worlds and inputs to instantiate the statements on *)

Lemma well_formed_fresh_world : well_formed fresh_world.
Proof. repeat split; eexists; vm_compute; reflexivity. Qed.

(** A question of more than 100 code units, with an insight pattern. *)
Definition deep_question : AgentResponse :=
  {| resp_content := long_question; resp_type := question;
     resp_confidence := 0.5%float; resp_suggestedNextAgent := role_explorer;
     resp_toolsUsed := []; resp_memoryReferences := [];
     resp_newInsights := [mkInsight "uuid-2" "awareness persists" medium ["awareness"]
                            role_questioner 2 false];
     resp_toolDetails := None |}.

(** A message that calls a tool that returns, a tool that throws, and a
    tool the orchestrator does not have. *)
Definition message_with_tools : Message :=
  {| msg_content := Some "I realize that memory shapes the self.";
     msg_tool_calls :=
       [ mkToolCall "memory_search" true
           (ToolReturns (ResultArray [Some "m-1"; None]));
         mkToolCall "web_search" true (ToolThrows "429");
         mkToolCall "calculator" true (ToolReturns ResultOther) ] |}.

Definition turn_with (completion : Completion) (store : Outcome) : TurnInput :=
  {| in_now := 5; in_uuid := λ k, "uuid-" ++ String (ascii_of_nat (48 + k)) EmptyString;
     in_completion := completion; in_storeEpisodic := store |}.

Definition malformed_call : Message :=
  {| msg_content := Some "What follows?";
     msg_tool_calls := [ mkToolCall "calculator" false (ToolReturns ResultOther) ] |}.

Lemma recentExchanges_keeps_last_10_witness :
  well_formed fresh_world
  ∧ ∃ c c' w',
      orchestrator_context fresh_world = Some c
      ∧ updateStateFromResponse 2 (exchange_of questioner deep_question) deep_question
          fresh_world = (Ok tt, w')
      ∧ orchestrator_context w' = Some c'
      ∧ recentExchanges c'
        = Js.slice_last 10
            (recentExchanges c ++ [exchange_of questioner deep_question])%list
      ∧ (List.length (recentExchanges c') ≤ 10)%nat
      ∧ last (recentExchanges c') = Some (exchange_of questioner deep_question)
      ∧ recentExchanges c'
          `suffix_of` (recentExchanges c ++ [exchange_of questioner deep_question])%list
      ∧ with_recentExchanges (recentExchanges c) c' = c.
Proof.
  split; [exact well_formed_fresh_world|].
  exact (recentExchanges_keeps_last_10 2 (exchange_of questioner deep_question)
           deep_question fresh_world well_formed_fresh_world).
Defined.

Lemma insights_are_appended_witness :
  well_formed fresh_world
  ∧ ∃ a p w',
      orchestrator_insights fresh_world = Some a
      ∧ phase <$> orchestrator_state fresh_world = Some p
      ∧ updateStateFromResponse 2 (exchange_of questioner deep_question) deep_question
          fresh_world = (Ok tt, w')
      ∧ orchestrator_insights w' = Some (a ++ resp_newInsights deep_question)%list
      ∧ orch_eventHistory w'
        = emitted_all
            (List.map (λ i, {| ev_type := insight_generated; ev_timestamp := 2;
                               ev_data := DataInsight i;
                               ev_source :=
                                 agent_name
                                   (ex_agent (exchange_of questioner deep_question)) |})
                      (resp_newInsights deep_question)
             ++ (if bool_decide (p ≠ phase_after deep_question p)
                 then [ {| ev_type := phase_change; ev_timestamp := 2;
                           ev_data := DataPhase p (phase_after deep_question p);
                           ev_source := "orchestrator" |} ]
                 else []))%list
            (orch_eventHistory fresh_world).
Proof.
  split; [exact well_formed_fresh_world|].
  exact (insights_are_appended 2 (exchange_of questioner deep_question)
           deep_question fresh_world well_formed_fresh_world).
Defined.

Lemma questionThread_records_questions_witness :
  well_formed fresh_world
  ∧ ∃ d q q' w',
      orchestrator_depth fresh_world = Some d
      ∧ orchestrator_thread fresh_world = Some q
      ∧ updateStateFromResponse 2 (exchange_of questioner deep_question) deep_question
          fresh_world = (Ok tt, w')
      ∧ orchestrator_thread w' = Some q'
      ∧ (resp_type deep_question = question →
         subQuestions q' = (subQuestions q ++ [resp_content deep_question])%list
         ∧ qt_depth q' = Z.max (qt_depth q) (d + 1))
      ∧ (resp_type deep_question ≠ question → q' = q)
      ∧ rootQuestion q' = rootQuestion q
      ∧ exploredAspects q' = exploredAspects q
      ∧ unexploredAspects q' = unexploredAspects q
      ∧ qt_depth q ≤ qt_depth q'.
Proof.
  split; [exact well_formed_fresh_world|].
  exact (questionThread_records_questions 2 (exchange_of questioner deep_question)
           deep_question fresh_world well_formed_fresh_world).
Defined.

Lemma depth_rises_on_long_questions_witness :
  well_formed fresh_world
  ∧ ∃ s s' w',
      orchestrator_state fresh_world = Some s
      ∧ updateStateFromResponse 2 (exchange_of questioner deep_question) deep_question
          fresh_world = (Ok tt, w')
      ∧ orchestrator_state w' = Some s'
      ∧ depth s' = (if bool_decide (resp_type deep_question = question)
                       && (100 <? Js.length (resp_content deep_question))
                    then depth s + 1 else depth s)
      ∧ depth s ≤ depth s' ≤ depth s + 1
      ∧ id s' = id s ∧ context s' = context s ∧ insights s' = insights s
      ∧ questionThread s' = questionThread s.
Proof.
  split; [exact well_formed_fresh_world|].
  exact (depth_rises_on_long_questions 2 (exchange_of questioner deep_question)
           deep_question fresh_world well_formed_fresh_world).
Defined.

Lemma turn_completes_iff_witness :
  well_formed fresh_world
  ∧ ((∃ ex w', executeDialogueStep
                 (turn_with (CompletionReturns (Some message_with_tools)) Succeeds)
                 fresh_world = (Ok ex, w'))
     ↔ turn_completes (turn_with (CompletionReturns (Some message_with_tools)) Succeeds)
       = true).
Proof.
  split; [exact well_formed_fresh_world|].
  exact (turn_completes_iff
           (turn_with (CompletionReturns (Some message_with_tools)) Succeeds)
           fresh_world well_formed_fresh_world).
Defined.

(** The first turn of a fresh run, the completion calling tools. *)
Definition tools_turn : TurnInput :=
  turn_with (CompletionReturns (Some message_with_tools)) Succeeds.

Lemma first_turn_returns :
  ∃ ex w', executeDialogueStep tools_turn fresh_world = (Ok ex, w').
Proof. eexists _, _. vm_compute. reflexivity. Qed.

Lemma completed_turn_hands_over_witness :
  well_formed fresh_world
  ∧ ∃ ex w',
      executeDialogueStep tools_turn fresh_world = (Ok ex, w')
      ∧ ∃ s s' c' r,
          orchestrator_state fresh_world = Some s
          ∧ orchestrator_state w' = Some s'
          ∧ currentAgent s' = opposite (currentAgent s)
          ∧ ex_agent ex = currentAgent s
          ∧ ex_depth ex = depth s
          ∧ ex_response ex = Some r
          ∧ ex_type ex = resp_type r
          ∧ ex_content ex = resp_content r
          ∧ ex_content ex ≠ EmptyString
          ∧ orchestrator_context w' = Some c'
          ∧ last (recentExchanges c') = Some ex
          ∧ last (orch_eventHistory w')
            = Some {| ev_type := agent_response; ev_timestamp := in_now tools_turn;
                      ev_data := DataExchange ex r;
                      ev_source := agent_name (currentAgent s) |}.
Proof.
  split; [exact well_formed_fresh_world|].
  destruct first_turn_returns as (ex & w' & E). exists ex, w'. split; [exact E|].
  exact (completed_turn_hands_over tools_turn fresh_world ex w'
           well_formed_fresh_world E).
Defined.

Lemma questioner_never_synthesizes_witness :
  well_formed fresh_world
  ∧ currentAgent <$> orchestrator_state fresh_world = Some questioner
  ∧ ∃ ex w',
      executeDialogueStep tools_turn fresh_world = (Ok ex, w')
      ∧ ex_type ex ≠ insight
      ∧ phase <$> orchestrator_state w'
        = Some match ex_type ex with
               | question => questioning
               | response => responding
               | _ => reflecting
               end.
Proof.
  split; [exact well_formed_fresh_world|]. split; [reflexivity|].
  destruct first_turn_returns as (ex & w' & E). exists ex, w'. split; [exact E|].
  exact (questioner_never_synthesizes tools_turn fresh_world ex w'
           well_formed_fresh_world eq_refl E).
Defined.

Lemma failed_completion_changes_nothing_witness :
  well_formed fresh_world
  ∧ in_completion (turn_with (CompletionThrows "timeout") Succeeds)
    = CompletionThrows "timeout"
  ∧ ∃ agent,
      currentAgent <$> orchestrator_state fresh_world = Some agent
      ∧ executeDialogueStep (turn_with (CompletionThrows "timeout") Succeeds) fresh_world
        = (Throw "timeout",
           set_console (console fresh_world ++ [ErrDialogueStep agent "timeout"])
             fresh_world).
Proof.
  split; [exact well_formed_fresh_world|]. split; [reflexivity|].
  exact (failed_completion_changes_nothing
           (turn_with (CompletionThrows "timeout") Succeeds) fresh_world "timeout"
           well_formed_fresh_world eq_refl).
Defined.

Lemma store_failure_follows_the_update_witness :
  well_formed fresh_world
  ∧ arguments_parse (Some message_with_tools) = true
  ∧ ∃ s a ex c' w',
      orchestrator_state fresh_world = Some s
      ∧ orchestrator_insights fresh_world = Some a
      ∧ executeDialogueStep
          (turn_with (CompletionReturns (Some message_with_tools)) (Fails "down"))
          fresh_world = (Throw "down", w')
      ∧ currentAgent <$> orchestrator_state w' = Some (opposite (currentAgent s))
      ∧ orchestrator_context w' = Some c'
      ∧ last (recentExchanges c') = Some ex
      ∧ ex_agent ex = currentAgent s
      ∧ (∃ r, ex_response ex = Some r
              ∧ orchestrator_insights w' = Some (a ++ resp_newInsights r)%list)
      ∧ (∃ evs, orch_eventHistory w' = emitted_all evs (orch_eventHistory fresh_world)
                ∧ Forall (λ ev, ev_type ev ≠ agent_response) evs)
      ∧ last (console w') = Some (ErrDialogueStep (currentAgent s) "down").
Proof.
  split; [exact well_formed_fresh_world|]. split; [reflexivity|].
  exact (store_failure_follows_the_update
           (turn_with (CompletionReturns (Some message_with_tools)) (Fails "down"))
           fresh_world (Some message_with_tools) "down"
           well_formed_fresh_world eq_refl eq_refl eq_refl).
Defined.

Lemma malformed_arguments_abort_the_turn_witness :
  well_formed fresh_world
  ∧ arguments_parse (Some malformed_call) = false
  ∧ ∃ agent w',
      currentAgent <$> orchestrator_state fresh_world = Some agent
      ∧ executeDialogueStep
          (turn_with (CompletionReturns (Some malformed_call)) Succeeds) fresh_world
        = (Throw "SyntaxError", w')
      ∧ internal_state w' = internal_state fresh_world
      ∧ orch_eventHistory w' = orch_eventHistory fresh_world
      ∧ last (console w') = Some (ErrDialogueStep agent "SyntaxError").
Proof.
  split; [exact well_formed_fresh_world|]. split; [reflexivity|].
  exact (malformed_arguments_abort_the_turn
           (turn_with (CompletionReturns (Some malformed_call)) Succeeds)
           fresh_world (Some malformed_call)
           well_formed_fresh_world eq_refl eq_refl).
Defined.

Lemma tool_calls_are_recorded_witness :
  well_formed fresh_world
  ∧ Forall (λ call, tc_arguments_parse call = true) (msg_tool_calls message_with_tools)
  ∧ ∃ r w',
      processAgentResponse (turn_with (CompletionReturns None) Succeeds)
        (Some message_with_tools) explorer fresh_world = (Ok r, w')
      ∧ resp_toolsUsed r = ["memory_search"]
      ∧ List.map (λ d, (td_tool d, td_error d)) (default [] (resp_toolDetails r))
        = [("memory_search", None); ("web_search", Some "429")]
      ∧ resp_memoryReferences r = ["m-1"; "unknown"].
Proof.
  assert (Hp : Forall (λ call, tc_arguments_parse call = true)
                 (msg_tool_calls message_with_tools)) by (by repeat constructor).
  split; [exact well_formed_fresh_world|]. split; [exact Hp|].
  destruct (tool_calls_are_recorded (turn_with (CompletionReturns None) Succeeds)
              message_with_tools explorer fresh_world well_formed_fresh_world Hp)
    as (r & w' & E & Hused & Hdetails & _ & Hrefs & _).
  exists r, w'. split; [exact E|].
  rewrite Hused, Hdetails, Hrefs. by vm_compute.
Defined.

(** ** [retrieveRelevantMemories], whatever the stores answer *)

Lemma slice_to_length {A} (limit : Z) (l : list A) :
  0 ≤ limit → Z.of_nat (List.length (slice_to limit l)) ≤ limit.
Proof.
  intros H. unfold slice_to. assert ((limit <? 0) = false) as -> by lia.
  rewrite length_take. lia.
Qed.

Lemma slice_to_subseteq {A} (limit : Z) (l : list A) : slice_to limit l ⊆ l.
Proof. unfold slice_to. destruct (limit <? 0); apply subseteq_take. Qed.

Lemma elem_of_concat {A} (x : A) (ls : list (list A)) :
  x ∈ List.concat ls ↔ ∃ l, l ∈ ls ∧ x ∈ l.
Proof.
  rewrite list_elem_of_In, in_concat. split; intros (l & H1 & H2); exists l;
    by rewrite ?list_elem_of_In in *.
Qed.

Lemma elem_of_map {A B} (f : A → B) (l : list A) (y : B) :
  y ∈ List.map f l ↔ ∃ x, f x = y ∧ x ∈ l.
Proof.
  rewrite list_elem_of_In, in_map_iff. split; intros (x & H1 & H2); exists x;
    by rewrite ?list_elem_of_In in *.
Qed.

Lemma search_type_type inp limit n type m :
  m ∈ search_type inp limit n type → mem_type m = type ∧ type ∈ collections.
Proof.
  unfold search_type. case_bool_decide as Hc; [|by rewrite elem_of_nil].
  destruct (ri_search inp type _) as [|results]; [by rewrite elem_of_nil|].
  rewrite list_elem_of_omap. intros (hit & _ & Hm).
  unfold memory_of_hit in Hm. destruct (hit_payload hit); [|done].
  by injection Hm as <-.
Qed.

(** X13. Retrieval never returns more than [limit] memories, for a
    limit that is not negative, and never a memory of a type that was
    not asked for, whether the memories come from the vector search or
    from the fallback query. *)
Theorem retrieval_respects_limit_and_types (inp : RetrievalInput) (query : string)
    (context : WorkingMemory) (memoryTypes : list string) (limit : Z) (st : Stores)
    (found : list Memory) :
  0 ≤ limit →
  retrieveRelevantMemories inp query context memoryTypes limit st = Ok found →
  Z.of_nat (List.length found) ≤ limit
  ∧ Forall (λ m, mem_type m ∈ memoryTypes) found.
Proof.
  intros Hl. unfold retrieveRelevantMemories.
  destruct (ri_embedding inp) as [|embedding]; [done|].
  destruct (List.length embedding =? 0)%nat.
  { intros [= <-]. split; [simpl; lia | constructor]. }
  set (candidates := List.concat _).
  set (sorted := slice_to limit _).
  assert (Hsorted : Z.of_nat (List.length sorted) ≤ limit
                    ∧ Forall (λ m, mem_type m ∈ memoryTypes) sorted).
  { split; [by apply slice_to_length|].
    apply Forall_forall. intros m Hm.
    apply slice_to_subseteq, stable_sort_elem in Hm.
    subst candidates. apply elem_of_concat in Hm as (ms & Hms & Hm).
    apply elem_of_map in Hms as (type & <- & Htype).
    apply search_type_type in Hm as [-> _]. exact Htype. }
  destruct (List.length sorted =? 0)%nat; [|by intros [= <-]].
  destruct (ri_sql inp); [|by intros [= <-]].
  destruct (fallback_rows memoryTypes query limit (memories st)) as [rows|] eqn:Ef;
    [|by intros [= <-]].
  intros [= <-]. destruct (fallback_rows_spec _ _ _ _ _ Ef) as (_ & Hm & _ & Hlen).
  split; [by rewrite length_map|].
  apply Forall_map. eapply Forall_impl; [exact Hm|].
  intros row [_ Hrow]. unfold matching in Hrow.
  apply andb_prop in Hrow as [Hrow _]. by apply bool_decide_eq_true in Hrow.
Qed.

(** X14. The one error retrieval lets through is the embedding call's:
    it throws exactly when that call throws, and with its message. A
    vector search that throws and a fallback query that fails are
    swallowed. *)
Theorem retrieval_throws_only_the_embedding_error (inp : RetrievalInput)
    (query : string) (context : WorkingMemory) (memoryTypes : list string) (limit : Z)
    (st : Stores) (msg : string) :
  retrieveRelevantMemories inp query context memoryTypes limit st = Throw msg
  ↔ ri_embedding inp = EmbeddingThrows msg.
Proof.
  unfold retrieveRelevantMemories.
  destruct (ri_embedding inp) as [e|embedding].
  - split; by intros [= ->].
  - split; [|done].
    destruct (_ =? 0)%nat; [done|]. destruct (_ =? 0)%nat; [|done].
    destruct (ri_sql inp); [|done]. by destruct (fallback_rows _ _ _ _).
Qed.

(** A search that finds something in one collection and throws in
    another. *)
Definition one_hit : RetrievalInput :=
  {| ri_now := 100; ri_embedding := EmbeddingReturns [0.25%float];
     ri_search := λ type _,
       if String.eqb type "semantic"
       then SearchReturns
              [ mkHit "p-1" (Some 0.5%float)
                  (Some (mkPayload (Some "aware minds") EmptyString (Some 90) None ∅));
                mkHit "p-2" (Some 0.25%float) None ]
       else SearchThrows "unreachable";
     ri_sql := Fails "down" |}.

Lemma retrieval_respects_limit_and_types_witness :
  0 ≤ 1
  ∧ ∃ found,
      retrieveRelevantMemories one_hit "aware" some_context ["episodic"; "semantic"] 1
        (mkStores ∅ memories_table ∅) = Ok found
      ∧ Z.of_nat (List.length found) ≤ 1
      ∧ Forall (λ m, mem_type m ∈ ["episodic"; "semantic"]) found.
Proof.
  split; [lia|]. eexists. split; [vm_compute; reflexivity|].
  apply (retrieval_respects_limit_and_types one_hit "aware" some_context
           ["episodic"; "semantic"] 1 (mkStores ∅ memories_table ∅)); [lia|].
  vm_compute. reflexivity.
Defined.

(** ** [storeSemanticMemory]: the row and the vector point *)

Definition level_in_range (concept : PhilosophicalConcept) : bool :=
  (1 <=? pc_explorationLevel concept) && (pc_explorationLevel concept <=? 10).


Lemma upsert_concept_in_range memory_id concept timestamp table :
  level_in_range concept = true →
  upsert_concept memory_id concept timestamp table
  = Some match table !! pc_name concept with
         | None =>
             <[pc_name concept :=
                 mkConceptRow memory_id (pc_definition concept)
                   (pc_relatedConcepts concept) (pc_sources concept)
                   (pc_explorationLevel concept) timestamp timestamp]> table
         | Some old =>
             <[pc_name concept :=
                 mkConceptRow (cr_id old) (pc_definition concept)
                   (pc_relatedConcepts concept) (cr_sources old)
                   (Z.max (cr_exploration_level old) (pc_explorationLevel concept))
                   (cr_created_at old) timestamp]> table
         end.
Proof. unfold upsert_concept, level_in_range. by intros ->. Qed.

Lemma level_in_range_spec concept :
  level_in_range concept = true ↔ 1 ≤ pc_explorationLevel concept ≤ 10.
Proof. unfold level_in_range. rewrite andb_true_iff. lia. Qed.

(** X16. Storing a concept whose name is already in the table keeps the
    row's identity: its id, its sources and its creation time stay those
    of the first store, while the definition and the related concepts
    are replaced and the update time is set. Rows of other names are
    not touched. *)
Theorem storeSemanticMemory_keeps_first_identity (inp : StoreInput)
    (concept : PhilosophicalConcept) (source : ConceptSource) (st : Stores)
    (old : ConceptRow) :
  semantic_concepts st !! pc_name concept = Some old →
  1 ≤ pc_explorationLevel concept ≤ 10 →
  ∃ row st',
    storeSemanticMemory inp concept source st = (Ok tt, st')
    ∧ semantic_concepts st' !! pc_name concept = Some row
    ∧ cr_id row = cr_id old
    ∧ cr_sources row = cr_sources old
    ∧ cr_created_at row = cr_created_at old
    ∧ cr_definition row = pc_definition concept
    ∧ cr_related_concepts row = pc_relatedConcepts concept
    ∧ cr_updated_at row = si_now inp
    ∧ ∀ name, name ≠ pc_name concept →
        semantic_concepts st' !! name = semantic_concepts st !! name.
Proof.
  intros Hold Hl.
  destruct (storeSemanticMemory_table inp concept source st Hl)
    as (table & st' & Hup & Hrun & Htab).
  rewrite upsert_concept_in_range in Hup by (by apply level_in_range_spec).
  rewrite Hold in Hup. injection Hup as <-.
  eexists _, st'. split; [exact Hrun|]. rewrite Htab.
  split; [apply lookup_insert_eq|]. do 6 (split; [done|]).
  intros name Hne. by rewrite lookup_insert_ne.
Qed.

(** X17. Every store that reaches the vector collection adds a point
    under the id drawn for that call. After a concept is stored for the
    first time and then again, the table holds one row for the name,
    under the first id and with the larger of the two levels, while the
    collection holds a point under each id, the second carrying the
    level passed to the second call. *)
Theorem repeated_store_adds_a_vector_point (inp1 inp2 : StoreInput)
    (first second : PhilosophicalConcept) (source1 source2 : ConceptSource) (st : Stores)
    (v1 v2 : list float) :
  pc_name second = pc_name first →
  1 ≤ pc_explorationLevel first ≤ 10 →
  1 ≤ pc_explorationLevel second ≤ 10 →
  semantic_concepts st !! pc_name first = None →
  si_embedding inp1 = EmbeddingReturns v1 → v1 ≠ [] → si_upsert inp1 = Succeeds →
  si_embedding inp2 = EmbeddingReturns v2 → v2 ≠ [] → si_upsert inp2 = Succeeds →
  si_uuid inp1 ≠ si_uuid inp2 →
  ∃ st1 st2 row p1 p2,
    storeSemanticMemory inp1 first source1 st = (Ok tt, st1)
    ∧ storeSemanticMemory inp2 second source2 st1 = (Ok tt, st2)
    ∧ semantic_concepts st2 !! pc_name first = Some row
    ∧ cr_id row = si_uuid inp1
    ∧ cr_exploration_level row
      = Z.max (pc_explorationLevel first) (pc_explorationLevel second)
    ∧ semantic_collection st2 !! si_uuid inp1 = Some p1
    ∧ semantic_collection st2 !! si_uuid inp2 = Some p2
    ∧ sp_name p1 = pc_name first ∧ sp_name p2 = pc_name first
    ∧ sp_explorationLevel p1 = pc_explorationLevel first
    ∧ sp_explorationLevel p2 = pc_explorationLevel second.
Proof.
  intros Hname Hl1 Hl2 Hnew He1 Hv1 Hu1 He2 Hv2 Hu2 Hne.
  apply level_in_range_spec in Hl1, Hl2.
  assert (Hlen : ∀ v : list float, v ≠ [] → (0 <? List.length v)%nat = true).
  { intros [|x v] Hv; [done|reflexivity]. }
  unfold storeSemanticMemory at 1.
  rewrite upsert_concept_in_range, Hnew, He1, (Hlen v1 Hv1), Hu1 by done.
  eexists. eexists _, _, _, _. split; [reflexivity|].
  unfold storeSemanticMemory. cbn [semantic_concepts memories semantic_collection].
  rewrite upsert_concept_in_range, Hname, lookup_insert_eq, He2, (Hlen v2 Hv2), Hu2
    by done.
  split; [reflexivity|].
  cbn [semantic_concepts semantic_collection].
  split; [apply lookup_insert_eq|]. split; [done|]. split; [done|].
  split; [by rewrite lookup_insert_ne, lookup_insert_eq|].
  split; [apply lookup_insert_eq|]. done.
Qed.

Definition store_with (uuid : string) (t : Z) : StoreInput :=
  {| si_uuid := uuid; si_now := t; si_embedding := EmbeddingReturns [0.5%float];
     si_upsert := Succeeds |}.

Lemma storeSemanticMemory_keeps_first_identity_witness :
  ∃ old,
    semantic_concepts (storeSemanticMemory (store_with "uuid-3" 1) (qualia 7) searched
                         no_stores).2 !! pc_name (qualia 2) = Some old
    ∧ 1 ≤ pc_explorationLevel (qualia 2) ≤ 10
    ∧ ∃ row st',
        storeSemanticMemory (store_with "uuid-4" 2) (qualia 2) inferred
          (storeSemanticMemory (store_with "uuid-3" 1) (qualia 7) searched no_stores).2
        = (Ok tt, st')
        ∧ semantic_concepts st' !! pc_name (qualia 2) = Some row
        ∧ cr_id row = cr_id old
        ∧ cr_sources row = cr_sources old
        ∧ cr_created_at row = cr_created_at old
        ∧ cr_definition row = pc_definition (qualia 2)
        ∧ cr_related_concepts row = pc_relatedConcepts (qualia 2)
        ∧ cr_updated_at row = si_now (store_with "uuid-4" 2)
        ∧ ∀ name, name ≠ pc_name (qualia 2) →
            semantic_concepts st' !! name
            = semantic_concepts
                (storeSemanticMemory (store_with "uuid-3" 1) (qualia 7) searched
                   no_stores).2 !! name.
Proof.
  eexists. split; [vm_compute; reflexivity|]. split; [simpl; lia|].
  apply (storeSemanticMemory_keeps_first_identity (store_with "uuid-4" 2) (qualia 2)
           inferred); [vm_compute; reflexivity | simpl; lia].
Defined.

Lemma repeated_store_adds_a_vector_point_witness :
  pc_name (qualia 2) = pc_name (qualia 7)
  ∧ 1 ≤ pc_explorationLevel (qualia 7) ≤ 10
  ∧ 1 ≤ pc_explorationLevel (qualia 2) ≤ 10
  ∧ semantic_concepts no_stores !! pc_name (qualia 7) = None
  ∧ [0.5%float] ≠ []
  ∧ si_uuid (store_with "uuid-3" 1) ≠ si_uuid (store_with "uuid-4" 2)
  ∧ ∃ st1 st2 row p1 p2,
      storeSemanticMemory (store_with "uuid-3" 1) (qualia 7) searched no_stores
      = (Ok tt, st1)
      ∧ storeSemanticMemory (store_with "uuid-4" 2) (qualia 2) inferred st1 = (Ok tt, st2)
      ∧ semantic_concepts st2 !! pc_name (qualia 7) = Some row
      ∧ cr_id row = si_uuid (store_with "uuid-3" 1)
      ∧ cr_exploration_level row
        = Z.max (pc_explorationLevel (qualia 7)) (pc_explorationLevel (qualia 2))
      ∧ semantic_collection st2 !! si_uuid (store_with "uuid-3" 1) = Some p1
      ∧ semantic_collection st2 !! si_uuid (store_with "uuid-4" 2) = Some p2
      ∧ sp_name p1 = pc_name (qualia 7) ∧ sp_name p2 = pc_name (qualia 7)
      ∧ sp_explorationLevel p1 = pc_explorationLevel (qualia 7)
      ∧ sp_explorationLevel p2 = pc_explorationLevel (qualia 2).
Proof.
  split; [reflexivity|]. split; [simpl; lia|]. split; [simpl; lia|].
  split; [reflexivity|]. split; [discriminate|]. split; [discriminate|].
  apply (repeated_store_adds_a_vector_point (store_with "uuid-3" 1) (store_with "uuid-4" 2)
           (qualia 7) (qualia 2) searched inferred no_stores [0.5%float] [0.5%float]);
    try reflexivity; try discriminate; simpl; lia.
Defined.

(** ** [restoreState], whatever it is given *)

(** X18. After [restoreState] the depth is never above 10, whether the
    partial state supplies a depth or not: a depth the state held in
    memory is reset like a restored one. Depths of at most 10, negative
    ones included, are kept. *)
Theorem restoreState_depth_at_most_10 (w : World) (state : PartialState)
    (cur : DialogueState) :
  orchestrator_state w = Some cur →
  ∃ w' d,
    restoreState state w = (Ok tt, w')
    ∧ orchestrator_depth w' = Some d
    ∧ d ≤ 10
    ∧ d = (let restored := default (depth cur) (p_depth state) in
           if 10 <? restored then 0 else restored).
Proof.
  intros Hcur.
  destruct (restoreState_spec w state cur Hcur) as (w' & Hrun & Hst & _).
  exists w'. eexists. split; [exact Hrun|].
  unfold orchestrator_depth. rewrite Hst. split; [reflexivity|].
  unfold clamped, merged. cbn [depth]. rewrite Z.gtb_ltb. cbn zeta.
  destruct (10 <? default (depth cur) (p_depth state)) eqn:E; simpl; split; lia.
Qed.

(** X19. Restoring the same partial state twice leaves the orchestrator
    with the state that restoring it once leaves, referring to the same
    working memory, question thread and insight log. *)
Theorem restoreState_twice (w : World) (state : PartialState) :
  is_Some (orchestrator_state w) →
  ∃ w1 w2,
    restoreState state w = (Ok tt, w1)
    ∧ restoreState state w1 = (Ok tt, w2)
    ∧ internal_state w2 = internal_state w1.
Proof.
  intros [cur Hcur].
  destruct (restoreState_spec w state cur Hcur) as (w1 & E1 & Hs1 & Ha1 & Hc1 & Hq1).
  destruct (restoreState_spec w1 state _ Hs1) as (w2 & E2 & Hs2 & Ha2 & Hc2 & Hq2).
  exists w1, w2. split; [exact E1|]. split; [exact E2|].
  assert (Hsame : clamped (merged (clamped (merged cur state)) state)
                  = clamped (merged cur state)).
  { unfold clamped, merged.
    destruct state as [[?|] [?|] [?|] [?|] [d|] ? [?|]]; simpl;
      first [ by destruct (d >? 10)
            | destruct (depth cur >? 10) eqn:E; simpl; by rewrite ?E ]. }
  rewrite Hsame in Hs2.
  unfold internal_state, orchestrator_context, orchestrator_thread,
    orchestrator_insights. by rewrite Hs2, Hs1, Ha2, Hc2, Hq2.
Qed.

(** A world in which the depth held in memory is 12. *)
Definition world_at_12 : World :=
  (start (replicate 12 (answer long_question)) fresh_world).2.

Lemma restoreState_depth_at_most_10_witness :
  ∃ cur,
    orchestrator_state world_at_12 = Some cur
    ∧ ∃ w' d,
        restoreState (mkPartialState None None (Some reflecting) None None None None)
          world_at_12 = (Ok tt, w')
        ∧ orchestrator_depth w' = Some d
        ∧ d ≤ 10
        ∧ d = (let restored := default (depth cur) None in
               if 10 <? restored then 0 else restored).
Proof.
  destruct (orchestrator_state world_at_12) as [cur|] eqn:E;
    [|vm_compute in E; discriminate].
  exists cur. split; [reflexivity|].
  exact (restoreState_depth_at_most_10 world_at_12
           (mkPartialState None None (Some reflecting) None None None None) cur E).
Defined.

Example restoreState_without_depth :
  orchestrator_depth world_at_12 = Some 12
  ∧ orchestrator_depth
      (restoreState (mkPartialState None None (Some reflecting) None None None None)
         world_at_12).2 = Some 0.
Proof. vm_compute. split; reflexivity. Qed.

Lemma restoreState_twice_witness :
  is_Some (orchestrator_state fresh_world)
  ∧ ∃ w1 w2,
      restoreState restore_37 fresh_world = (Ok tt, w1)
      ∧ restoreState restore_37 w1 = (Ok tt, w2)
      ∧ internal_state w2 = internal_state w1.
Proof.
  assert (H : is_Some (orchestrator_state fresh_world)) by (eexists; vm_compute; reflexivity).
  split; [exact H|]. exact (restoreState_twice fresh_world restore_37 H).
Defined.

(** ** [startNewQuestionThread], in full *)

(** The topic [startNewQuestionThread] picks with the draw [random]. *)
Definition new_topic (random : nat) (q : QuestionThread) (a : list Insight) : string :=
  if (0 <? List.length (unexploredAspects q))%nat then
    default EmptyString
      (unexploredAspects q !! (random mod List.length (unexploredAspects q))%nat)
  else
    let insightConcepts :=
      List.concat (List.map ins_relatedConcepts (Js.slice_last 5 a)) in
    or_consciousness (insightConcepts !! (random mod List.length insightConcepts)%nat).

(** The orchestrator's objects are as [holds] says, and [l] is another
    state object, holding [s0]. *)
Definition holds_beside (o : loc) (s : DialogueState) (c : WorkingMemory)
    (a : list Insight) (q : QuestionThread) (h : list FrameworkEvent)
    (l : loc) (s0 : DialogueState) (w : World) : Prop :=
  holds o s c a q h w ∧ l ≠ o ∧ state_at w l = Some s0.

Lemma holds_getCurrentState o s c a q h :
  Hoare (holds o s c a q h) getCurrentState (λ l, holds_beside o s c a q h l s).
Proof.
  intros w H. pose proof H as (Ho & Hs & Hc & Ha & Hq & Hh).
  exists (List.length (states (heap w))), (push_state s w). split.
  - apply getCurrentState_Some. unfold orchestrator_state. by rewrite Ho.
  - split; [|split].
    + split; [done|]. split; [|done]. rewrite state_at_push_old; [done|by rewrite Hs].
    + apply not_eq_sym, state_at_fresh. by rewrite Hs.
    + apply state_at_push_new.
Qed.

Lemma holds_beside_assign_state o s c a q h l s0 f :
  Hoare (holds_beside o s c a q h l s0) (assign_state l f)
        (λ _, holds_beside o s c a q h l (f s0)).
Proof.
  intros w ((Ho & Hs & Hrest) & Hne & Hl). eexists tt, _. split.
  - by apply assign_state_Some.
  - split; [|split; [done|]].
    + split; [done|]. split; [|done]. by rewrite state_at_put_ne.
    + apply state_at_put_eq. by rewrite Hl.
Qed.

Lemma holds_beside_frame o s c a q h l s0 c' a' q' h' (k : M unit) :
  Hoare (holds o s c a q h) k (λ _, holds o s c' a' q' h') →
  (∀ w, states (heap (k w).2) = states (heap w)) →
  Hoare (holds_beside o s c a q h l s0) k (λ _, holds_beside o s c' a' q' h' l s0).
Proof.
  intros Hk Hst w (H & Hne & Hl). destruct (Hk w H) as ([] & w' & E & H').
  exists tt, w'. split; [done|]. split; [done|]. split; [done|].
  specialize (Hst w). rewrite E in Hst. simpl in Hst. unfold state_at. by rewrite Hst.
Qed.

Lemma holds_assign_context o s c a q h f :
  Hoare (holds o s c a q h) (assign_context (context s) f) (λ _, holds o s (f c) a q h).
Proof.
  unfold assign_context.
  eapply Hoare_bind; [apply holds_read_context|]. intros c'.
  apply Hoare_pure. intros ->. apply holds_write_context.
Qed.

Lemma assign_context_states l f w :
  states (heap (assign_context l f w).2) = states (heap w).
Proof.
  unfold assign_context, mbind, M_bind, bind, read_context, deref.
  by destruct (contexts (heap w) !! l).
Qed.

Lemma holds_beside_new_thread o s c a q h l s0 q0 :
  Hoare (holds_beside o s c a q h l s0) (new_thread q0)
        (λ _, holds_beside o s c a q h l s0).
Proof.
  intros w ((Ho & Hs & Hc & Ha & Hq & Hh) & Hne & Hl). eexists _, _.
  split; [reflexivity|]. split; [|by split].
  split; [done|]. split; [done|]. split; [done|]. split; [done|]. split; [|done].
  simpl. by apply lookup_app_l_Some.
Qed.

Lemma holds_beside_log o s c a q h l s0 line :
  Hoare (holds_beside o s c a q h l s0) (log line) (λ _, holds_beside o s c a q h l s0).
Proof. apply Hoare_modify. by intros w H. Qed.

Lemma startNewQuestionThread_holds random o s c a q h :
  Hoare (holds o s c a q h) (startNewQuestionThread random)
        (λ _, holds o s (with_currentTopic (new_topic random q a) c) a q h).
Proof.
  unfold startNewQuestionThread.
  eapply Hoare_bind; [apply holds_getCurrentState|]. intros l.
  eapply Hoare_bind with (Q := λ s' w, s' = s ∧ holds_beside o s c a q h l s w).
  { intros w H. exists s, w. split; [|done].
    destruct H as (_ & _ & Hl). by apply read_state_Some. }
  intros s'. apply Hoare_pure. intros ->.
  eapply Hoare_bind
    with (Q := λ u w, u = unexploredAspects q ∧ holds_beside o s c a q h l s w).
  { intros w H. exists (unexploredAspects q), w. split; [|done].
    destruct H as ((_ & _ & _ & _ & Hq & _) & _).
    unfold unexplored_of, peek_thread, mbind, M_bind, bind. by rewrite Hq. }
  intros u. apply Hoare_pure. intros ->. unfold new_topic.
  destruct (0 <? List.length (unexploredAspects q))%nat.
  - eapply Hoare_bind.
    { apply holds_beside_frame; [apply holds_assign_context|].
      apply assign_context_states. }
    intros ?. eapply Hoare_bind; [apply holds_beside_assign_state|]. intros ?.
    eapply Hoare_bind; [apply holds_beside_new_thread|]. intros q'.
    eapply Hoare_bind; [apply holds_beside_assign_state|]. intros ?.
    eapply Hoare_weaken; [apply holds_beside_log | done |]. by intros ? w (H & _).
  - eapply Hoare_bind
      with (Q := λ r w, r = Js.slice_last 5 a ∧ holds_beside o s c a q h l s w).
    { intros w H. exists (Js.slice_last 5 a), w. split; [|done].
      destruct H as ((Ho & Hs & _ & Ha & _) & _).
      apply (getRecentInsights_Some w s a 5); [|done].
      unfold orchestrator_state. by rewrite Ho. }
    intros r. apply Hoare_pure. intros ->.
    eapply Hoare_bind.
    { apply holds_beside_frame; [apply holds_assign_context|].
      apply assign_context_states. }
    intros ?. eapply Hoare_bind; [apply holds_beside_assign_state|]. intros ?.
    eapply Hoare_weaken; [apply holds_beside_log | done |]. by intros ? w (H & _).
Qed.

(** X20. [startNewQuestionThread] changes the current topic and nothing
    else of the orchestrator: the state object, with its depth, the
    question thread, the insight log and the event history are as they
    were. The new topic is one of the thread's unexplored aspects when
    there is one, and otherwise a concept related to one of the last
    five insights, or 'consciousness'. *)
Theorem startNewQuestionThread_changes_the_topic_only (random : nat) (w : World) :
  well_formed w →
  ∃ s c q a t w',
    internal_state w = (Some s, Some c, Some q, Some a)
    ∧ startNewQuestionThread random w = (Ok tt, w')
    ∧ orch_currentState w' = orch_currentState w
    ∧ internal_state w' = (Some s, Some (with_currentTopic t c), Some q, Some a)
    ∧ orch_eventHistory w' = orch_eventHistory w
    ∧ (unexploredAspects q ≠ [] → t ∈ unexploredAspects q)
    ∧ (unexploredAspects q = [] →
       t = "consciousness"
       ∨ ∃ i, i ∈ Js.slice_last 5 a ∧ t ∈ ins_relatedConcepts i).
Proof.
  intros Hwf. destruct (well_formed_holds w Hwf) as (s & c & a & q & H).
  destruct (startNewQuestionThread_holds random _ _ _ _ _ _ w H) as ([] & w' & E & H').
  exists s, c, q, a, (new_topic random q a), w'.
  split; [by apply holds_internal_state in H|]. split; [exact E|].
  split; [by destruct H' as (? & _)|].
  split; [by apply holds_internal_state in H'|].
  split; [by destruct H' as (_ & _ & _ & _ & _ & ?)|].
  unfold new_topic. split.
  - intros Hne. destruct (unexploredAspects q) as [|x u] eqn:Eu; [done|].
    cbn [List.length Nat.ltb Nat.leb].
    destruct ((x :: u) !! (random mod S (List.length u))%nat) as [t|] eqn:Et.
    + simpl. by eapply list_elem_of_lookup_2.
    + apply lookup_ge_None in Et. simpl in Et.
      pose proof (Nat.mod_upper_bound random (S (List.length u))). lia.
  - intros ->. simpl.
    set (cs := List.concat _).
    destruct (cs !! (random mod List.length cs)%nat) as [t|] eqn:Et; simpl; [|by left].
    case_bool_decide; [by left|]. right.
    apply list_elem_of_lookup_2 in Et. subst cs.
    apply elem_of_concat in Et as (l & Hl & Ht).
    apply elem_of_map in Hl as (i & <- & Hi). by exists i.
Qed.

Lemma startNewQuestionThread_changes_the_topic_only_witness :
  well_formed fresh_world
  ∧ ∃ s c q a t w',
      internal_state fresh_world = (Some s, Some c, Some q, Some a)
      ∧ startNewQuestionThread 7 fresh_world = (Ok tt, w')
      ∧ orch_currentState w' = orch_currentState fresh_world
      ∧ internal_state w' = (Some s, Some (with_currentTopic t c), Some q, Some a)
      ∧ orch_eventHistory w' = orch_eventHistory fresh_world
      ∧ (unexploredAspects q ≠ [] → t ∈ unexploredAspects q)
      ∧ (unexploredAspects q = [] →
         t = "consciousness"
         ∨ ∃ i, i ∈ Js.slice_last 5 a ∧ t ∈ ins_relatedConcepts i).
Proof.
  split; [exact well_formed_fresh_world|].
  exact (startNewQuestionThread_changes_the_topic_only 7 fresh_world
           well_formed_fresh_world).
Defined.
